(** * Order book with maximum price, and time-weighted average price (TWAP)

    A shallow embedding of the classes [OrderBook] and [TWAP] of the
    TWAP-from-file program, and the properties of its specification.

    - [int] is a 32-bit two's complement integer, kept as a [Z] whose
      arithmetic wraps around (the language leaves signed overflow
      undefined; the theorems say where no overflow occurs).
    - [double] is IEEE 754 binary64, through the executable specification
      [SpecFloat] of the standard library (precision 53, [emax] 1024).
      Every operation of an expression rounds to a double, in the order in
      which the program writes it.
    - [std::map<K,V>] is a list of entries in ascending key order; every
      operation compares keys with the map's [Compare] only, as the
      container does.  An iterator is represented by the key it points to.
      The container requires a strict weak ordering of its keys, which [<]
      is on the doubles other than NaN.
    - A member function is a function from the object before the call to
      the object after it; [None] is a call whose behaviour is undefined.

    The definitions come first, the properties after them.
*)

From Stdlib Require Import ZArith Bool List Lia Permutation Sorted.
From Stdlib Require Import QArith Qpower Qfield Lqa.
From Stdlib Require Import Floats.SpecFloat.
From Stdlib Require Strings.String.
Import ListNotations.

Local Open Scope Z_scope.

(** ** 32-bit integers *)

Abbreviation int := Z (only parsing).

Module Int.

Definition min_int : Z := - 2 ^ 31.
Definition max_int : Z := 2 ^ 31 - 1.

Definition in_range (z : Z) : Prop := min_int <= z <= max_int.

(** Reduction of a mathematical integer to its 32-bit two's complement
    representative. *)
Definition wrap (z : Z) : int := (z + 2 ^ 31) mod 2 ^ 32 - 2 ^ 31.

Definition add (a b : int) : int := wrap (a + b).
Definition sub (a b : int) : int := wrap (a - b).

End Int.

(** ** Doubles *)

Definition double := spec_float.

Module Double.

Definition prec : Z := 53.
Definition emax : Z := 1024.

Definition quiet_NaN : double := S754_nan.

Definition isnan (x : double) : bool :=
  match x with S754_nan => true | _ => false end.

Definition add : double -> double -> double := SFadd prec emax.
Definition mul : double -> double -> double := SFmul prec emax.
Definition div : double -> double -> double := SFdiv prec emax.

(** [a < b], [a == b] and [a <= b] of the language: false when an operand
    is NaN. *)
Definition ltb : double -> double -> bool := SFltb.
Definition eqb : double -> double -> bool := SFeqb.
Definition leb : double -> double -> bool := SFleb.

(** Conversion of an [int] to [double]: the nearest double, which is the
    integer itself since it has at most 32 significant bits. *)
Definition of_int (z : int) : double := binary_normalize prec emax z 0 false.

(** Conversion of a [double] to [int]: truncation toward zero.  The
    conversion of a value that does not fit has no defined result in the
    language; the model gives what the conversion instruction of x86
    gives, the smallest [int]. *)
Definition to_int (x : double) : int :=
  match x with
  | S754_zero _ => 0
  | S754_finite s m e =>
      let t := cond_Zopp s (match e with
                            | Zneg p => Z.shiftr (Zpos m) (Zpos p)
                            | _ => Z.shiftl (Zpos m) e
                            end) in
      if (Int.min_int <=? t) && (t <=? Int.max_int) then t else Int.min_int
  | _ => Int.min_int
  end.

Definition not_nan (x : double) : Prop := isnan x = false.

(** The doubles that are numbers: neither NaN nor an infinity, and with
    the mantissa and exponent of a binary64 value. *)
Definition is_real (x : double) : bool :=
  match x with
  | S754_zero _ => true
  | S754_finite _ m e => bounded prec emax m e
  | _ => false
  end.

(** [isfinite] of the language: neither NaN nor an infinity. *)
Definition is_finite (x : double) : bool :=
  match x with
  | S754_zero _ | S754_finite _ _ _ => true
  | _ => false
  end.

(** A decimal constant with one or two digits after the point, read as
    the compiler reads it: the double nearest to [n / d]. *)
Definition ratio (n d : Z) : double := div (of_int n) (of_int d).

End Double.

(** ** Rounding

    What the proofs say of the rounding of [SpecFloat]. *)

(** The double of a positive integer below [2 ^ 53]: the integer itself,
    with its mantissa shifted to 53 bits. *)
Definition normal (n : positive) : positive * Z :=
  shl_align n 0 (Zpos (digits2_pos n) - Double.prec).

(** The number of bits that rounding drops from a mantissa. *)
Definition dropped (m e : Z) : Z :=
  Z.max 0 (fexp Double.prec Double.emax (Zdigits2 m + e) - e).

(** What the division of a double by [1] to [2 ^ 31] gives. *)
Definition quotient_of (s : bool) (m : positive) (e : Z) (n : positive)
  (b : double) : Prop :=
  b = S754_zero s \/
  exists mb eb,
    b = S754_finite s mb eb /\ -1074 <= eb <= 971 /\ Zpos mb < 2 ^ 53 /\
    (eb = -1074 \/
     2 ^ 52 <= Zpos mb /\
     Zpos mb * Zpos n * 2 ^ (eb + 1074)
     <= Zpos m * 2 ^ (e + 1074) + Zpos n * 2 ^ (eb + 1074)).

(** ** [std::map] *)

Module StdMap.

Section Ops.

Context {K V : Type}.

(** The comparison object of the map ([std::less<K>]). *)
Variable ltb : K -> K -> bool.

(** Entries in ascending key order. *)
Definition t := list (K * V).

(** Two keys are equivalent when neither is less than the other. *)
Definition equivb (a b : K) : bool := negb (ltb a b) && negb (ltb b a).

(** [m.find(k)]: the entry whose key is equivalent to [k]; [None] is
    [m.end()]. *)
Fixpoint find (k : K) (m : t) : option (K * V) :=
  match m with
  | [] => None
  | (k', v) :: r =>
      if ltb k' k then find k r
      else if ltb k k' then None
      else Some (k', v)
  end.

(** [m.insert(pair(k, v))]: the map afterwards, and whether the entry was
    inserted.  A map that holds an equivalent key is left as it is. *)
Fixpoint insert (k : K) (v : V) (m : t) : t * bool :=
  match m with
  | [] => ([(k, v)], true)
  | (k', v') :: r =>
      if ltb k' k then
        let (r', b) := insert k v r in ((k', v') :: r', b)
      else if ltb k k' then ((k, v) :: m, true)
      else (m, false)
  end.

(** [it->second = f (it->second)] for the iterator [it] at the key
    equivalent to [k]. *)
Fixpoint update (k : K) (f : V -> V) (m : t) : t :=
  match m with
  | [] => []
  | (k', v) :: r =>
      if ltb k' k then (k', v) :: update k f r
      else if ltb k k' then m
      else (k', f v) :: r
  end.

(** [m.erase(it)] for the iterator [it] at the key equivalent to [k]. *)
Fixpoint erase (k : K) (m : t) : t :=
  match m with
  | [] => []
  | (k', v) :: r =>
      if ltb k' k then (k', v) :: erase k r
      else if ltb k k' then m
      else r
  end.

(** [m.rbegin()]: the entry with the largest key; [None] is [m.rend()]. *)
Fixpoint rbegin (m : t) : option (K * V) :=
  match m with
  | [] => None
  | [e] => Some e
  | _ :: r => rbegin r
  end.

Definition keys (m : t) : list K := map fst m.

(** The representation invariant of a map, for the keys [good] on which
    the comparison is a strict weak ordering: keys strictly ascending. *)
Definition lt_key (a b : K) : Prop := ltb a b = true.

Definition wf (good : K -> Prop) (m : t) : Prop :=
  StronglySorted lt_key (keys m) /\ Forall good (keys m).

End Ops.

(** What [std::map] requires of its comparison, on the keys [good]. *)
Class StrictWeak {K : Type} (ltb : K -> K -> bool) (good : K -> Prop)
  : Prop := {
  sw_irrefl : forall x, ltb x x = false;
  sw_trans : forall x y z,
    ltb x y = true -> ltb y z = true -> ltb x z = true;
  sw_negtrans : forall x y z,
    good y -> ltb x z = true -> ltb x y = true \/ ltb y z = true
}.

End StdMap.

(** ** The order book *)

Module Book.

Record OrderBook := {
  order_price_map_ : StdMap.t (K := int) (V := double);
  price_count_map_ : StdMap.t (K := double) (V := int)
}.

Definition set_order_price_map (m : StdMap.t) (b : OrderBook) : OrderBook :=
  {| order_price_map_ := m; price_count_map_ := price_count_map_ b |}.

Definition set_price_count_map (m : StdMap.t) (b : OrderBook) : OrderBook :=
  {| order_price_map_ := order_price_map_ b; price_count_map_ := m |}.

(** The constructor. *)
Definition new : OrderBook :=
  {| order_price_map_ := []; price_count_map_ := [] |}.

Definition insert_order (order_id : int) (price : double) (b : OrderBook)
  : OrderBook :=
  let order_pair := StdMap.insert Z.ltb order_id price (order_price_map_ b) in
  let b := set_order_price_map (fst order_pair) b in
  if negb (snd order_pair) then b
  else
    let price_pair := StdMap.insert Double.ltb price 1 (price_count_map_ b) in
    let b := set_price_count_map (fst price_pair) b in
    if negb (snd price_pair) then
      set_price_count_map
        (StdMap.update Double.ltb price (fun c => Int.add c 1)
           (price_count_map_ b)) b
    else b.

(** [erase_order] dereferences [price_it] without comparing it with
    [end()]; the result is [None] where it would dereference [end()]. *)
Definition erase_order (order_id : int) (b : OrderBook) : option OrderBook :=
  match StdMap.find Z.ltb order_id (order_price_map_ b) with
  | None => Some b
  | Some (_, price) =>
      let b :=
        set_order_price_map
          (StdMap.erase Z.ltb order_id (order_price_map_ b)) b in
      match StdMap.find Double.ltb price (price_count_map_ b) with
      | None => None
      | Some (_, count) =>
          let count := Int.sub count 1 in
          let b :=
            set_price_count_map
              (StdMap.update Double.ltb price (fun _ => count)
                 (price_count_map_ b)) b in
          if count <=? 0 then
            Some (set_price_count_map
                    (StdMap.erase Double.ltb price (price_count_map_ b)) b)
          else Some b
      end
  end.

Definition max_price (b : OrderBook) : double :=
  match StdMap.rbegin (price_count_map_ b) with
  | None => Double.quiet_NaN
  | Some (price, _) => price
  end.

(** The calls a driver makes on a book. *)
Inductive call :=
| Insert (order_id : int) (price : double)
| Erase (order_id : int).

Definition step (b : OrderBook) (c : call) : option OrderBook :=
  match c with
  | Insert order_id price => Some (insert_order order_id price b)
  | Erase order_id => erase_order order_id b
  end.

Fixpoint run (cs : list call) (b : OrderBook) : option OrderBook :=
  match cs with
  | [] => Some b
  | c :: cs' =>
      match step b c with
      | Some b' => run cs' b'
      | None => None
      end
  end.

(** The calls whose price is a number. *)
Definition valid_call (c : call) : Prop :=
  match c with
  | Insert _ price => Double.not_nan price
  | Erase _ => True
  end.

(** The books that a driver can reach from a fresh one.  A count is an
    [int]: the bound on the number of calls keeps it from overflowing. *)
Definition reachable (b : OrderBook) : Prop :=
  exists cs, Forall valid_call cs /\
             Z.of_nat (length cs) <= Int.max_int /\
             run cs new = Some b.

(** The number of live orders whose price compares equal to [p]. *)
Definition count_at (p : double) (m : StdMap.t (K := int) (V := double)) : Z :=
  Z.of_nat (length (filter (fun e => Double.eqb (snd e) p) m)).

(** The sum of the counts of a price histogram. *)
Definition total (m : StdMap.t (K := double) (V := int)) : Z :=
  fold_right (fun e acc => snd e + acc) 0 m.

Definition any_key (_ : int) : Prop := True.

(** The invariant that ties the two maps together. *)
Record Inv (b : OrderBook) : Prop := {
  inv_orders : StdMap.wf Z.ltb any_key (order_price_map_ b);
  inv_prices : StdMap.wf Double.ltb Double.not_nan (price_count_map_ b);
  inv_real : Forall (fun e => Double.not_nan (snd e)) (order_price_map_ b);
  inv_count : forall p, Double.not_nan p ->
    option_map snd (StdMap.find Double.ltb p (price_count_map_ b)) =
    if count_at p (order_price_map_ b) =? 0 then None
    else Some (count_at p (order_price_map_ b));
  inv_total :
    total (price_count_map_ b) = Z.of_nat (length (order_price_map_ b))
}.

Definition live (b : OrderBook) : Z := Z.of_nat (length (order_price_map_ b)).

(** The price recorded for an order, when it is live. *)
Definition price_of (order_id : int) (b : OrderBook) : option double :=
  option_map snd (StdMap.find Z.ltb order_id (order_price_map_ b)).

(** The trace of the program's [main]: three orders at 10.0, 13.0 and
    13.0, then the two orders at 13.0 erased. *)
Definition three_orders : list call :=
  [Insert 100 (Double.of_int 10); Insert 101 (Double.of_int 13);
   Insert 102 (Double.of_int 13)].

Definition two_erased : list call := three_orders ++ [Erase 101; Erase 102].

(** "First price wins", read for every book: the price of [order_id]
    after [insert_order order_id p] and [insert_order order_id p2] is [p],
    and the second call changes nothing. *)
Definition first_price_everywhere : Prop :=
  forall b order_id p p2, reachable b -> p2 <> p ->
    let b1 := insert_order order_id p b in
    let b2 := insert_order order_id p2 b1 in
    price_of order_id b2 = Some p /\ b2 = b1.

End Book.

(** ** The time-weighted average price *)

Module Twap.

(** The arithmetic of prices that [TWAP] uses: the program runs on
    [binary64]. *)
Class Arith (P : Type) := {
  quiet_NaN : P;
  isnan : P -> bool;
  of_int : int -> P;
  to_int : P -> int;
  add : P -> P -> P;
  mul : P -> P -> P;
  div : P -> P -> P
}.

#[export] Instance binary64 : Arith double := {
  quiet_NaN := Double.quiet_NaN;
  isnan := Double.isnan;
  of_int := Double.of_int;
  to_int := Double.to_int;
  add := Double.add;
  mul := Double.mul;
  div := Double.div
}.

Section Generic.

Context {P : Type} {A : Arith P}.

Record TWAP := {
  last_price_ : P;
  last_time_ : int;
  avg_price_ : P;
  total_time_ : int
}.

Definition set_last_price (x : P) (t : TWAP) : TWAP :=
  {| last_price_ := x; last_time_ := last_time_ t;
     avg_price_ := avg_price_ t; total_time_ := total_time_ t |}.

Definition set_last_time (x : int) (t : TWAP) : TWAP :=
  {| last_price_ := last_price_ t; last_time_ := x;
     avg_price_ := avg_price_ t; total_time_ := total_time_ t |}.

Definition set_avg_price (x : P) (t : TWAP) : TWAP :=
  {| last_price_ := last_price_ t; last_time_ := last_time_ t;
     avg_price_ := x; total_time_ := total_time_ t |}.

Definition set_total_time (x : int) (t : TWAP) : TWAP :=
  {| last_price_ := last_price_ t; last_time_ := last_time_ t;
     avg_price_ := avg_price_ t; total_time_ := x |}.

(** The constructor. *)
Definition new : TWAP :=
  {| last_price_ := quiet_NaN; last_time_ := 0;
     avg_price_ := quiet_NaN; total_time_ := 0 |}.

Definition next_price (time : int) (price : P) (t : TWAP) : TWAP :=
  let t :=
    if negb (isnan (last_price_ t)) then
      let add_time := Int.sub time (last_time_ t) in
      if 0 <? total_time_ t then
        let new_total_time := of_int (Int.add (total_time_ t) add_time) in
        let t :=
          set_avg_price
            (add (mul (div (avg_price_ t) new_total_time)
                      (of_int (total_time_ t)))
                 (mul (div (last_price_ t) new_total_time)
                      (of_int add_time))) t in
        set_total_time (to_int new_total_time) t
      else
        let t := set_avg_price (last_price_ t) t in
        set_total_time add_time t
    else t in
  let t := set_last_price price t in
  set_last_time time t.

Definition avg_price (t : TWAP) : P := avg_price_ t.

(** A driver: the samples fed in order, and the value of [avg_price]
    after each call. *)
Fixpoint feed (l : list (int * P)) (t : TWAP) : TWAP :=
  match l with
  | [] => t
  | (time, price) :: r => feed r (next_price time price t)
  end.

Fixpoint averages (l : list (int * P)) (t : TWAP) : list P :=
  match l with
  | [] => []
  | (time, price) :: r =>
      let t' := next_price time price t in
      avg_price t' :: averages r t'
  end.

(** Whether some call of [feed l t] integrates an interval: whether it
    finds a price recorded by the call before it. *)
Fixpoint integrates (l : list (int * P)) (t : TWAP) : bool :=
  match l with
  | [] => false
  | (time, price) :: r =>
      negb (isnan (last_price_ t)) || integrates r (next_price time price t)
  end.

(** The same, read off the samples: a sample other than the last one
    carries a price. *)
Definition priced_before_last (l : list (int * P)) : bool :=
  existsb (fun x => negb (isnan (snd x))) (removelast l).

(** The caller's contract on times: not decreasing from one call to the
    next, and between [from] and the largest [int]. *)
Fixpoint times_from (from : int) (l : list (int * P)) : Prop :=
  match l with
  | [] => True
  | (time, _) :: r => from <= time <= Int.max_int /\ times_from time r
  end.


(** What the caller's contract gives of the times of an accumulator. *)
Definition time_inv (t : TWAP) : Prop :=
  0 <= total_time_ t <= last_time_ t /\ last_time_ t <= Int.max_int.

(** The same price at each of the times [ts]. *)
Definition constant (p : P) (ts : list int) : list (int * P) :=
  map (fun time => (time, p)) ts.

End Generic.

Arguments TWAP P : clear implicits.

(** The conversions between [int] and prices lose nothing, and the "no
    price" value is recognised. *)
Class ArithLaws {P : Type} (A : Arith P) : Prop := {
  to_of_int_law : forall z, Int.in_range z -> to_int (of_int z) = z;
  isnan_quiet_NaN : isnan quiet_NaN = true
}.

Definition NO_PRICE : double := Double.quiet_NaN.

(** The prices of the interface: a number, or "no price". *)
Definition price_ok (p : double) : Prop :=
  Double.isnan p = true \/ Double.is_real p = true.

Definition prices_ok (l : list (int * double)) : Prop :=
  Forall (fun x => price_ok (snd x)) l.

(** The invariant of the accumulator in doubles, under the caller's
    contract: once an interval of positive length is integrated, the
    average is not "no price". *)
Definition defined_inv (t : TWAP double) : Prop :=
  time_inv t /\ price_ok (last_price_ t) /\
  (0 < total_time_ t -> Double.isnan (avg_price_ t) = false).

(** The sample sequence of the specification's reference trace. *)
Definition golden : list (int * double) :=
  [(1000, NO_PRICE); (2000, Double.of_int 10); (2200, Double.of_int 13);
   (2400, Double.of_int 13); (2500, Double.of_int 10); (4000, NO_PRICE)].

(** The fold step with the weights [elapsed / total] and [dt / total]
    computed first, as the specification writes it. *)
Definition weighted (avg prev : double) (elapsed dt : int) : double :=
  Double.add
    (Double.mul avg
       (Double.div (Double.of_int elapsed) (Double.of_int (elapsed + dt))))
    (Double.mul prev
       (Double.div (Double.of_int dt) (Double.of_int (elapsed + dt)))).

Definition weighted_step : Prop :=
  forall l time price,
    times_from 0 (l ++ [(time, price)]) ->
    let t := feed l new in
    Double.isnan (last_price_ t) = false ->
    let dt := time - last_time_ t in
    let t' := next_price time price t in
    if total_time_ t =? 0 then
      avg_price_ t' = last_price_ t /\ total_time_ t' = dt
    else
      avg_price_ t' = weighted (avg_price_ t) (last_price_ t) (total_time_ t) dt
      /\ total_time_ t' = total_time_ t + dt.

(** The golden trace with 12.0 as its fourth average. *)
Definition golden_fourth_is_12 : Prop :=
  exists x y,
    averages golden new =
    [NO_PRICE; NO_PRICE; Double.of_int 10; Double.of_int 12; x; y].


(** A sample with an infinite price followed by a call at the same time,
    after an interval was integrated. *)
Definition infinite_price : list (int * double) :=
  [(1000, Double.of_int 10); (2000, S754_infinity false);
   (2000, Double.of_int 10)].

(** The average is "no price" exactly when no interval was integrated,
    whatever doubles the prices are. *)
Definition sentinel_iff_not_integrated : Prop :=
  forall l : list (int * double),
    times_from 0 l ->
    Double.isnan (avg_price (feed l new)) = negb (integrates l new).


End Twap.

(** ** Quantities of the two classes *)

(** The count that [price_count_map_] holds for a price: [0] where [find]
    gives [end()]. *)
Definition stored_count (p : double) (b : Book.OrderBook) : int :=
  match StdMap.find Double.ltb p (Book.price_count_map_ b) with
  | Some (_, c) => c
  | None => 0
  end.

(** The calls whose price is a finite number. *)
Definition real_call (c : Book.call) : Prop :=
  match c with
  | Book.Insert _ price => Double.is_real price = true
  | Book.Erase _ => True
  end.

(** The calls that erase every live order of a book, in the order of
    their ids. *)
Definition erase_all (b : Book.OrderBook) : list Book.call :=
  map (fun e => Book.Erase (fst e)) (Book.order_price_map_ b).

Section Durations.

Context {P : Type} {A : Twap.Arith P}.

(** The time for which a price was in force over the samples [l], which
    follow a sample at [prev_time] with [prev_price]: the lengths of the
    intervals that begin at a sample with a price. *)
Fixpoint priced_time (prev_time : int) (prev_price : P) (l : list (int * P))
  : Z :=
  match l with
  | [] => 0
  | (time, price) :: r =>
      (if Twap.isnan prev_price then 0 else time - prev_time)
      + priced_time time price r
  end.

(** The samples [l], each [c] later. *)
Definition shift (c : int) (l : list (int * P)) : list (int * P) :=
  map (fun x => (fst x + c, snd x)) l.

End Durations.

(** The doubles that are not below zero, or are NaN: [x < 0] is false. *)
Definition not_negative (x : double) : Prop :=
  Double.ltb x (Double.of_int 0) = false.

(** ** The numbers that doubles stand for *)

(** The number that a finite double stands for; [0] for an infinity and
    for NaN, which stand for no number. *)
Definition value_of (x : double) : Q :=
  match x with
  | S754_finite s m e =>
      ((if s then -1 else 1) * inject_Z (Zpos m) * 2 ^ e)%Q
  | _ => 0%Q
  end.

(** The positive normal doubles: the sign bit clear and a mantissa of 53
    bits, from [2 ^ -1022] to the largest double. *)
Definition pos_normal (x : double) : bool :=
  match x with
  | S754_finite false m e =>
      bounded Double.prec Double.emax m e && (2 ^ 52 <=? Zpos m)
  | _ => false
  end.

Definition exponent_of (x : double) : Z :=
  match x with
  | S754_finite _ _ e => e
  | _ => 0
  end.

(** The bound on the relative error of one rounding that the proofs use:
    one unit in the last place of a normal double, [2 ^ -52]. *)
Definition eps : Q := 1 # 4503599627370496.

(** What [k] folds, of three roundings each, can add to a value and take
    from it. *)
Definition grow (k : nat) : Q := ((1 + eps) ^ (3 * Z.of_nat k))%Q.

Definition shrink (k : nat) : Q := ((1 - eps) ^ (3 * Z.of_nat k))%Q.

(** The prices between [lo] and [hi]: "no price", or a positive normal
    double that stands for a number from [lo] to [hi]. *)
Definition fine_price (lo hi : Q) (p : double) : Prop :=
  Double.isnan p = true \/
  (pos_normal p = true /\ (lo <= value_of p <= hi)%Q).

(** The bounds with which [n] folds neither overflow nor leave the normal
    doubles. *)
Definition in_range (lo hi : Q) (n : nat) : Prop :=
  (2 ^ (-960) <= lo * shrink n)%Q /\ (hi * grow n <= 2 ^ 960)%Q.

(** The sum of price times duration over the intervals that begin at a
    sample with a price, the prices taken for the numbers they stand
    for. *)
Fixpoint priced_value (prev_time : int) (prev_price : double)
  (l : list (int * double)) : Q :=
  match l with
  | [] => 0%Q
  | (time, price) :: r =>
      ((if Double.isnan prev_price then 0
        else value_of prev_price * inject_Z (time - prev_time))
       + priced_value time price r)%Q
  end.

(** The invariant of the accumulator for prices between [lo] and [hi],
    after at most [k] folds over intervals whose prices times durations
    sum to [mass]: the average is between the bounds, and the average
    times [total_time_] is [mass], each within the roundings of [k]
    folds. *)
Definition mean_inv (lo hi : Q) (k : nat) (mass : Q)
  (t : Twap.TWAP double) : Prop :=
  Twap.time_inv t /\
  fine_price lo hi (Twap.last_price_ t) /\
  (Double.isnan (Twap.avg_price_ t) = true \/
   (pos_normal (Twap.avg_price_ t) = true /\
    (lo * shrink k <= value_of (Twap.avg_price_ t) <= hi * grow k)%Q)) /\
  (0 < Twap.total_time_ t ->
   Double.isnan (Twap.avg_price_ t) = false /\
   (mass * shrink k
    <= value_of (Twap.avg_price_ t) * inject_Z (Twap.total_time_ t)
    <= mass * grow k)%Q) /\
  (lo * inject_Z (Twap.total_time_ t) <= mass
   <= hi * inject_Z (Twap.total_time_ t))%Q.

(** ** The program *)

Module Program.

Import Book Twap.
Import String.StringSyntax.

Local Open Scope string_scope.
Local Open Scope Z_scope.

(** What is written to a stream: one item for each operand of [<<]. *)
Inductive item :=
| Text (s : String.string)
| Integer (n : int)
| Number (x : double)
| Endl.

(** The objects of [main] and what it has written to [cout]. *)
Record process := {
  order_book : OrderBook;
  twap : TWAP double;
  cout : list item
}.

(** One step of [main]: a call on the book, the maximum price given to the
    accumulator with the time, and a line of output. *)
Definition tick (time : int) (c : call) (s : process) : option process :=
  match step (order_book s) c with
  | None => None
  | Some b =>
      let t := next_price time (max_price b) (twap s) in
      Some {| order_book := b;
              twap := t;
              cout := cout s ++
                      [Integer time; Text " | "; Number (max_price b);
                       Text " | "; Number (avg_price t); Endl] |}
  end.

Fixpoint ticks (l : list (int * call)) (s : process) : option process :=
  match l with
  | [] => Some s
  | (time, c) :: r =>
      match tick time c s with
      | Some s' => ticks r s'
      | None => None
      end
  end.

(** The samples that [ticks l] gives to the accumulator, from the book
    [b]. *)
Fixpoint fed (l : list (int * call)) (b : OrderBook) : list (int * double) :=
  match l with
  | [] => []
  | (time, c) :: r =>
      match step b c with
      | Some b' => (time, max_price b') :: fed r b'
      | None => []
      end
  end.

(** The calls of [main], with their times. *)
Definition script : list (int * call) :=
  [(1000, Insert 100 (Double.of_int 10));
   (2000, Insert 101 (Double.of_int 13));
   (2200, Insert 102 (Double.of_int 13));
   (2400, Erase 101);
   (2500, Erase 102);
   (4000, Erase 100)].

(** [main], from its arguments ([argc] is their number) to its exit
    status, what it writes to [cerr] and what it writes to [cout]. *)
Definition main (argv : list String.string)
  : option (int * list item * list item) :=
  if Z.of_nat (length argv) <? 2 then
    Some (1, [Text "ERROR: Please specify file name as argument."], [])
  else
    let file_name := nth 1 argv String.EmptyString in
    let out := [Text "File name: "; Text file_name; Endl] in
    let order_book := Book.new in
    let twap := Twap.new in
    let out := out ++ [Number (max_price order_book); Endl] in
    match
      ticks script {| order_book := order_book; twap := twap; cout := out |}
    with
    | None => None
    | Some s => Some (0, [], cout s ++ [Text "DONE."; Endl])
    end.

End Program.

(** * Properties *)

(** ** 32-bit integers *)

Lemma wrap_in_range (z : Z) : Int.in_range (Int.wrap z).
Proof.
  unfold Int.in_range, Int.wrap, Int.min_int, Int.max_int.
  pose proof (Z.mod_pos_bound (z + 2 ^ 31) (2 ^ 32) ltac:(lia)). lia.
Qed.

Lemma wrap_small (z : Z) : Int.in_range z -> Int.wrap z = z.
Proof.
  unfold Int.in_range, Int.wrap, Int.min_int, Int.max_int. intros H.
  rewrite Z.mod_small; lia.
Qed.

(** ** The order of the doubles *)

Ltac cmp_cases :=
  repeat match goal with
  | |- context [Pos.compare_cont Eq ?a ?b] =>
      change (Pos.compare_cont Eq a b) with (Pos.compare a b)
  | H : context [Pos.compare_cont Eq ?a ?b] |- _ =>
      change (Pos.compare_cont Eq a b) with (Pos.compare a b) in H
  end;
  repeat match goal with
  | H : context [Z.compare ?a ?b] |- _ =>
      destruct (Z.compare_spec a b); simpl in H
  | H : context [Pos.compare ?a ?b] |- _ =>
      destruct (Pos.compare_spec a b); simpl in H
  | |- context [Z.compare ?a ?b] =>
      destruct (Z.compare_spec a b); simpl
  | |- context [Pos.compare ?a ?b] =>
      destruct (Pos.compare_spec a b); simpl
  end;
  subst; try congruence; try lia.

Lemma dlt_irrefl (x : double) : Double.ltb x x = false.
Proof.
  unfold Double.ltb, SFltb, SFcompare.
  destruct x as [s|s| |s m e]; try destruct s; simpl; try reflexivity;
    rewrite Z.compare_refl;
    change (Pos.compare_cont Eq m m) with (Pos.compare m m);
    rewrite Pos.compare_refl; reflexivity.
Qed.

Lemma dlt_trans (x y z : double) :
  Double.ltb x y = true -> Double.ltb y z = true -> Double.ltb x z = true.
Proof.
  unfold Double.ltb, SFltb, SFcompare.
  destruct x as [sx|sx| |sx mx ex], y as [sy|sy| |sy my ey],
    z as [sz|sz| |sz mz ez];
    try destruct sx; try destruct sy; try destruct sz; simpl;
    intros H1 H2; try congruence; cmp_cases.
Qed.

Lemma dlt_negtrans (x y z : double) :
  Double.not_nan y ->
  Double.ltb x z = true -> Double.ltb x y = true \/ Double.ltb y z = true.
Proof.
  unfold Double.not_nan, Double.isnan, Double.ltb, SFltb, SFcompare.
  destruct x as [sx|sx| |sx mx ex], y as [sy|sy| |sy my ey],
    z as [sz|sz| |sz mz ez];
    try destruct sx; try destruct sy; try destruct sz; simpl;
    intros Hy H1; try congruence; auto; cmp_cases; auto.
Qed.

Lemma deq_equiv (x y : double) :
  Double.not_nan x -> Double.not_nan y ->
  Double.eqb x y = StdMap.equivb Double.ltb x y.
Proof.
  unfold Double.not_nan, Double.isnan, StdMap.equivb, Double.eqb, Double.ltb,
    SFeqb, SFltb, SFcompare.
  destruct x as [sx|sx| |sx mx ex], y as [sy|sy| |sy my ey];
    try destruct sx; try destruct sy; simpl;
    intros Hx Hy; try congruence; cmp_cases.
Qed.

Lemma dle_not_lt (x y : double) :
  Double.not_nan x -> Double.not_nan y ->
  Double.leb x y = negb (Double.ltb y x).
Proof.
  unfold Double.not_nan, Double.isnan, Double.leb, Double.ltb,
    SFleb, SFltb, SFcompare.
  destruct x as [sx|sx| |sx mx ex], y as [sy|sy| |sy my ey];
    try destruct sx; try destruct sy; simpl;
    intros Hx Hy; try congruence; cmp_cases.
Qed.

#[export] Instance dlt_strict_weak :
  StdMap.StrictWeak Double.ltb Double.not_nan.
Proof.
  constructor.
  - apply dlt_irrefl.
  - apply dlt_trans.
  - apply dlt_negtrans.
Qed.

#[export] Instance zlt_strict_weak : StdMap.StrictWeak Z.ltb Book.any_key.
Proof.
  constructor; intros *; rewrite ?Z.ltb_lt, ?Z.ltb_irrefl; auto; lia.
Qed.

(** ** [std::map] on a strict weak ordering *)

Section MapFacts.

Context {K V : Type}.
Variable ltb : K -> K -> bool.

(** The keys on which [ltb] is a strict weak ordering: for [double] these
    are the keys other than NaN. *)
Variable good : K -> Prop.

Context {SW : StdMap.StrictWeak ltb good}.

Implicit Types (m r : StdMap.t (K := K) (V := V)) (k a b c x y z : K).
Implicit Types (v : V) (e : K * V) (f : V -> V).

Local Notation "'map_wf'" := (StdMap.wf (V := V) ltb good).

Lemma ltb_irrefl x : ltb x x = false.
Proof. exact (StdMap.sw_irrefl (good := good) x). Qed.

Lemma ltb_trans x y z : ltb x y = true -> ltb y z = true -> ltb x z = true.
Proof. exact (StdMap.sw_trans (good := good) x y z). Qed.

Lemma ltb_negtrans x y z :
  good y -> ltb x z = true -> ltb x y = true \/ ltb y z = true.
Proof. exact (StdMap.sw_negtrans x y z). Qed.

Ltac ord_sat :=
  repeat match goal with
  | H : ltb ?x ?x = true |- _ => rewrite ltb_irrefl in H; discriminate H
  | H1 : ltb ?x ?y = true, H2 : ltb ?y ?z = true |- _ =>
      lazymatch goal with
      | _ : ltb x z = true |- _ => fail
      | _ => pose proof (ltb_trans x y z H1 H2)
      end
  | H1 : ltb ?x ?z = true, H2 : ltb ?x ?y = false |- _ =>
      lazymatch goal with
      | _ : ltb y z = true |- _ => fail
      | _ =>
          let G := fresh in
          assert (G : ltb y z = true)
            by (destruct (ltb_negtrans x y z ltac:(assumption) H1);
                congruence)
      end
  | H1 : ltb ?x ?z = true, H2 : ltb ?y ?z = false |- _ =>
      lazymatch goal with
      | _ : ltb x y = true |- _ => fail
      | _ =>
          let G := fresh in
          assert (G : ltb x y = true)
            by (destruct (ltb_negtrans x y z ltac:(assumption) H1);
                congruence)
      end
  end.

Ltac ord := ord_sat; try congruence.

Lemma wf_nil : map_wf [].
Proof. split; constructor. Qed.

Lemma wf_cons_inv k v m :
  map_wf ((k, v) :: m) ->
  good k /\ map_wf m /\ Forall (fun e => ltb k (fst e) = true) m.
Proof.
  intros [Hs Hg]. simpl in Hs, Hg. inversion Hs; subst. inversion Hg; subst.
  repeat split; auto.
  unfold StdMap.keys in *. rewrite Forall_map in H2. exact H2.
Qed.

Lemma wf_cons k v m :
  good k -> map_wf m -> Forall (fun e => ltb k (fst e) = true) m ->
  map_wf ((k, v) :: m).
Proof.
  intros Hk [Hs Hg] Hlt. split; simpl; constructor; auto.
  unfold StdMap.keys. rewrite Forall_map. exact Hlt.
Qed.

Lemma equivb_true a b :
  StdMap.equivb ltb a b = true <-> ltb a b = false /\ ltb b a = false.
Proof.
  unfold StdMap.equivb.
  destruct (ltb a b), (ltb b a); simpl; intuition congruence.
Qed.

Lemma equivb_false a b :
  StdMap.equivb ltb a b = false <-> ltb a b = true \/ ltb b a = true.
Proof.
  unfold StdMap.equivb.
  destruct (ltb a b), (ltb b a); simpl; intuition congruence.
Qed.

Lemma equivb_refl a : StdMap.equivb ltb a a = true.
Proof. unfold StdMap.equivb. rewrite ltb_irrefl. reflexivity. Qed.

Lemma equivb_sym a b : StdMap.equivb ltb a b = StdMap.equivb ltb b a.
Proof. unfold StdMap.equivb. apply andb_comm. Qed.

(** Equivalent keys compare alike with every key. *)
Lemma equivb_ltb_l a b c :
  good a -> good b -> StdMap.equivb ltb a b = true -> ltb a c = ltb b c.
Proof.
  intros Ha Hb H. apply equivb_true in H as [H1 H2].
  destruct (ltb a c) eqn:E1, (ltb b c) eqn:E2; auto; ord.
Qed.

Lemma equivb_ltb_r a b c :
  good a -> good b -> StdMap.equivb ltb a b = true -> ltb c a = ltb c b.
Proof.
  intros Ha Hb H. apply equivb_true in H as [H1 H2].
  destruct (ltb c a) eqn:E1, (ltb c b) eqn:E2; auto; ord.
Qed.

Lemma equivb_trans_l a b c :
  good a -> good b ->
  StdMap.equivb ltb a b = true -> StdMap.equivb ltb a c = StdMap.equivb ltb b c.
Proof.
  intros Ha Hb H. unfold StdMap.equivb.
  rewrite (equivb_ltb_l a b c), (equivb_ltb_r a b c); auto.
Qed.

(** *** [find] *)

Lemma find_equiv k k' m :
  good k -> good k' -> StdMap.equivb ltb k k' = true ->
  StdMap.find ltb k m = StdMap.find ltb k' m.
Proof.
  intros Hk Hk' He. induction m as [|[a v] r IH]; simpl; auto.
  rewrite (equivb_ltb_r k k' a), (equivb_ltb_l k k' a), IH; auto.
Qed.

Lemma find_some k m e :
  StdMap.find ltb k m = Some e ->
  In e m /\ StdMap.equivb ltb (fst e) k = true.
Proof.
  induction m as [|[a v] r IH]; simpl; [discriminate|].
  destruct (ltb a k) eqn:E1.
  - intros H. destruct (IH H). auto.
  - destruct (ltb k a) eqn:E2; [discriminate|].
    intros H. inversion H; subst. split; auto.
    apply equivb_true. auto.
Qed.

Lemma find_none k m :
  map_wf m -> good k ->
  StdMap.find ltb k m = None ->
  Forall (fun e => StdMap.equivb ltb (fst e) k = false) m.
Proof.
  induction m as [|[a v] r IH]; simpl; intros Hw Hk H; [constructor|].
  apply wf_cons_inv in Hw as (Ha & Hr & Hlt).
  destruct (ltb a k) eqn:E1.
  - constructor; [apply equivb_false; auto | auto].
  - destruct (ltb k a) eqn:E2; [|discriminate].
    constructor; [apply equivb_false; auto|].
    rewrite Forall_forall in *. intros e He. specialize (Hlt e He).
    apply equivb_false. right. ord.
Qed.

Lemma find_in k v m :
  map_wf m -> In (k, v) m -> StdMap.find ltb k m = Some (k, v).
Proof.
  induction m as [|[a w] r IH]; simpl; intros Hw Hin; [contradiction|].
  apply wf_cons_inv in Hw as (Ha & Hr & Hlt).
  destruct Hin as [H|H].
  - inversion H; subst. rewrite ltb_irrefl. reflexivity.
  - rewrite Forall_forall in Hlt. specialize (Hlt _ H). simpl in Hlt.
    rewrite Hlt. auto.
Qed.

(** *** [insert] *)

Lemma insert_inserted k v m :
  snd (StdMap.insert ltb k v m) = true <-> StdMap.find ltb k m = None.
Proof.
  induction m as [|[a w] r IH]; simpl; [tauto|].
  destruct (ltb a k) eqn:E1.
  - destruct (StdMap.insert ltb k v r) as [r' b]. simpl in *. exact IH.
  - destruct (ltb k a) eqn:E2; simpl; intuition congruence.
Qed.

Lemma insert_present k v m :
  snd (StdMap.insert ltb k v m) = false -> fst (StdMap.insert ltb k v m) = m.
Proof.
  induction m as [|[a w] r IH]; simpl; [discriminate|].
  destruct (ltb a k) eqn:E1.
  - destruct (StdMap.insert ltb k v r) as [r' b]. simpl in *.
    intros H. rewrite (IH H). reflexivity.
  - destruct (ltb k a) eqn:E2; simpl; auto. discriminate.
Qed.

Lemma insert_perm k v m :
  snd (StdMap.insert ltb k v m) = true ->
  Permutation (fst (StdMap.insert ltb k v m)) ((k, v) :: m).
Proof.
  induction m as [|[a w] r IH]; simpl; [auto|].
  destruct (ltb a k) eqn:E1.
  - destruct (StdMap.insert ltb k v r) as [r' b]. simpl in *.
    intros H. rewrite (IH H). apply perm_swap.
  - destruct (ltb k a) eqn:E2; simpl; auto. discriminate.
Qed.

Lemma insert_wf k v m :
  map_wf m -> good k -> map_wf (fst (StdMap.insert ltb k v m)).
Proof.
  induction m as [|[a w] r IH]; simpl; intros Hw Hk.
  - apply wf_cons; auto using wf_nil.
  - pose proof Hw as Hw0.
    apply wf_cons_inv in Hw as (Ha & Hr & Hlt).
    destruct (ltb a k) eqn:E1.
    + destruct (StdMap.insert ltb k v r) as [r' b] eqn:Ei. simpl in *.
      apply wf_cons; auto.
      destruct b.
      * assert (Hp : Permutation r' ((k, v) :: r))
          by (pose proof (insert_perm k v r) as P; rewrite Ei in P; auto).
        rewrite Hp. constructor; auto.
      * pose proof (insert_present k v r) as P. rewrite Ei in P.
        simpl in P. rewrite P; auto.
    + destruct (ltb k a) eqn:E2; simpl; auto.
      apply wf_cons; auto. constructor; auto.
      rewrite Forall_forall in *. intros e He. specialize (Hlt e He). ord.
Qed.

Lemma find_insert k v m k' :
  map_wf m -> good k -> good k' ->
  StdMap.find ltb k m = None ->
  StdMap.find ltb k' (fst (StdMap.insert ltb k v m)) =
  if StdMap.equivb ltb k k' then Some (k, v) else StdMap.find ltb k' m.
Proof.
  intros Hw Hk Hk'. induction m as [|[a w] r IH]; simpl; intros Hf.
  - unfold StdMap.equivb.
    destruct (ltb k k') eqn:E1; simpl; auto.
    destruct (ltb k' k) eqn:E2; simpl; auto.
  - apply wf_cons_inv in Hw as (Ha & Hr & Hlt).
    destruct (ltb a k) eqn:E1.
    + destruct (StdMap.insert ltb k v r) as [r' b] eqn:Ei. simpl in *.
      destruct (ltb a k') eqn:E3; [auto|].
      destruct (StdMap.equivb ltb k k') eqn:Ee.
      * apply equivb_true in Ee as [? ?]. ord.
      * reflexivity.
    + destruct (ltb k a) eqn:E2; [|discriminate]. simpl.
      unfold StdMap.equivb.
      destruct (ltb k k') eqn:E3; simpl; auto.
      destruct (ltb k' k) eqn:E4; simpl; auto.
      destruct (ltb a k') eqn:E5; [ord|].
      destruct (ltb k' a) eqn:E6; [auto|ord].
Qed.

(** *** [update] *)

Lemma update_keys k f m :
  StdMap.keys (StdMap.update ltb k f m) = StdMap.keys m.
Proof.
  induction m as [|[a w] r IH]; simpl; auto.
  destruct (ltb a k); simpl; [rewrite IH; auto|].
  destruct (ltb k a); reflexivity.
Qed.

Lemma update_wf k f m : map_wf m -> map_wf (StdMap.update ltb k f m).
Proof. unfold StdMap.wf. rewrite update_keys. auto. Qed.

Lemma find_update k f m k' :
  map_wf m -> good k -> good k' ->
  StdMap.find ltb k' (StdMap.update ltb k f m) =
  if StdMap.equivb ltb k k' then
    option_map (fun e => (fst e, f (snd e))) (StdMap.find ltb k' m)
  else StdMap.find ltb k' m.
Proof.
  intros Hw Hk Hk'. induction m as [|[a w] r IH]; simpl.
  - destruct (StdMap.equivb ltb k k'); reflexivity.
  - apply wf_cons_inv in Hw as (Ha & Hr & Hlt).
    specialize (IH Hr).
    destruct (StdMap.equivb ltb k k') eqn:Ee.
    + rewrite <- (equivb_ltb_r k k' a), <- (equivb_ltb_l k k' a) by auto.
      destruct (ltb a k) eqn:E1; simpl.
      * rewrite <- (equivb_ltb_r k k' a) by auto. rewrite E1. auto.
      * destruct (ltb k a) eqn:E2; simpl.
        -- rewrite <- (equivb_ltb_r k k' a), <- (equivb_ltb_l k k' a) by auto.
           rewrite E1, E2. reflexivity.
        -- rewrite <- (equivb_ltb_r k k' a), <- (equivb_ltb_l k k' a) by auto.
           rewrite E1, E2. reflexivity.
    + apply equivb_false in Ee.
      destruct (ltb a k) eqn:E1; simpl.
      * destruct (ltb a k') eqn:E3; auto.
      * destruct (ltb k a) eqn:E2; simpl; auto.
        destruct (ltb a k') eqn:E3.
        -- reflexivity.
        -- destruct (ltb k' a) eqn:E4; auto. destruct Ee; ord.
Qed.

Lemma find_update_same k f m e :
  StdMap.find ltb k m = Some e ->
  StdMap.find ltb k (StdMap.update ltb k f m) = Some (fst e, f (snd e)).
Proof.
  induction m as [|[a w] r IH]; simpl; [discriminate|].
  destruct (ltb a k) eqn:E1; simpl.
  - rewrite E1. auto.
  - destruct (ltb k a) eqn:E2; [discriminate|]. simpl. rewrite E1, E2.
    intros H. inversion H; subst. reflexivity.
Qed.

(** *** [erase] *)

Lemma erase_absent k m :
  StdMap.find ltb k m = None -> StdMap.erase ltb k m = m.
Proof.
  induction m as [|[a w] r IH]; simpl; auto.
  destruct (ltb a k) eqn:E1.
  - intros H. rewrite IH; auto.
  - destruct (ltb k a) eqn:E2; [auto|discriminate].
Qed.

Lemma erase_perm k m e :
  StdMap.find ltb k m = Some e ->
  Permutation m (e :: StdMap.erase ltb k m).
Proof.
  induction m as [|[a w] r IH]; simpl; [discriminate|].
  destruct (ltb a k) eqn:E1.
  - intros H. rewrite (IH H) at 1. apply perm_swap.
  - destruct (ltb k a) eqn:E2; [discriminate|].
    intros H. inversion H; subst. reflexivity.
Qed.

Lemma erase_incl k m e : In e (StdMap.erase ltb k m) -> In e m.
Proof.
  induction m as [|[a w] r IH]; simpl; auto.
  destruct (ltb a k) eqn:E1; simpl.
  - intuition.
  - destruct (ltb k a) eqn:E2; simpl; auto.
Qed.

Lemma erase_wf k m : map_wf m -> map_wf (StdMap.erase ltb k m).
Proof.
  induction m as [|[a w] r IH]; simpl; auto. intros Hw.
  pose proof Hw as Hw0.
  apply wf_cons_inv in Hw as (Ha & Hr & Hlt).
  destruct (ltb a k) eqn:E1.
  - apply wf_cons; auto.
    rewrite Forall_forall in *. intros e He. apply Hlt.
    eapply erase_incl; eauto.
  - destruct (ltb k a) eqn:E2; auto.
Qed.

Lemma find_erase k m k' :
  map_wf m -> good k -> good k' ->
  StdMap.find ltb k' (StdMap.erase ltb k m) =
  if StdMap.equivb ltb k k' then None else StdMap.find ltb k' m.
Proof.
  intros Hw Hk Hk'. induction m as [|[a w] r IH]; simpl.
  - destruct (StdMap.equivb ltb k k'); reflexivity.
  - apply wf_cons_inv in Hw as (Ha & Hr & Hlt).
    specialize (IH Hr).
    destruct (StdMap.equivb ltb k k') eqn:Ee.
    + destruct (ltb a k) eqn:E1; simpl.
      * rewrite <- (equivb_ltb_r k k' a) by auto. rewrite E1. auto.
      * destruct (ltb k a) eqn:E2; simpl.
        -- rewrite <- (equivb_ltb_r k k' a), <- (equivb_ltb_l k k' a) by auto.
           rewrite E1, E2. reflexivity.
        -- (* the entry at [a] is erased; [k'] is below every later key *)
           destruct r as [|[b u] r']; simpl; auto.
           inversion Hlt; subst. simpl in *.
           destruct (ltb b k') eqn:E3.
           ++ apply equivb_true in Ee as [? ?]. ord.
           ++ destruct (ltb k' b) eqn:E4; auto.
              apply equivb_true in Ee as [? ?]. ord.
    + apply equivb_false in Ee.
      destruct (ltb a k) eqn:E1; simpl.
      * destruct (ltb a k') eqn:E3; auto.
      * destruct (ltb k a) eqn:E2; simpl; auto.
        destruct (ltb a k') eqn:E3; auto.
        destruct (ltb k' a) eqn:E4.
        -- destruct r as [|[b u] r']; simpl; auto.
           inversion Hlt; subst. simpl in *.
           destruct (ltb b k') eqn:E5; [ord|].
           destruct (ltb k' b) eqn:E6; [auto|ord].
        -- destruct Ee; ord.
Qed.

(** *** [rbegin] *)

Lemma rbegin_none m : StdMap.rbegin m = None <-> m = [].
Proof.
  induction m as [|e r IH]; simpl; [tauto|].
  destruct r; [split; discriminate|].
  rewrite IH. split; discriminate.
Qed.

Lemma rbegin_max m e :
  map_wf m -> StdMap.rbegin m = Some e ->
  In e m /\ forall e', In e' m -> ltb (fst e) (fst e') = false.
Proof.
  induction m as [|[a w] r IH]; simpl; [discriminate|].
  intros Hw. apply wf_cons_inv in Hw as (Ha & Hr & Hlt).
  destruct r as [|e0 r'].
  - intros H. inversion H; subst. split; auto.
    intros e' [<-|[]]. simpl. apply ltb_irrefl.
  - intros H. destruct (IH Hr H) as [Hin Hmax]. split; auto.
    intros e' [<-|He']; auto. simpl.
    rewrite Forall_forall in Hlt. specialize (Hlt _ Hin).
    destruct (ltb (fst e) a) eqn:E; auto. ord.
Qed.

End MapFacts.

(** ** The order book *)

Section BookFacts.

Import Book.

Ltac ilia := unfold live in *; simpl in *; lia.

Ltac book_simpl :=
  cbn [price_count_map_ order_price_map_
       set_price_count_map set_order_price_map live] in *.

Lemma any_key_I (k : int) : any_key k.
Proof. exact I. Qed.

Lemma zequiv_eq (a b : Z) : StdMap.equivb Z.ltb a b = true -> a = b.
Proof.
  unfold StdMap.equivb. rewrite andb_true_iff, !negb_true_iff, !Z.ltb_ge. lia.
Qed.

Lemma deq_refl (p : double) : Double.not_nan p -> Double.eqb p p = true.
Proof.
  intros H. rewrite deq_equiv by auto.
  unfold StdMap.equivb. rewrite dlt_irrefl. reflexivity.
Qed.

Lemma deq_not_nan (p q : double) :
  Double.eqb p q = true -> Double.not_nan p /\ Double.not_nan q.
Proof.
  unfold Double.eqb, SFeqb, SFcompare, Double.not_nan, Double.isnan.
  destruct p, q; simpl; intros; try discriminate; auto.
Qed.

(** *** Counting *)

Lemma count_at_cons p id q m :
  count_at p ((id, q) :: m) =
  (if Double.eqb q p then 1 else 0) + count_at p m.
Proof.
  unfold count_at. simpl. destruct (Double.eqb q p); simpl length; lia.
Qed.

Lemma count_at_perm p m m' :
  Permutation m m' -> count_at p m = count_at p m'.
Proof.
  intros H. unfold count_at. f_equal.
  induction H; simpl; auto.
  - destruct (Double.eqb (snd x) p); simpl; auto.
  - destruct (Double.eqb (snd x) p), (Double.eqb (snd y) p); simpl; auto.
  - congruence.
Qed.

Lemma count_at_bounds p m : 0 <= count_at p m <= Z.of_nat (length m).
Proof.
  unfold count_at.
  pose proof (filter_length_le (fun e => Double.eqb (snd e) p) m).
  lia.
Qed.

Lemma count_at_equiv p p' m :
  Double.not_nan p -> Double.not_nan p' ->
  Forall (fun e => Double.not_nan (snd e)) m ->
  StdMap.equivb Double.ltb p p' = true ->
  count_at p m = count_at p' m.
Proof.
  intros Hp Hp' Hm He. unfold count_at. f_equal. f_equal.
  apply filter_ext_in. intros [id q] Hin. simpl.
  rewrite Forall_forall in Hm. specialize (Hm _ Hin). simpl in Hm.
  rewrite !deq_equiv by auto.
  rewrite !(equivb_sym Double.ltb q).
  apply (equivb_trans_l Double.ltb Double.not_nan); auto.
Qed.

Lemma count_at_pos p m :
  0 < count_at p m -> exists id q, In (id, q) m /\ Double.eqb q p = true.
Proof.
  unfold count_at. intros H.
  destruct (filter (fun e => Double.eqb (snd e) p) m) as [|[id q] l] eqn:E;
    [simpl in H; lia|].
  assert (Hin : In (id, q) (filter (fun e => Double.eqb (snd e) p) m))
    by (rewrite E; left; reflexivity).
  apply filter_In in Hin as [Hin Hq]. eauto.
Qed.

Lemma count_at_in p id q m :
  In (id, q) m -> Double.eqb q p = true -> 0 < count_at p m.
Proof.
  intros Hin Hq. unfold count_at.
  assert (H : In (id, q) (filter (fun e => Double.eqb (snd e) p) m))
    by (apply filter_In; auto).
  destruct (filter (fun e => Double.eqb (snd e) p) m); [contradiction|].
  simpl length. lia.
Qed.

Lemma total_perm m m' : Permutation m m' -> total m = total m'.
Proof.
  intros H. unfold total. induction H; simpl; lia.
Qed.

Lemma total_update k f m e :
  StdMap.find Double.ltb k m = Some e ->
  total (StdMap.update Double.ltb k f m) = total m - snd e + f (snd e).
Proof.
  induction m as [|[a w] r IH]; simpl; [discriminate|].
  destruct (Double.ltb a k) eqn:E1; simpl.
  - intros H. rewrite (IH H). lia.
  - destruct (Double.ltb k a) eqn:E2; [discriminate|].
    intros H. inversion H; subst. simpl. lia.
Qed.

Lemma total_erase k m e :
  StdMap.find Double.ltb k m = Some e ->
  total (StdMap.erase Double.ltb k m) = total m - snd e.
Proof.
  intros H. pose proof (total_perm _ _ (erase_perm Double.ltb k m e H)) as P.
  change (total (e :: StdMap.erase Double.ltb k m))
    with (snd e + total (StdMap.erase Double.ltb k m)) in P.
  lia.
Qed.

Lemma total_insert k v m :
  snd (StdMap.insert Double.ltb k v m) = true ->
  total (fst (StdMap.insert Double.ltb k v m)) = v + total m.
Proof.
  intros H. rewrite (total_perm _ _ (insert_perm Double.ltb k v m H)).
  reflexivity.
Qed.

Lemma book_eta (b : OrderBook) :
  {| order_price_map_ := order_price_map_ b;
     price_count_map_ := price_count_map_ b |} = b.
Proof. destruct b; reflexivity. Qed.

(** *** The invariant *)

Lemma Inv_new : Inv new.
Proof.
  constructor; simpl; try (split; constructor); auto.
Qed.

Lemma insert_order_present order_id price b :
  StdMap.find Z.ltb order_id (order_price_map_ b) <> None ->
  insert_order order_id price b = b.
Proof.
  intros H. unfold insert_order.
  destruct (snd (StdMap.insert Z.ltb order_id price (order_price_map_ b)))
    eqn:E.
  - apply insert_inserted in E. contradiction.
  - simpl. unfold set_order_price_map. rewrite insert_present by auto.
    apply book_eta.
Qed.

Lemma insert_order_Inv order_id price b :
  Inv b -> Double.not_nan price -> live b < Int.max_int ->
  Inv (insert_order order_id price b) /\
  live (insert_order order_id price b) <= live b + 1.
Proof.
  intros HI Hp Hlive.
  destruct (StdMap.find Z.ltb order_id (order_price_map_ b)) eqn:Hf.
  { rewrite insert_order_present by congruence. split; [auto|lia]. }
  destruct HI as [Ho Hpc Hr Hc Ht]. unfold live in *.
  unfold insert_order.
  pose proof (proj2 (insert_inserted Z.ltb order_id price _) Hf) as Hi.
  pose proof (insert_perm Z.ltb order_id price _ Hi) as Hperm.
  pose proof (insert_wf Z.ltb any_key order_id price _ Ho
                (any_key_I order_id)) as Ho'.
  destruct (StdMap.insert Z.ltb order_id price (order_price_map_ b))
    as [opm ins]. simpl in Hi, Hperm, Ho'. subst ins. simpl fst. simpl snd.
  simpl negb. cbv iota.
  assert (Hcnt : forall p, count_at p opm =
                 (if Double.eqb price p then 1 else 0)
                 + count_at p (order_price_map_ b)).
  { intros p. rewrite (count_at_perm p _ _ Hperm). apply count_at_cons. }
  assert (Hlen : Z.of_nat (length opm)
                 = Z.of_nat (length (order_price_map_ b)) + 1).
  { rewrite (Permutation_length Hperm). simpl length.
    rewrite Nat2Z.inj_succ. reflexivity. }
  assert (Hr' : Forall (fun e => Double.not_nan (snd e)) opm).
  { rewrite Hperm. constructor; auto. }
  assert (Heq : forall p, Double.not_nan p ->
            Double.eqb price p = StdMap.equivb Double.ltb price p)
    by (intros; apply deq_equiv; auto).
  simpl price_count_map_.
  destruct (snd (StdMap.insert Double.ltb price 1 (price_count_map_ b)))
    eqn:Hi2; simpl negb; cbv iota.
  - (* a new price point *)
    pose proof (proj1 (insert_inserted Double.ltb price 1 _) Hi2) as Hf2.
    split; [|ilia].
    constructor; simpl; auto.
    + apply insert_wf; auto; exact _.
    + intros p Hnp.
      rewrite (find_insert Double.ltb Double.not_nan) by auto.
      rewrite Hcnt, Heq by auto. pose proof (Hc p Hnp) as Hcq.
      destruct (StdMap.equivb Double.ltb price p) eqn:Ee.
      * assert (H0 : count_at p (order_price_map_ b) = 0).
        { rewrite <- (count_at_equiv price p) by auto.
          pose proof (Hc price Hp) as Hcp. rewrite Hf2 in Hcp. simpl in Hcp.
          destruct (count_at price (order_price_map_ b) =? 0) eqn:Ez;
            [apply Z.eqb_eq in Ez; exact Ez | discriminate]. }
        rewrite H0. reflexivity.
      * rewrite !Z.add_0_l. exact Hcq.
    + rewrite total_insert by auto. lia.
  - (* one more order at a price point of the map *)
    apply insert_present in Hi2 as Hsame.
    assert (Hf2 : StdMap.find Double.ltb price (price_count_map_ b) <> None).
    { intros Hn. apply insert_inserted with (v := 1) in Hn. congruence. }
    rewrite Hsame.
    destruct (StdMap.find Double.ltb price (price_count_map_ b))
      as [[a c]|] eqn:Hfp; [clear Hf2|congruence].
    pose proof (Hc price Hp) as Hcp. rewrite Hfp in Hcp. simpl in Hcp.
    pose proof (count_at_bounds price (order_price_map_ b)) as Hb.
    destruct (count_at price (order_price_map_ b) =? 0) eqn:Ez;
      [discriminate|]. apply Z.eqb_neq in Ez. inversion Hcp; subst c.
    assert (Hw : Int.add (count_at price (order_price_map_ b)) 1
                 = count_at price (order_price_map_ b) + 1).
    { apply wrap_small. unfold Int.in_range, Int.min_int, Int.max_int in *.
      lia. }
    split; [|ilia].
    constructor; simpl; auto.
    + apply update_wf; auto.
    + intros p Hnp.
      rewrite (find_update Double.ltb Double.not_nan) by auto.
      rewrite Hcnt, Heq by auto. pose proof (Hc p Hnp) as Hcq.
      destruct (StdMap.equivb Double.ltb price p) eqn:Ee.
      * rewrite <- (find_equiv Double.ltb Double.not_nan price p) by auto.
        rewrite Hfp. cbn [option_map fst snd]. rewrite Hw.
        rewrite <- (count_at_equiv price p) by auto.
        destruct (1 + count_at price (order_price_map_ b) =? 0) eqn:E0;
          [apply Z.eqb_eq in E0; lia|].
        f_equal. lia.
      * rewrite !Z.add_0_l. exact Hcq.
    + rewrite (total_update _ _ _ _ Hfp). cbn [snd]. rewrite Hw. lia.
Qed.

Lemma erase_order_absent order_id b :
  StdMap.find Z.ltb order_id (order_price_map_ b) = None ->
  erase_order order_id b = Some b.
Proof. intros H. unfold erase_order. rewrite H. reflexivity. Qed.

Lemma erase_order_Inv order_id b :
  Inv b -> live b <= Int.max_int ->
  exists b', erase_order order_id b = Some b' /\ Inv b' /\
             live b' <= live b /\
             StdMap.find Z.ltb order_id (order_price_map_ b') = None.
Proof.
  intros HI Hlive.
  destruct (StdMap.find Z.ltb order_id (order_price_map_ b))
    as [[id price]|] eqn:Hf.
  2:{ exists b. rewrite erase_order_absent by auto.
      split; [reflexivity|]. split; [assumption|]. split; [lia|assumption]. }
  destruct HI as [Ho Hpc Hr Hc Ht]. unfold live in *.
  unfold erase_order. rewrite Hf.
  pose proof (erase_perm Z.ltb order_id _ _ Hf) as Hperm.
  pose proof (erase_wf Z.ltb any_key order_id _ Ho) as Ho'.
  pose proof (find_erase Z.ltb any_key order_id _ order_id Ho
                (any_key_I _) (any_key_I _)) as Hgone.
  rewrite (equivb_refl Z.ltb any_key) in Hgone.
  remember (StdMap.erase Z.ltb order_id (order_price_map_ b)) as opm
    eqn:Eopm. clear Eopm.
  assert (Hp : Double.not_nan price).
  { rewrite Forall_forall in Hr. apply find_some in Hf as [Hin _].
    apply (Hr _ Hin). }
  assert (Hr' : Forall (fun e => Double.not_nan (snd e)) opm).
  { rewrite Hperm in Hr. inversion Hr; auto. }
  assert (Hcnt : forall p, count_at p (order_price_map_ b) =
                 count_at p opm + (if Double.eqb price p then 1 else 0)).
  { intros p. rewrite (count_at_perm p _ _ Hperm), count_at_cons. lia. }
  assert (Hlen : Z.of_nat (length (order_price_map_ b))
                 = Z.of_nat (length opm) + 1).
  { rewrite (Permutation_length Hperm). simpl length.
    rewrite Nat2Z.inj_succ. reflexivity. }
  assert (Heq : forall p, Double.not_nan p ->
            Double.eqb price p = StdMap.equivb Double.ltb price p)
    by (intros; apply deq_equiv; auto).
  pose proof (Hc price Hp) as Hcp.
  pose proof (count_at_bounds price opm) as Hb.
  pose proof (count_at_bounds price (order_price_map_ b)) as Hb0.
  rewrite Hcnt, deq_refl in Hcp by auto.
  cbn [price_count_map_ set_order_price_map].
  destruct (StdMap.find Double.ltb price (price_count_map_ b))
    as [[a c]|] eqn:Hfp.
  2:{ destruct (count_at price opm + 1 =? 0) eqn:E0;
        [apply Z.eqb_eq in E0; lia | discriminate]. }
  destruct (count_at price opm + 1 =? 0) eqn:E0; [discriminate|].
  cbn [option_map snd] in Hcp. inversion Hcp; subst c. clear Hcp E0.
  assert (Hw : Int.sub (count_at price opm + 1) 1 = count_at price opm).
  { unfold Int.sub. rewrite wrap_small; [lia|].
    unfold Int.in_range, Int.min_int, Int.max_int in *. lia. }
  cbv beta iota zeta. rewrite Hw.
  pose proof (update_wf Double.ltb Double.not_nan price
                (fun _ => count_at price opm) _ Hpc) as Hpc'.
  pose proof (find_update_same Double.ltb price
                (fun _ => count_at price opm) _ _ Hfp) as Hfu.
  cbn [fst snd] in Hfu.
  destruct (count_at price opm <=? 0) eqn:Ele.
  - (* the last order at this price: the price point is removed *)
    apply Z.leb_le in Ele. assert (H0 : count_at price opm = 0) by lia.
    eexists. split; [reflexivity|].
    split; [|unfold live; book_simpl; split; [lia|exact Hgone]].
    constructor; book_simpl; auto.
    + apply erase_wf; auto.
    + intros p Hnp.
      rewrite (find_erase Double.ltb Double.not_nan) by auto.
      pose proof (Hc p Hnp) as Hcq. rewrite Hcnt, Heq in Hcq by auto.
      destruct (StdMap.equivb Double.ltb price p) eqn:Ee.
      * rewrite <- (count_at_equiv price p) by auto. rewrite H0.
        reflexivity.
      * rewrite (find_update Double.ltb Double.not_nan), Ee by auto.
        rewrite !Z.add_0_r in Hcq. exact Hcq.
    + rewrite (total_erase _ _ _ Hfu), (total_update _ _ _ _ Hfp).
      cbn [snd]. lia.
  - (* other orders remain at this price *)
    apply Z.leb_gt in Ele.
    eexists. split; [reflexivity|].
    split; [|unfold live; book_simpl; split; [lia|exact Hgone]].
    constructor; book_simpl; auto.
    intros p Hnp.
    + rewrite (find_update Double.ltb Double.not_nan) by auto.
      pose proof (Hc p Hnp) as Hcq. rewrite Hcnt, Heq in Hcq by auto.
      destruct (StdMap.equivb Double.ltb price p) eqn:Ee.
      * rewrite <- (find_equiv Double.ltb Double.not_nan price p) by auto.
        rewrite Hfp. cbn [option_map fst snd].
        rewrite <- (count_at_equiv price p) by auto.
        destruct (count_at price opm =? 0) eqn:E0;
          [apply Z.eqb_eq in E0; lia | reflexivity].
      * rewrite !Z.add_0_r in Hcq. exact Hcq.
    + rewrite (total_update _ _ _ _ Hfp). cbn [snd]. lia.
Qed.

Lemma step_Inv b c :
  Inv b -> valid_call c -> live b < Int.max_int ->
  exists b', step b c = Some b' /\ Inv b' /\ live b' <= live b + 1.
Proof.
  intros HI Hc Hl. destruct c as [id price|id]; simpl in *.
  - destruct (insert_order_Inv id price b HI Hc Hl). eauto.
  - destruct (erase_order_Inv id b HI ltac:(lia)) as (b' & ? & ? & ? & ?).
    exists b'. split; [assumption|]. split; [assumption|lia].
Qed.

Lemma run_Inv cs : forall b,
  Inv b -> Forall valid_call cs ->
  live b + Z.of_nat (length cs) <= Int.max_int ->
  exists b', run cs b = Some b' /\ Inv b' /\
             live b' <= live b + Z.of_nat (length cs).
Proof.
  induction cs as [|c cs IH]; intros b HI Hv Hl.
  - exists b. simpl. split; [reflexivity|]. split; [assumption|lia].
  - inversion Hv; subst. simpl length in Hl. rewrite Nat2Z.inj_succ in Hl.
    destruct (step_Inv b c HI) as (b1 & Hs & HI1 & Hl1); auto; [lia|].
    destruct (IH b1 HI1) as (b' & Hr & HI' & Hl'); auto; [lia|].
    exists b'. simpl run. rewrite Hs. split; [assumption|].
    split; [assumption|]. simpl length. rewrite Nat2Z.inj_succ. lia.
Qed.

Lemma reachable_Inv b : reachable b -> Inv b /\ live b <= Int.max_int.
Proof.
  intros (cs & Hv & Hl & Hr).
  destruct (run_Inv cs new Inv_new Hv) as (b' & Hr' & HI & Hl').
  - unfold live. simpl. lia.
  - rewrite Hr in Hr'. inversion Hr'; subst. split; auto.
    unfold live in *. simpl in *. lia.
Qed.

Lemma Inv_entry b p c :
  Inv b -> In (p, c) (price_count_map_ b) ->
  Double.not_nan p /\ c = count_at p (order_price_map_ b) /\ 0 < c.
Proof.
  intros [Ho Hpc Hr Hc Ht] Hin.
  assert (Hp : Double.not_nan p).
  { destruct Hpc as [_ Hg]. rewrite Forall_forall in Hg. apply Hg.
    unfold StdMap.keys. apply (in_map fst) in Hin. exact Hin. }
  pose proof (find_in Double.ltb Double.not_nan p c _ Hpc Hin) as Hf.
  pose proof (Hc p Hp) as Hcp. rewrite Hf in Hcp. cbn in Hcp.
  pose proof (count_at_bounds p (order_price_map_ b)).
  destruct (count_at p (order_price_map_ b) =? 0) eqn:E0; [discriminate|].
  apply Z.eqb_neq in E0. inversion Hcp. repeat split; auto. lia.
Qed.

End BookFacts.

(** ** The properties of the order book *)

Section BookProperties.

Import Book.

(** C2. Dual-map consistency: after every sequence of [insert_order] and
    [erase_order] calls on a fresh book (prices that are numbers, and no
    more calls than an [int] count can hold), no call is undefined, every
    price of [price_count_map_] is stored with the number of live orders at
    that price, which is positive, and the counts sum to the number of live
    orders. *)
Theorem dual_map_invariant (cs : list call) :
  Forall valid_call cs -> Z.of_nat (length cs) <= Int.max_int ->
  exists b, run cs new = Some b /\
    (forall p c, In (p, c) (price_count_map_ b) ->
       c = count_at p (order_price_map_ b) /\ 0 < c) /\
    total (price_count_map_ b) = Z.of_nat (length (order_price_map_ b)).
Proof.
  intros Hv Hl.
  destruct (run_Inv cs new Inv_new Hv) as (b & Hr & HI & _).
  { unfold live. simpl. lia. }
  exists b. split; [assumption|]. split.
  - intros p c Hin. destruct (Inv_entry b p c HI Hin) as (_ & ? & ?). auto.
  - apply (inv_total b HI).
Qed.

Lemma dual_map_invariant_witness :
  exists b, run two_erased new = Some b /\
    (forall p c, In (p, c) (price_count_map_ b) ->
       c = count_at p (order_price_map_ b) /\ 0 < c) /\
    total (price_count_map_ b) = Z.of_nat (length (order_price_map_ b)).
Proof.
  apply (dual_map_invariant two_erased).
  - repeat constructor.
  - vm_compute. discriminate.
Defined.

Lemma Inv_empty b :
  Inv b -> order_price_map_ b = [] -> price_count_map_ b = [].
Proof.
  intros HI He. destruct (price_count_map_ b) as [|[p c] r] eqn:E; auto.
  destruct (Inv_entry b p c HI) as (_ & Hc & Hpos).
  { rewrite E. left. reflexivity. }
  rewrite He in Hc. cbn in Hc. lia.
Qed.

Lemma Inv_price_listed b id q :
  Inv b -> In (id, q) (order_price_map_ b) ->
  exists a c, In (a, c) (price_count_map_ b) /\
              StdMap.equivb Double.ltb a q = true.
Proof.
  intros HI Hin. pose proof HI as [Ho Hpc Hr Hc Ht].
  assert (Hq : Double.not_nan q).
  { rewrite Forall_forall in Hr. apply (Hr _ Hin). }
  pose proof (Hc q Hq) as Hcq.
  pose proof (count_at_in q id q _ Hin (deq_refl q Hq)) as Hpos.
  destruct (count_at q (order_price_map_ b) =? 0) eqn:E0;
    [apply Z.eqb_eq in E0; lia|].
  destruct (StdMap.find Double.ltb q (price_count_map_ b)) as [[a c]|] eqn:Hf;
    [|discriminate].
  apply find_some in Hf as [Hin' He]. eauto.
Qed.

(** C3. [max_price] of a reachable book is the "no price" value when no
    order is live; otherwise it is the largest key of [price_count_map_],
    it compares equal to the price of a live order, and no live order has
    a larger price.  After the orders at 10.0, 13.0 and 13.0 it is 13.0, and
    after the two orders at 13.0 are erased it is 10.0. *)
Theorem max_price_correct (b : OrderBook) :
  reachable b ->
  (order_price_map_ b = [] -> max_price b = Double.quiet_NaN) /\
  (order_price_map_ b <> [] ->
     (exists c, StdMap.rbegin (price_count_map_ b) = Some (max_price b, c)) /\
     (exists id q, In (id, q) (order_price_map_ b) /\
                   Double.eqb (max_price b) q = true) /\
     (forall id q, In (id, q) (order_price_map_ b) ->
                   Double.leb q (max_price b) = true)) /\
  max_price new = Double.quiet_NaN /\
  option_map max_price (run three_orders new) = Some (Double.of_int 13) /\
  option_map max_price (run two_erased new) = Some (Double.of_int 10).
Proof.
  intros Hr. apply reachable_Inv in Hr as [HI _].
  split; [|split; [|repeat split; reflexivity]].
  - intros He. unfold max_price. rewrite (Inv_empty b HI He). reflexivity.
  - intros Hne. pose proof HI as [Ho Hpc Hre Hc Ht].
    assert (Hex : exists id0 q0, In (id0, q0) (order_price_map_ b)).
    { destruct (order_price_map_ b) as [|[id0 q0] r0]; [congruence|].
      exists id0, q0. left. reflexivity. }
    destruct Hex as (id0 & q0 & Hex).
    destruct (Inv_price_listed b id0 q0 HI Hex) as (a0 & c0 & Hin0 & _).
    unfold max_price.
    destruct (StdMap.rbegin (price_count_map_ b)) as [[pm cm]|] eqn:Erb.
    2:{ apply rbegin_none in Erb. rewrite Erb in Hin0. contradiction. }
    destruct (rbegin_max Double.ltb Double.not_nan _ _ Hpc Erb)
      as [Hinm Hmax].
    destruct (Inv_entry b pm cm HI Hinm) as (Hpm & Hcm & Hpos).
    split; [eauto|]. split.
    + rewrite Hcm in Hpos. apply count_at_pos in Hpos as (id & q & Hin & Hq).
      exists id, q. split; auto.
      apply deq_not_nan in Hq as Hn. destruct Hn.
      rewrite deq_equiv, equivb_sym, <- deq_equiv; auto.
    + intros id q Hin.
      destruct (Inv_price_listed b id q HI Hin) as (a & c & Hina & Hea).
      assert (Hq : Double.not_nan q).
      { rewrite Forall_forall in Hre. apply (Hre _ Hin). }
      destruct (Inv_entry b a c HI Hina) as (Ha & _ & _).
      rewrite dle_not_lt by auto.
      rewrite <- (equivb_ltb_r Double.ltb Double.not_nan a q pm) by auto.
      pose proof (Hmax _ Hina) as Hm. cbn [fst] in Hm. rewrite Hm.
      reflexivity.
Qed.

Lemma max_price_correct_witness :
  exists b, run three_orders new = Some b /\
    (order_price_map_ b <> [] ->
       (exists c, StdMap.rbegin (price_count_map_ b) = Some (max_price b, c)) /\
       (exists id q, In (id, q) (order_price_map_ b) /\
                     Double.eqb (max_price b) q = true) /\
       (forall id q, In (id, q) (order_price_map_ b) ->
                     Double.leb q (max_price b) = true)).
Proof.
  eexists. split; [reflexivity|].
  refine (proj1 (proj2 (max_price_correct _ _))).
  exists three_orders. split; [repeat constructor|].
  split; [vm_compute; discriminate | reflexivity].
Defined.

Lemma reachable_wf b :
  reachable b -> StdMap.wf Z.ltb any_key (order_price_map_ b).
Proof. intros H. apply reachable_Inv in H as [HI _]. apply HI. Qed.

Lemma insert_order_orders order_id price b :
  order_price_map_ (insert_order order_id price b) =
  fst (StdMap.insert Z.ltb order_id price (order_price_map_ b)).
Proof.
  unfold insert_order.
  destruct (snd (StdMap.insert Z.ltb order_id price (order_price_map_ b)));
    cbn [negb]; cbv iota; [|reflexivity].
  destruct (snd (StdMap.insert Double.ltb price 1 _)); reflexivity.
Qed.

(** C7 as stated does not hold of a book in which the order is live
    already: its price stays what it was, not the [p] of the first of the
    two calls. *)
Lemma first_price_everywhere_fails : ~ first_price_everywhere.
Proof.
  intros H.
  assert (Hr : reachable (insert_order 1 (Double.of_int 10) new)).
  { exists [Insert 1 (Double.of_int 10)].
    split; [repeat constructor|].
    split; [vm_compute; discriminate | reflexivity]. }
  destruct (H _ 1 (Double.of_int 13) (Double.of_int 11) Hr) as [Hp _].
  - vm_compute. discriminate.
  - vm_compute in Hp. discriminate.
Qed.

(** C7, amended. In a reachable book, [insert_order order_id p2] after
    [insert_order order_id p] changes neither map; the price of the order
    is then [p] when the order was not live before the two calls, and the
    price it had when it was. *)
Theorem first_insert_wins (b : OrderBook) (order_id : int) (p p2 : double) :
  reachable b ->
  let b1 := insert_order order_id p b in
  insert_order order_id p2 b1 = b1 /\
  (price_of order_id b = None -> price_of order_id b1 = Some p) /\
  (forall q, price_of order_id b = Some q -> price_of order_id b1 = Some q).
Proof.
  intros Hr b1. apply reachable_wf in Hr as Hw.
  assert (Hcase :
    (price_of order_id b = None -> price_of order_id b1 = Some p) /\
    (forall q, price_of order_id b = Some q -> price_of order_id b1 = Some q)).
  { unfold price_of, b1. split.
    - intros Hn.
      destruct (StdMap.find Z.ltb order_id (order_price_map_ b)) eqn:Hf;
        [discriminate|].
      rewrite insert_order_orders.
      rewrite (find_insert Z.ltb any_key) by auto using any_key_I.
      rewrite (equivb_refl Z.ltb any_key). reflexivity.
    - intros q Hq. rewrite insert_order_present; auto.
      destruct (StdMap.find Z.ltb order_id (order_price_map_ b));
        [discriminate|discriminate]. }
  split; [|exact Hcase].
  apply insert_order_present. destruct Hcase as [Hn Hs].
  unfold price_of in *.
  destruct (StdMap.find Z.ltb order_id (order_price_map_ b)) as [e|] eqn:Hf.
  - specialize (Hs _ eq_refl).
    destruct (StdMap.find Z.ltb order_id (order_price_map_ b1));
      [discriminate|discriminate].
  - specialize (Hn eq_refl).
    destruct (StdMap.find Z.ltb order_id (order_price_map_ b1));
      [discriminate|discriminate].
Qed.

Lemma first_insert_wins_witness :
  let b1 := insert_order 7 (Double.of_int 10) new in
  insert_order 7 (Double.of_int 13) b1 = b1 /\
  (price_of 7 new = None -> price_of 7 b1 = Some (Double.of_int 10)) /\
  (forall q, price_of 7 new = Some q -> price_of 7 b1 = Some q).
Proof.
  apply (first_insert_wins new 7 (Double.of_int 10) (Double.of_int 13)).
  exists []. split; [constructor|]. split; [vm_compute; discriminate|].
  reflexivity.
Defined.

(** C9. In a reachable book, [erase_order] of an id that is not live
    returns with both maps as they were and is defined; and a second
    [erase_order] of the same id changes nothing after the first. *)
Theorem erase_unknown_noop (b : OrderBook) (order_id : int) :
  reachable b ->
  (price_of order_id b = None -> erase_order order_id b = Some b) /\
  (exists b1, erase_order order_id b = Some b1 /\
              erase_order order_id b1 = Some b1).
Proof.
  intros Hr. apply reachable_Inv in Hr as [HI Hl]. split.
  - unfold price_of. intros Hn. apply erase_order_absent.
    destruct (StdMap.find Z.ltb order_id (order_price_map_ b));
      [discriminate|reflexivity].
  - destruct (erase_order_Inv order_id b HI Hl) as (b1 & He & _ & _ & Hn).
    exists b1. split; [assumption|]. apply erase_order_absent. exact Hn.
Qed.

Lemma erase_unknown_noop_witness :
  exists b, run three_orders new = Some b /\
    (price_of 7 b = None -> erase_order 7 b = Some b) /\
    (exists b1, erase_order 101 b = Some b1 /\
                erase_order 101 b1 = Some b1).
Proof.
  eexists. split; [reflexivity|].
  assert (Hr : reachable
    (match run three_orders new with Some b => b | None => new end)).
  { exists three_orders. split; [repeat constructor|].
    split; [vm_compute; discriminate | reflexivity]. }
  split.
  - exact (proj1 (erase_unknown_noop _ 7 Hr)).
  - exact (proj2 (erase_unknown_noop _ 101 Hr)).
Defined.

End BookProperties.

(** ** Conversions between [int] and [double] *)

Lemma digits2_size (p : positive) : digits2_pos p = Pos.size p.
Proof. induction p; simpl; congruence. Qed.

Lemma digits2_bounds (p : positive) :
  2 ^ (Zpos (digits2_pos p) - 1) <= Zpos p < 2 ^ Zpos (digits2_pos p).
Proof.
  rewrite digits2_size. split.
  - pose proof (Pos.size_le p) as H.
    assert (H2 : 2 ^ Zpos (Pos.size p) <= 2 * Zpos p).
    { rewrite <- Pos2Z.inj_pow. change (2 * Zpos p) with (Zpos p~0).
      apply Pos2Z.pos_le_pos. exact H. }
    replace (Zpos (Pos.size p)) with (Zpos (Pos.size p) - 1 + 1) in H2 by lia.
    rewrite Z.pow_add_r in H2 by lia. lia.
  - rewrite <- Pos2Z.inj_pow. apply Pos2Z.pos_lt_pos. apply Pos.size_gt.
Qed.

Lemma digits2_unique (p : positive) (d : Z) :
  2 ^ (d - 1) <= Zpos p < 2 ^ d -> Zpos (digits2_pos p) = d.
Proof.
  intros [Hl Hu]. pose proof (digits2_bounds p) as [Hl' Hu'].
  assert (0 < d).
  { destruct (Z.ltb_spec 0 d); auto.
    assert (2 ^ d <= 2 ^ 0) by (apply Z.pow_le_mono_r; lia).
    simpl in *. lia. }
  destruct (Z.lt_trichotomy (Zpos (digits2_pos p)) d) as [Hlt|[He|Hgt]]; auto.
  - assert (2 ^ Zpos (digits2_pos p) <= 2 ^ (d - 1))
      by (apply Z.pow_le_mono_r; lia). lia.
  - assert (2 ^ d <= 2 ^ (Zpos (digits2_pos p) - 1))
      by (apply Z.pow_le_mono_r; lia). lia.
Qed.

Lemma iter_xO_mul (m k : positive) :
  Zpos (Pos.iter xO m k) = Zpos m * 2 ^ Zpos k.
Proof.
  revert m. induction k using Pos.peano_ind; intros m.
  - simpl. lia.
  - rewrite Pos.iter_succ, Pos2Z.inj_succ, Z.pow_succ_r by lia.
    change (Zpos (Pos.iter xO m k)~0) with (2 * Zpos (Pos.iter xO m k)).
    rewrite IHk. ring.
Qed.

Lemma digits2_iter_xO (m k : positive) :
  Zpos (digits2_pos (Pos.iter xO m k)) = Zpos (digits2_pos m) + Zpos k.
Proof.
  apply digits2_unique. rewrite iter_xO_mul.
  pose proof (digits2_bounds m) as [Hl Hu].
  replace (Zpos (digits2_pos m) + Zpos k - 1)
    with (Zpos (digits2_pos m) - 1 + Zpos k) by lia.
  rewrite !Z.pow_add_r by lia.
  assert (0 < 2 ^ Zpos k) by (apply Z.pow_pos_nonneg; lia).
  split; nia.
Qed.

(** A mantissa that is canonical already is not rounded. *)
Lemma binary_round_aux_canonical (s : bool) (m : positive) (e : Z) :
  bounded Double.prec Double.emax m e = true ->
  binary_round_aux Double.prec Double.emax s (Zpos m) e loc_Exact
  = S754_finite s m e.
Proof.
  unfold bounded, canonical_mantissa. rewrite andb_true_iff.
  intros [Hc He]. apply Z.eqb_eq in Hc.
  unfold binary_round_aux, shr_fexp. cbn [Zdigits2 shr_record_of_loc].
  rewrite Hc, Z.sub_diag. cbn [shr shr_m loc_of_shr_record round_nearest_even].
  cbn [Zdigits2]. rewrite Hc, Z.sub_diag. cbn [shr shr_m].
  rewrite He. reflexivity.
Qed.

Lemma normal_bounded (n : positive) :
  Zpos n < 2 ^ 53 ->
  bounded Double.prec Double.emax (fst (normal n)) (snd (normal n)) = true.
Proof.
  intros Hn. pose proof (digits2_bounds n) as [Hl Hu].
  assert (Hd : Zpos (digits2_pos n) <= 53).
  { destruct (Z.leb_spec (Zpos (digits2_pos n)) 53); auto.
    assert (2 ^ 53 <= 2 ^ (Zpos (digits2_pos n) - 1))
      by (apply Z.pow_le_mono_r; lia). lia. }
  unfold normal, shl_align, bounded, canonical_mantissa, fexp, emin,
    Double.prec, Double.emax.
  destruct (Zpos (digits2_pos n) - 53 - 0) as [|k|k] eqn:Ek; try lia;
    cbn [fst snd].
  - rewrite andb_true_iff, Z.eqb_eq, Z.leb_le. lia.
  - rewrite digits2_iter_xO.
    rewrite andb_true_iff, Z.eqb_eq, Z.leb_le. lia.
Qed.

Lemma of_int_pos (n : positive) :
  Zpos n < 2 ^ 53 ->
  Double.of_int (Zpos n) = S754_finite false (fst (normal n)) (snd (normal n)).
Proof.
  intros Hn. pose proof (normal_bounded n Hn) as Hb.
  unfold Double.of_int, binary_normalize, binary_round.
  replace (fexp Double.prec Double.emax (Zpos (digits2_pos n) + 0))
    with (Zpos (digits2_pos n) - Double.prec).
  - fold (normal n). destruct (normal n) as [mz ez].
    apply binary_round_aux_canonical. exact Hb.
  - unfold fexp, emin, Double.prec, Double.emax. lia.
Qed.

Lemma of_int_neg (n : positive) :
  Zpos n < 2 ^ 53 ->
  Double.of_int (Zneg n) = S754_finite true (fst (normal n)) (snd (normal n)).
Proof.
  intros Hn. pose proof (normal_bounded n Hn) as Hb.
  unfold Double.of_int, binary_normalize, binary_round.
  replace (fexp Double.prec Double.emax (Zpos (digits2_pos n) + 0))
    with (Zpos (digits2_pos n) - Double.prec).
  - fold (normal n). destruct (normal n) as [mz ez].
    apply binary_round_aux_canonical. exact Hb.
  - unfold fexp, emin, Double.prec, Double.emax. lia.
Qed.

(** The value of the normal form: [m * 2 ^ e] is the integer. *)
Lemma normal_value (n : positive) :
  Zpos n < 2 ^ 53 ->
  snd (normal n) <= 0 /\
  Zpos (fst (normal n)) = Zpos n * 2 ^ (- snd (normal n)).
Proof.
  intros Hn. pose proof (digits2_bounds n) as [Hl Hu].
  assert (Hd : Zpos (digits2_pos n) <= 53).
  { destruct (Z.leb_spec (Zpos (digits2_pos n)) 53); auto.
    assert (2 ^ 53 <= 2 ^ (Zpos (digits2_pos n) - 1))
      by (apply Z.pow_le_mono_r; lia). lia. }
  unfold normal, shl_align, Double.prec.
  destruct (Zpos (digits2_pos n) - 53 - 0) as [|k|k] eqn:Ek; try lia;
    cbn [fst snd].
  - split; [lia|]. simpl. lia.
  - split; [lia|]. rewrite iter_xO_mul. f_equal. f_equal. lia.
Qed.

Lemma to_of_int (z : int) :
  Int.in_range z -> Double.to_int (Double.of_int z) = z.
Proof.
  unfold Int.in_range, Int.min_int, Int.max_int. intros Hz.
  destruct z as [|n|n].
  - reflexivity.
  - assert (Hn : Zpos n < 2 ^ 53) by lia.
    rewrite (of_int_pos n Hn).
    destruct (normal_value n Hn) as [He Hm]. unfold Double.to_int.
    assert (Ht : match snd (normal n) with
                 | Zneg p => Z.shiftr (Zpos (fst (normal n))) (Zpos p)
                 | _ => Z.shiftl (Zpos (fst (normal n))) (snd (normal n))
                 end = Zpos n).
    { destruct (snd (normal n)) as [|p|p] eqn:E; try lia.
      - rewrite Hm. simpl. lia.
      - rewrite Z.shiftr_div_pow2 by lia. rewrite Hm.
        change (- Zneg p) with (Zpos p). apply Z.div_mul.
        apply Z.pow_nonzero; lia. }
    rewrite Ht. cbn [cond_Zopp].
    unfold Int.min_int, Int.max_int.
    destruct (Z.leb_spec (- 2 ^ 31) (Zpos n)); [|lia].
    destruct (Z.leb_spec (Zpos n) (2 ^ 31 - 1)); [|lia]. reflexivity.
  - assert (Hn : Zpos n < 2 ^ 53) by lia.
    rewrite (of_int_neg n Hn).
    destruct (normal_value n Hn) as [He Hm]. unfold Double.to_int.
    assert (Ht : match snd (normal n) with
                 | Zneg p => Z.shiftr (Zpos (fst (normal n))) (Zpos p)
                 | _ => Z.shiftl (Zpos (fst (normal n))) (snd (normal n))
                 end = Zpos n).
    { destruct (snd (normal n)) as [|p|p] eqn:E; try lia.
      - rewrite Hm. simpl. lia.
      - rewrite Z.shiftr_div_pow2 by lia. rewrite Hm.
        change (- Zneg p) with (Zpos p). apply Z.div_mul.
        apply Z.pow_nonzero; lia. }
    rewrite Ht. cbn [cond_Zopp]. change (- Zpos n) with (Zneg n).
    unfold Int.min_int, Int.max_int.
    destruct (Z.leb_spec (- 2 ^ 31) (Zneg n)); [|lia].
    destruct (Z.leb_spec (Zneg n) (2 ^ 31 - 1)); [|lia]. reflexivity.
Qed.

(** ** The accumulator under the caller's contract *)

Section TwapFacts.

Import Twap.

Context {P : Type} {A : Arith P} {L : ArithLaws A}.

Implicit Types (t : TWAP P) (l : list (int * P)).

Lemma sub_small (a b : Z) :
  0 <= b <= a -> a <= Int.max_int -> Int.sub a b = a - b.
Proof.
  intros. apply wrap_small.
  unfold Int.in_range, Int.min_int, Int.max_int in *. lia.
Qed.

Lemma add_small (a b : Z) :
  0 <= a -> 0 <= b -> a + b <= Int.max_int -> Int.add a b = a + b.
Proof.
  intros. apply wrap_small.
  unfold Int.in_range, Int.min_int, Int.max_int in *. lia.
Qed.

(** A call after a sample without a price only records the new sample. *)
Lemma next_price_gap t time price :
  isnan (last_price_ t) = true ->
  next_price time price t =
  {| last_price_ := price; last_time_ := time;
     avg_price_ := avg_price_ t; total_time_ := total_time_ t |}.
Proof. intros H. unfold next_price. rewrite H. reflexivity. Qed.

(** The first interval: the average is the price that held. *)
Lemma next_price_first t time price :
  isnan (last_price_ t) = false -> total_time_ t <= 0 ->
  next_price time price t =
  {| last_price_ := price; last_time_ := time;
     avg_price_ := last_price_ t;
     total_time_ := Int.sub time (last_time_ t) |}.
Proof.
  intros H H0. unfold next_price. rewrite H.
  destruct (Z.ltb_spec 0 (total_time_ t)); [lia|]. reflexivity.
Qed.

(** A later interval: the fold, in the order in which the program
    evaluates it. *)
Lemma next_price_fold t time price :
  isnan (last_price_ t) = false -> 0 < total_time_ t ->
  let add_time := Int.sub time (last_time_ t) in
  let new_total_time := of_int (Int.add (total_time_ t) add_time) in
  next_price time price t =
  {| last_price_ := price; last_time_ := time;
     avg_price_ :=
       add (mul (div (avg_price_ t) new_total_time) (of_int (total_time_ t)))
           (mul (div (last_price_ t) new_total_time) (of_int add_time));
     total_time_ := to_int new_total_time |}.
Proof.
  intros H H0. unfold next_price. rewrite H.
  destruct (Z.ltb_spec 0 (total_time_ t)); [|lia]. reflexivity.
Qed.

Lemma next_price_time_inv t time price :
  time_inv t -> last_time_ t <= time <= Int.max_int ->
  time_inv (next_price time price t) /\
  last_time_ (next_price time price t) = time.
Proof.
  intros [[H0 H1] H2] [H3 H4].
  destruct (isnan (last_price_ t)) eqn:En.
  - rewrite next_price_gap by auto. unfold time_inv. simpl. lia.
  - destruct (Z.ltb_spec 0 (total_time_ t)).
    + rewrite next_price_fold by auto. unfold time_inv. simpl.
      rewrite sub_small, add_small by lia.
      rewrite to_of_int_law;
        [lia | unfold Int.in_range, Int.min_int, Int.max_int in *; lia].
    + rewrite next_price_first by auto. unfold time_inv. simpl.
      rewrite sub_small by lia. lia.
Qed.

Lemma next_price_last_price t time price :
  last_price_ (next_price time price t) = price.
Proof. reflexivity. Qed.

(** The calls that integrate are those that follow a sample with a
    price. *)
Lemma integrates_samples l : forall t,
  integrates l t =
  match l with
  | [] => false
  | _ :: _ => negb (isnan (last_price_ t)) || priced_before_last l
  end.
Proof.
  induction l as [|[time price] r IH]; intros t; [reflexivity|].
  cbn [integrates]. rewrite IH, next_price_last_price.
  destruct r as [|y r']; [reflexivity|].
  unfold priced_before_last. cbn [removelast existsb snd].
  reflexivity.
Qed.

Lemma integrates_new l : integrates l new = priced_before_last l.
Proof.
  rewrite integrates_samples. destruct l as [|x r]; [reflexivity|].
  cbn [new last_price_]. rewrite isnan_quiet_NaN. reflexivity.
Qed.

Lemma new_time_inv : time_inv (P := P) new.
Proof. unfold time_inv, Int.max_int. simpl. lia. Qed.

Lemma feed_app l l' t : feed (l ++ l') t = feed l' (feed l t).
Proof.
  revert t. induction l as [|[time price] l IH]; intros t; simpl; auto.
Qed.

Lemma feed_time_inv l : forall t,
  time_inv t -> times_from (last_time_ t) l -> time_inv (feed l t).
Proof.
  induction l as [|[time price] l IH]; intros t Ht Hl; simpl; auto.
  destruct Hl as [Hr Hl].
  destruct (next_price_time_inv t time price Ht Hr) as [Ht' Hlast].
  apply IH; [assumption | rewrite Hlast; exact Hl].
Qed.

Lemma times_from_app l l' : forall t,
  time_inv t -> times_from (last_time_ t) (l ++ l') ->
  times_from (last_time_ t) l /\ times_from (last_time_ (feed l t)) l'.
Proof.
  induction l as [|[time price] l IH]; intros t Ht Hl; simpl in *; auto.
  destruct Hl as [Hr Hl].
  destruct (next_price_time_inv t time price Ht Hr) as [Ht' Hlast].
  rewrite <- Hlast in Hl. destruct (IH _ Ht' Hl) as [H1 H2].
  rewrite Hlast in H1. auto.
Qed.



End TwapFacts.

(** ** The properties of the accumulator *)

#[export] Instance binary64_laws : Twap.ArithLaws Twap.binary64.
Proof. constructor; [exact to_of_int | reflexivity]. Qed.

Section TwapProperties.

Import Twap.

(** C4. Gap property: when the price recorded last is the "no price"
    value, [next_price] leaves [avg_price_] and [total_time_] as they are
    and records the new time and price. *)
Theorem gap_property (t : TWAP double) (time : int) (price : double) :
  Double.isnan (last_price_ t) = true ->
  let t' := next_price time price t in
  avg_price_ t' = avg_price_ t /\ total_time_ t' = total_time_ t /\
  last_time_ t' = time /\ last_price_ t' = price.
Proof.
  intros H t'. unfold t'. rewrite (next_price_gap (A := binary64)) by exact H.
  repeat split.
Qed.

Lemma gap_property_witness :
  let t' := next_price 1000 NO_PRICE (new (P := double)) in
  avg_price_ t' = avg_price_ new /\ total_time_ t' = total_time_ new /\
  last_time_ t' = 1000 /\ last_price_ t' = NO_PRICE.
Proof. apply (gap_property new 1000 NO_PRICE). reflexivity. Defined.

(** C1 as stated, with the weights computed first, does not hold in
    doubles: on the fifth call of the golden trace the program's fold
    gives the double below the weighted sum. *)
Lemma weighted_step_fails : ~ weighted_step.
Proof.
  intros H.
  specialize (H [(1000, NO_PRICE); (2000, Double.of_int 10);
                 (2200, Double.of_int 13); (2400, Double.of_int 13)]
                2500 (Double.of_int 10)).
  cbv zeta in H.
  assert (Ht : times_from 0
    ([(1000, NO_PRICE); (2000, Double.of_int 10);
      (2200, Double.of_int 13); (2400, Double.of_int 13)]
     ++ [(2500, Double.of_int 10)])).
  { cbn. unfold Int.max_int. lia. }
  specialize (H Ht eq_refl). vm_compute in H. destruct H as [H _].
  discriminate H.
Qed.

(** C1, amended. For every call [next_price time price] under the
    caller's contract, where the price recorded last is a number and
    [dt = time - last_time_]: when [total_time_] is 0, [avg_price_] becomes
    the price recorded last and [total_time_] becomes [dt]; otherwise
    [avg_price_] becomes
    [avg_price_ / new_total * total_time_ + last_price_ / new_total * dt],
    each operation rounded to a double in this order, where
    [new_total = total_time_ + dt], and [total_time_] becomes [new_total]. *)
Theorem fold_step (l : list (int * double)) (time : int) (price : double) :
  times_from 0 (l ++ [(time, price)]) ->
  let t := feed l new in
  Double.isnan (last_price_ t) = false ->
  let dt := time - last_time_ t in
  let t' := next_price time price t in
  if total_time_ t =? 0 then
    avg_price_ t' = last_price_ t /\ total_time_ t' = dt
  else
    let new_total := Double.of_int (total_time_ t + dt) in
    avg_price_ t' =
      Double.add
        (Double.mul (Double.div (avg_price_ t) new_total)
                    (Double.of_int (total_time_ t)))
        (Double.mul (Double.div (last_price_ t) new_total)
                    (Double.of_int dt))
    /\ total_time_ t' = total_time_ t + dt.
Proof.
  intros Hl t Hn dt t'.
  destruct (times_from_app (A := binary64) l [(time, price)] new
              new_time_inv Hl) as [Hl1 [Hr _]].
  pose proof (feed_time_inv (A := binary64) l new new_time_inv Hl1) as Hi.
  fold t in Hr, Hi. destruct Hi as [[H0 H1] H2].
  assert (Hs : Int.sub time (last_time_ t) = dt)
    by (apply sub_small; lia).
  destruct (Z.eqb_spec (total_time_ t) 0) as [Hz|Hz].
  - unfold t'. rewrite (next_price_first (A := binary64)) by (auto; lia).
    cbn [avg_price_ total_time_]. auto.
  - unfold t'. rewrite (next_price_fold (A := binary64)) by (auto; lia).
    cbn [avg_price_ total_time_]. rewrite Hs.
    assert (Ha : Int.add (total_time_ t) dt = total_time_ t + dt)
      by (apply add_small; unfold dt; lia).
    rewrite Ha. split; [reflexivity|].
    apply (to_of_int_law (A := binary64)).
    unfold Int.in_range, Int.min_int, Int.max_int in *. unfold dt. lia.
Qed.

Lemma fold_step_witness :
  let l := [(1000, NO_PRICE); (2000, Double.of_int 10);
            (2200, Double.of_int 13); (2400, Double.of_int 13)] in
  let t := feed l new in
  let t' := next_price 2500 (Double.of_int 10) t in
  let new_total := Double.of_int (400 + 100) in
  avg_price_ t' =
    Double.add
      (Double.mul (Double.div (avg_price_ t) new_total) (Double.of_int 400))
      (Double.mul (Double.div (last_price_ t) new_total) (Double.of_int 100))
  /\ total_time_ t' = 400 + 100.
Proof.
  refine (fold_step [(1000, NO_PRICE); (2000, Double.of_int 10);
                     (2200, Double.of_int 13); (2400, Double.of_int 13)]
            2500 (Double.of_int 10) _ eq_refl).
  cbn. unfold Int.max_int. lia.
Defined.

(** C5 as stated does not hold: the fourth average of the golden trace is
    not 12.0. *)
Lemma golden_fourth_is_not_12 : ~ golden_fourth_is_12.
Proof. intros (x & y & H). vm_compute in H. discriminate H. Qed.

(** C5, amended. The golden trace gives, after each call in order: no
    price, no price, 10.0, 11.5, the double just below 11.8, and 10.45. *)
Theorem golden_trace :
  averages golden new =
  [NO_PRICE; NO_PRICE; Double.of_int 10; Double.ratio 23 2;
   SFpred Double.prec Double.emax (Double.ratio 118 10);
   Double.ratio 1045 100].
Proof. vm_compute. reflexivity. Qed.

End TwapProperties.

(** ** Rounding in binary64 *)

Section Rounding.

Local Notation "'fexp64'" := (fexp Double.prec Double.emax).
Local Notation "'BRA'" := (binary_round_aux Double.prec Double.emax).

Lemma pow2_pos (k : Z) : 0 <= k -> 0 < 2 ^ k.
Proof. intros. apply Z.pow_pos_nonneg; lia. Qed.

Lemma pow2_split (a b : Z) : 0 <= b <= a -> 2 ^ a = 2 ^ (a - b) * 2 ^ b.
Proof. intros. rewrite <- Z.pow_add_r by lia. f_equal. lia. Qed.

Lemma fexp64_eq (x : Z) : fexp64 x = Z.max (x - 53) (-1074).
Proof. reflexivity. Qed.

Lemma iter_pos_iter {X : Type} (f : X -> X) (p : positive) (x : X) :
  iter_pos f p x = Pos.iter f x p.
Proof.
  revert x. induction p; intros x; simpl; auto.
  - rewrite !IHp, !Pos.iter_swap. reflexivity.
  - rewrite !IHp. reflexivity.
Qed.

Lemma shr_1_m (mrs : shr_record) :
  0 <= shr_m mrs -> shr_m (shr_1 mrs) = shr_m mrs / 2.
Proof.
  destruct mrs as [m r s]. simpl. intros H.
  destruct m as [|p|p]; [reflexivity| |lia].
  destruct p as [p|p|]; simpl shr_m.
  - rewrite Pos2Z.inj_xI. apply Z.div_unique with 1; lia.
  - rewrite Pos2Z.inj_xO. apply Z.div_unique with 0; lia.
  - reflexivity.
Qed.

Lemma iter_shr_1_m (p : positive) (mrs : shr_record) :
  0 <= shr_m mrs ->
  shr_m (Pos.iter shr_1 mrs p) = shr_m mrs / 2 ^ Zpos p.
Proof.
  intros H. induction p using Pos.peano_ind.
  - simpl Pos.iter. rewrite shr_1_m by auto. reflexivity.
  - rewrite Pos.iter_succ. rewrite shr_1_m.
    + rewrite IHp, Pos2Z.inj_succ, Z.pow_succ_r by lia.
      rewrite Z.div_div by (try apply pow2_pos; lia).
      f_equal. lia.
    + rewrite IHp. apply Z.div_pos; [lia|apply pow2_pos; lia].
Qed.

Lemma shr_1_exact (m : Z) :
  0 <= m ->
  shr_1 {| shr_m := 2 * m; shr_r := false; shr_s := false |}
  = {| shr_m := m; shr_r := false; shr_s := false |}.
Proof. destruct m as [|p|p]; intros; try lia; reflexivity. Qed.

Lemma iter_shr_1_exact (p : positive) (m : Z) :
  0 <= m ->
  Pos.iter shr_1
    {| shr_m := m * 2 ^ Zpos p; shr_r := false; shr_s := false |} p
  = {| shr_m := m; shr_r := false; shr_s := false |}.
Proof.
  intros H. revert m H. induction p using Pos.peano_ind; intros m H.
  - replace (m * 2 ^ 1) with (2 * m) by lia.
    change (Pos.iter shr_1 ?x 1) with (shr_1 x).
    apply shr_1_exact; auto.
  - rewrite Pos.iter_succ_r.
    rewrite Pos2Z.inj_succ, Z.pow_succ_r by lia.
    replace (m * (2 * 2 ^ Zpos p)) with (2 * (m * 2 ^ Zpos p)) by ring.
    rewrite shr_1_exact by (pose proof (pow2_pos (Zpos p)); nia).
    apply IHp; auto.
Qed.

Lemma shr_fexp_spec (m e : Z) (l : location) :
  0 <= m ->
  snd (shr_fexp Double.prec Double.emax m e l) = e + dropped m e /\
  shr_m (fst (shr_fexp Double.prec Double.emax m e l))
  = m / 2 ^ dropped m e.
Proof.
  intros Hm. unfold shr_fexp, shr, dropped.
  assert (Hr : shr_m (shr_record_of_loc m l) = m)
    by (destruct l as [|[]]; reflexivity).
  destruct (fexp64 (Zdigits2 m + e) - e) as [|p|p] eqn:E.
  - cbn [fst snd]. rewrite Hr. simpl. rewrite Z.div_1_r. lia.
  - cbn [fst snd]. rewrite iter_pos_iter, iter_shr_1_m by lia.
    rewrite Hr. rewrite Z.max_r by lia. auto.
  - cbn [fst snd]. rewrite Hr. rewrite Z.max_l by lia.
    simpl. rewrite Z.div_1_r. lia.
Qed.

Lemma shr_fexp_exact (m : Z) (e : Z) (j : Z) :
  0 <= m -> 0 <= j -> dropped (m * 2 ^ j) e = j ->
  shr_fexp Double.prec Double.emax (m * 2 ^ j) e loc_Exact
  = ({| shr_m := m; shr_r := false; shr_s := false |}, e + j).
Proof.
  intros Hm Hj. unfold shr_fexp, shr, dropped. cbn [shr_record_of_loc].
  destruct (fexp64 (Zdigits2 (m * 2 ^ j) + e) - e) as [|p|p] eqn:E;
    intros Hd.
  - rewrite Z.max_l in Hd by lia. subst j. simpl.
    rewrite Z.mul_1_r, Z.add_0_r. reflexivity.
  - rewrite Z.max_r in Hd by lia. subst j.
    rewrite iter_pos_iter, iter_shr_1_exact by auto. reflexivity.
  - rewrite Z.max_l in Hd by lia. subst j. simpl.
    rewrite Z.mul_1_r, Z.add_0_r. reflexivity.
Qed.

Lemma round_bounds (m : Z) (l : location) :
  m <= round_nearest_even m l <= m + 1.
Proof.
  destruct l as [|[]]; simpl; try lia. destruct (Z.even m); lia.
Qed.

(** [binary_round_aux] on a mantissa that is not negative: the mantissa
    loses [dropped] bits, is rounded up by at most one, and loses the bit
    that the rounding may have added. *)
Lemma BRA_spec (s : bool) (m e : Z) (l : location) :
  0 <= m ->
  exists m1,
    m / 2 ^ dropped m e <= m1 <= m / 2 ^ dropped m e + 1 /\
    BRA s m e l =
    match m1 / 2 ^ dropped m1 (e + dropped m e) with
    | Z0 => S754_zero s
    | Zpos p =>
        if e + dropped m e + dropped m1 (e + dropped m e) <=? 971
        then S754_finite s p (e + dropped m e + dropped m1 (e + dropped m e))
        else S754_infinity s
    | Zneg _ => S754_nan
    end.
Proof.
  intros Hm. unfold binary_round_aux.
  destruct (shr_fexp_spec m e l Hm) as [He Hs].
  destruct (shr_fexp Double.prec Double.emax m e l) as [mrs' e'].
  cbn [fst snd] in He, Hs. subst e'.
  set (m1 := round_nearest_even (shr_m mrs') (loc_of_shr_record mrs')).
  assert (Hb : m / 2 ^ dropped m e <= m1 <= m / 2 ^ dropped m e + 1).
  { unfold m1. rewrite <- Hs. apply round_bounds. }
  assert (H1 : 0 <= m1).
  { assert (0 <= m / 2 ^ dropped m e).
    { apply Z.div_pos; [lia|]. apply pow2_pos. unfold dropped. lia. }
    lia. }
  exists m1. split; [exact Hb|].
  destruct (shr_fexp_spec m1 (e + dropped m e) loc_Exact H1) as [He2 Hs2].
  destruct (shr_fexp Double.prec Double.emax m1 (e + dropped m e) loc_Exact)
    as [mrs'' e''].
  cbn [fst snd] in He2, Hs2. subst e''. rewrite Hs2. reflexivity.
Qed.

End Rounding.

Section Magnitude.

Local Notation "'fexp64'" := (fexp Double.prec Double.emax).
Local Notation "'BRA'" := (binary_round_aux Double.prec Double.emax).

Lemma Zdigits2_bounds (m : Z) :
  0 < m -> 2 ^ (Zdigits2 m - 1) <= m < 2 ^ Zdigits2 m.
Proof.
  destruct m as [|p|p]; intros H; try lia. apply digits2_bounds.
Qed.

Lemma Zdigits2_pos (m : Z) : 0 < m -> 0 < Zdigits2 m.
Proof. destruct m; simpl; lia. Qed.

Lemma Zdigits2_le (m k : Z) : 0 <= k -> 0 <= m < 2 ^ k -> Zdigits2 m <= k.
Proof.
  intros Hk [H0 H1]. destruct (Z.eq_dec m 0) as [->|Hn]; [simpl; lia|].
  pose proof (Zdigits2_bounds m ltac:(lia)) as [Hl _].
  destruct (Z.leb_spec (Zdigits2 m) k); auto.
  assert (2 ^ k <= 2 ^ (Zdigits2 m - 1)) by (apply Z.pow_le_mono_r; lia).
  lia.
Qed.

Lemma Zdigits2_ge (m k : Z) : 0 <= k -> 2 ^ k <= m -> k + 1 <= Zdigits2 m.
Proof.
  intros Hk H. pose proof (pow2_pos k Hk).
  pose proof (Zdigits2_bounds m ltac:(lia)) as [_ Hu].
  destruct (Z.leb_spec (k + 1) (Zdigits2 m)); auto.
  assert (2 ^ Zdigits2 m <= 2 ^ k) by (apply Z.pow_le_mono_r; lia).
  lia.
Qed.

Lemma dropped_nonneg (m e : Z) : 0 <= dropped m e.
Proof. unfold dropped. lia. Qed.

(** [binary_round_aux] does not overflow below the largest double. *)
Lemma BRA_not_inf (s : bool) (m e : Z) (l : location) :
  0 <= m -> e <= 971 -> m < (2 ^ 53 - 1) * 2 ^ (971 - e) ->
  forall s', BRA s m e l <> S754_infinity s'.
Proof.
  intros Hm He Hlt s'.
  destruct (BRA_spec s m e l Hm) as (m1 & [Hl1 Hu1] & ->).
  set (n := dropped m e) in *.
  assert (Hn : 0 <= n) by apply dropped_nonneg.
  assert (He' : e + n <= 971).
  { unfold n, dropped. rewrite fexp64_eq.
    destruct (Z.eq_dec m 0) as [->|Hn0]; [simpl; lia|].
    pose proof (Zdigits2_bounds m ltac:(lia)) as [Hd _].
    assert (Zdigits2 m + e <= 1024).
    { destruct (Z.leb_spec (Zdigits2 m + e) 1024); auto.
      assert (2 ^ (1024 - e) <= 2 ^ (Zdigits2 m - 1))
        by (apply Z.pow_le_mono_r; lia).
      rewrite (pow2_split (1024 - e) (971 - e)) in H0 by lia.
      replace (1024 - e - (971 - e)) with 53 in H0 by lia.
      pose proof (pow2_pos (971 - e)). nia. }
    lia. }
  assert (Hq : m / 2 ^ n < (2 ^ 53 - 1) * 2 ^ (971 - (e + n))).
  { apply Z.div_lt_upper_bound; [apply pow2_pos; lia|].
    rewrite (pow2_split (971 - e) n) in Hlt by lia.
    replace (971 - e - n) with (971 - (e + n)) in Hlt by lia. lia. }
  set (e' := e + n) in *.
  assert (H1 : m1 < 2 ^ (1024 - e')).
  { rewrite (pow2_split (1024 - e') (971 - e')) by lia.
    replace (1024 - e' - (971 - e')) with 53 by lia.
    pose proof (pow2_pos (971 - e')). nia. }
  assert (H0 : 0 <= m1).
  { assert (0 <= m / 2 ^ n) by (apply Z.div_pos; [lia|apply pow2_pos; lia]).
    lia. }
  assert (Hd1 : Zdigits2 m1 <= 1024 - e') by (apply Zdigits2_le; lia).
  assert (He2 : e' + dropped m1 e' <= 971).
  { unfold dropped. rewrite fexp64_eq. lia. }
  destruct (m1 / 2 ^ dropped m1 e'); try discriminate.
  destruct (Z.leb_spec (e' + dropped m1 e') 971); [discriminate|lia].
Qed.

(** A finite result of [binary_round_aux]: it is at most one unit in its
    last place above the mantissa that was rounded, and it is a normal
    number or has the smallest exponent, when the mantissa had bits
    enough. *)
Lemma BRA_finite (s s' : bool) (m e : Z) (l : location) (mb : positive)
  (eb : Z) :
  0 <= m -> BRA s m e l = S754_finite s' mb eb ->
  e <= eb <= 971 /\
  Zpos mb * 2 ^ (eb - e) <= m + 2 ^ (eb - e) /\
  Zpos mb < 2 ^ 53 /\
  (e <= fexp64 (Zdigits2 m + e) -> eb = -1074 \/ 2 ^ 52 <= Zpos mb).
Proof.
  intros Hm. destruct (BRA_spec s m e l Hm) as (m1 & [Hl1 Hu1] & ->).
  set (n := dropped m e) in *.
  assert (Hn : 0 <= n) by apply dropped_nonneg.
  set (e' := e + n) in *.
  set (n2 := dropped m1 e') in *.
  assert (Hn2 : 0 <= n2) by apply dropped_nonneg.
  pose proof (pow2_pos n Hn) as Hpn. pose proof (pow2_pos n2 Hn2) as Hpn2.
  assert (Hdiv : 2 ^ n * (m / 2 ^ n) <= m) by (apply Z.mul_div_le; lia).
  destruct (m1 / 2 ^ n2) as [|p|p] eqn:Ediv; try discriminate.
  destruct (Z.leb_spec (e' + n2) 971) as [Hle|]; [|discriminate].
  intros H. inversion H; subst s' mb eb. clear H.
  assert (Hq : 2 ^ n2 * Zpos p <= m1).
  { rewrite <- Ediv. apply Z.mul_div_le. lia. }
  assert (Hm1 : 0 < m1) by nia.
  pose proof (Zdigits2_bounds m1 Hm1) as [Hd1l Hd1u].
  pose proof (Zdigits2_pos m1 Hm1) as Hd1.
  assert (Hn2' : fexp64 (Zdigits2 m1 + e') - e' <= n2)
    by (unfold n2, dropped; lia).
  rewrite fexp64_eq in Hn2'.
  split; [lia|]. split; [|split].
  - replace (e' + n2 - e) with (n + n2) by lia.
    rewrite Z.pow_add_r by lia. nia.
  - assert (m1 < 2 ^ 53 * 2 ^ n2).
    { rewrite <- Z.pow_add_r by lia.
      eapply Z.lt_le_trans; [exact Hd1u|].
      apply Z.pow_le_mono_r; lia. }
    rewrite <- Ediv. apply Z.div_lt_upper_bound; lia.
  - intros Hc.
    assert (He' : e' = fexp64 (Zdigits2 m + e)) by (unfold e', n, dropped; lia).
    rewrite fexp64_eq in He', Hc.
    destruct (Z.eq_dec (e' + n2) (-1074)) as [|Hne]; [left; assumption|].
    right.
    destruct (Z.eq_dec n2 0) as [Hz|Hnz].
    + (* no bit dropped after rounding *)
      rewrite Hz in *. rewrite Z.pow_0_r, Z.div_1_r in Ediv.
      assert (Hmpos : 0 < m).
      { destruct (Z.eq_dec m 0) as [->|]; [simpl in He'; lia|lia]. }
      pose proof (Zdigits2_bounds m Hmpos) as [Hdl Hdu].
      assert (Hnd : n = Zdigits2 m - 53) by lia.
      assert (2 ^ 52 <= m / 2 ^ n).
      { apply Z.div_le_lower_bound; [lia|].
        rewrite <- Z.pow_add_r by lia.
        eapply Z.le_trans; [|exact Hdl].
        apply Z.pow_le_mono_r; lia. }
      lia.
    + assert (Hn2e : n2 = Zdigits2 m1 - 53).
      { unfold n2, dropped in *. rewrite fexp64_eq in *. lia. }
      rewrite <- Ediv. apply Z.div_le_lower_bound; [lia|].
      rewrite <- Z.pow_add_r by lia.
      eapply Z.le_trans; [|exact Hd1l].
      apply Z.pow_le_mono_r; lia.
Qed.

Lemma BRA_not_nan (s : bool) (m e : Z) (l : location) :
  0 <= m -> BRA s m e l <> S754_nan.
Proof.
  intros Hm. destruct (BRA_spec s m e l Hm) as (m1 & [Hl1 Hu1] & ->).
  assert (0 <= m / 2 ^ dropped m e).
  { apply Z.div_pos; [lia|]. apply pow2_pos, dropped_nonneg. }
  assert (0 <= m1 / 2 ^ dropped m1 (e + dropped m e)).
  { apply Z.div_pos; [lia|]. apply pow2_pos, dropped_nonneg. }
  destruct (m1 / 2 ^ dropped m1 (e + dropped m e)); try discriminate;
    [|lia].
  destruct (_ <=? 971); discriminate.
Qed.

Lemma BRA_sign (s s' : bool) (m e : Z) (l : location) (mb : positive)
  (eb : Z) :
  0 <= m -> BRA s m e l = S754_finite s' mb eb -> s' = s.
Proof.
  intros Hm. destruct (BRA_spec s m e l Hm) as (m1 & _ & ->).
  destruct (m1 / 2 ^ dropped m1 (e + dropped m e)); try discriminate.
  destruct (_ <=? 971); try discriminate. congruence.
Qed.

(** A canonical mantissa with [j] more bits, all zero, is rounded to
    itself. *)
Lemma BRA_shifted (s : bool) (m : positive) (e j : Z) :
  bounded Double.prec Double.emax m e = true -> 0 <= j ->
  BRA s (Zpos m * 2 ^ j) (e - j) loc_Exact = S754_finite s m e.
Proof.
  unfold bounded, canonical_mantissa. rewrite andb_true_iff.
  intros [Hc He] Hj. apply Z.eqb_eq in Hc. pose proof (pow2_pos j Hj) as Hp.
  assert (Hd : Zdigits2 (Zpos m * 2 ^ j) = Zpos (digits2_pos m) + j).
  { pose proof (digits2_bounds m) as [Hl Hu].
    assert (H0 : 0 < Zpos m * 2 ^ j) by nia.
    destruct (Zpos m * 2 ^ j) as [|q|q] eqn:E; try lia.
    cbn [Zdigits2]. apply digits2_unique. rewrite <- E.
    replace (Zpos (digits2_pos m) + j - 1)
      with (Zpos (digits2_pos m) - 1 + j) by lia.
    rewrite !Z.pow_add_r by lia. split; nia. }
  assert (Hdr : dropped (Zpos m * 2 ^ j) (e - j) = j).
  { unfold dropped. rewrite Hd.
    replace (Zpos (digits2_pos m) + j + (e - j))
      with (Zpos (digits2_pos m) + e) by lia.
    rewrite Hc. lia. }
  unfold binary_round_aux.
  rewrite (shr_fexp_exact (Zpos m) (e - j) j) by (auto; lia).
  cbn [shr_m loc_of_shr_record round_nearest_even].
  replace (e - j + j) with e by lia.
  unfold shr_fexp. cbn [Zdigits2 shr_record_of_loc]. rewrite Hc, Z.sub_diag.
  cbn [shr shr_m]. rewrite He. reflexivity.
Qed.

End Magnitude.

(** ** Division and multiplication of a double by an [int] *)

Section ByInt.

Local Notation "'fexp64'" := (fexp Double.prec Double.emax).
Local Notation "'BRA'" := (binary_round_aux Double.prec Double.emax).

Lemma bounded_facts (m : positive) (e : Z) :
  bounded Double.prec Double.emax m e = true ->
  -1074 <= e <= 971 /\ Zpos m < 2 ^ 53 /\
  (e = -1074 \/ 2 ^ 52 <= Zpos m) /\
  fexp64 (Zpos (digits2_pos m) + e) = e.
Proof.
  unfold bounded, canonical_mantissa. rewrite andb_true_iff.
  intros [Hc He]. apply Z.eqb_eq in Hc. apply Z.leb_le in He.
  change (Double.emax - Double.prec) with 971 in He.
  pose proof (digits2_bounds m) as [Hl Hu].
  pose proof Hc as Hc'. rewrite fexp64_eq in Hc'.
  repeat split; try lia; auto.
  - eapply Z.lt_le_trans; [exact Hu|]. apply Z.pow_le_mono_r; lia.
  - destruct (Z.eq_dec e (-1074)); [left; auto|right].
    eapply Z.le_trans; [|exact Hl]. apply Z.pow_le_mono_r; lia.
Qed.

(** The double of a positive [int]. *)
Lemma of_int_pos_form (n : positive) :
  Zpos n < 2 ^ 53 ->
  exists mN eN,
    Double.of_int (Zpos n) = S754_finite false mN eN /\
    -52 <= eN <= 0 /\ Zpos mN = Zpos n * 2 ^ (- eN) /\
    2 ^ 52 <= Zpos mN < 2 ^ 53 /\
    (2 <= Zpos n -> -51 <= eN) /\
    (Zpos n = 1 -> eN = -52).
Proof.
  intros Hn. exists (fst (normal n)), (snd (normal n)).
  pose proof (normal_bounded n Hn) as Hb.
  pose proof (normal_value n Hn) as [He Hv].
  pose proof (bounded_facts _ _ Hb) as (Hr & Hlt & Hnorm & _).
  pose proof (pow2_pos (- snd (normal n)) ltac:(lia)) as Hp.
  assert (He52 : -52 <= snd (normal n)).
  { destruct (Z.leb_spec (-52) (snd (normal n))); auto.
    assert (2 ^ 53 <= 2 ^ (- snd (normal n)))
      by (apply Z.pow_le_mono_r; lia). nia. }
  split; [apply of_int_pos; auto|].
  split; [lia|]. split; [exact Hv|]. split; [|split].
  - destruct Hnorm; lia.
  - intros H2. destruct (Z.leb_spec (-51) (snd (normal n))); auto.
    assert (snd (normal n) = -52) by lia.
    rewrite H0 in Hv. simpl in Hv. lia.
  - intros H1. destruct (Z.eq_dec (snd (normal n)) (-52)); auto.
    assert (2 ^ (- snd (normal n)) <= 2 ^ 51)
      by (apply Z.pow_le_mono_r; lia).
    destruct Hnorm as [|Hn52]; [lia|].
    rewrite Hv, H1 in Hn52.
    assert (2 ^ 51 < 2 ^ 52) by (apply Z.pow_lt_mono_r; lia). lia.
Qed.

Lemma div_finite (sx sy : bool) (mx my : positive) (ex ey : Z) :
  Double.div (S754_finite sx mx ex) (S754_finite sy my ey) =
  let e' := Z.min (fexp64 (Zpos (digits2_pos mx) + ex
                           - (Zpos (digits2_pos my) + ey))) (ex - ey) in
  let s_ := ex - ey - e' in
  let m' := match s_ with
            | Zpos _ => Z.shiftl (Zpos mx) s_
            | Z0 => Zpos mx
            | Zneg _ => 0
            end in
  BRA (xorb sx sy) (m' / Zpos my) e'
    (new_location (Zpos my) (m' mod Zpos my)).
Proof.
  unfold Double.div, SFdiv, SFdiv_core_binary, Z.div, Z.modulo.
  cbn [Zdigits2].
  destruct (Z.div_eucl _ (Zpos my)) as [q r]. reflexivity.
Qed.

Lemma div_by_one (s : bool) (m : positive) (e : Z) :
  bounded Double.prec Double.emax m e = true ->
  Double.div (S754_finite s m e) (Double.of_int 1) = S754_finite s m e.
Proof.
  intros Hb. pose proof (bounded_facts m e Hb) as (He & Hm & Hnorm & Hc).
  change (Double.of_int 1) with (S754_finite false 4503599627370496 (-52)).
  rewrite div_finite, xorb_false_r.
  change (Zpos (digits2_pos 4503599627370496)) with 53.
  pose proof (digits2_bounds m) as [Hl Hu].
  assert (Hd : Zpos (digits2_pos m) <= 53).
  { rewrite fexp64_eq in Hc. lia. }
  cbv zeta.
  set (e' := Z.min _ _).
  assert (He' : -1074 <= e' <= e).
  { unfold e'. rewrite fexp64_eq. lia. }
  assert (Hm' : match e - -52 - e' with
                | 0 => Zpos m
                | Zpos _ => Z.shiftl (Zpos m) (e - -52 - e')
                | Zneg _ => 0
                end = (Zpos m * 2 ^ (e - e')) * 4503599627370496).
  { destruct (e - -52 - e') as [|p|p] eqn:E; try lia.
    rewrite <- E, Z.shiftl_mul_pow2 by lia.
    replace (e - -52 - e') with ((e - e') + 52) by lia.
    rewrite Z.pow_add_r by lia.
    change (2 ^ 52) with 4503599627370496. ring. }
  rewrite Hm'.
  rewrite Z.div_mul, Z.mod_mul by lia.
  change (new_location 4503599627370496 0) with loc_Exact.
  replace e' with (e - (e - e')) at 2 by lia.
  apply BRA_shifted; [exact Hb|lia].
Qed.

Lemma div_by_int (s : bool) (m : positive) (e : Z) (n : positive) :
  bounded Double.prec Double.emax m e = true ->
  Zpos n < 2 ^ 31 ->
  quotient_of s m e n
    (Double.div (S754_finite s m e) (Double.of_int (Zpos n))).
Proof.
  intros Hb Hn. pose proof (bounded_facts m e Hb) as (He & Hm & Hnorm & Hc).
  destruct (Pos.eq_dec n 1) as [->|Hn1].
  { rewrite div_by_one by auto. right. exists m, e.
    split; [reflexivity|]. split; [lia|]. split; [lia|].
    destruct Hnorm as [|Hnorm]; [left; auto|right].
    split; [auto|]. pose proof (pow2_pos (e + 1074)). nia. }
  destruct (of_int_pos_form n ltac:(lia))
    as (mN & eN & -> & HeN & HmN & HmNb & HeN2 & _).
  specialize (HeN2 ltac:(lia)).
  rewrite div_finite, xorb_false_r.
  pose proof (digits2_bounds m) as [Hl Hu].
  assert (HdN : Zpos (digits2_pos mN) = 53)
    by (apply digits2_unique; simpl; lia).
  rewrite HdN.
  assert (Hd : Zpos (digits2_pos m) <= 53).
  { rewrite fexp64_eq in Hc. lia. }
  set (d := Zpos (digits2_pos m)) in *.
  cbv zeta.
  set (e' := Z.min _ _).
  assert (He'eq : e' = Z.max (d + e - 106 - eN) (-1074)).
  { unfold e'. rewrite fexp64_eq. lia. }
  assert (He' : -1074 <= e' <= e) by lia.
  set (s_ := e - eN - e').
  assert (Hs_ : 0 <= s_) by (unfold s_; lia).
  assert (Hm' : match s_ with
                | 0 => Zpos m
                | Zpos _ => Z.shiftl (Zpos m) s_
                | Zneg _ => 0
                end = Zpos m * 2 ^ s_).
  { destruct s_ as [|p|p] eqn:E; try lia.
    rewrite Z.shiftl_mul_pow2 by lia. reflexivity. }
  rewrite Hm'.
  pose proof (Z.div_mod (Zpos m * 2 ^ s_) (Zpos mN) ltac:(lia)) as Heq.
  pose proof (Z.mod_pos_bound (Zpos m * 2 ^ s_) (Zpos mN) ltac:(lia)) as Hr.
  set (q := Zpos m * 2 ^ s_ / Zpos mN) in *.
  set (r := (Zpos m * 2 ^ s_) mod Zpos mN) in *.
  pose proof (pow2_pos s_ Hs_) as Hps.
  assert (Hq0 : 0 <= q) by nia.
  assert (Hqm : q * Zpos mN <= Zpos m * 2 ^ s_) by nia.
  (* the quotient is below the largest double *)
  assert (Hqlt : q < (2 ^ 53 - 1) * 2 ^ (971 - e')).
  { pose proof (pow2_pos (971 - e') ltac:(lia)) as Hp9.
    assert (Hle : 2 ^ s_ <= 2 ^ (971 - e') * 2 ^ 51).
    { rewrite <- Z.pow_add_r by lia. apply Z.pow_le_mono_r; unfold s_; lia. }
    change (2 ^ 52) with (2 * 2 ^ 51) in HmNb.
    assert (0 < 2 ^ 51) by (apply pow2_pos; lia). nia. }
  set (b := BRA s q e' (new_location (Zpos mN) r)).
  pose proof (BRA_not_inf s q e' (new_location (Zpos mN) r) Hq0
                ltac:(lia) Hqlt) as Hninf.
  pose proof (BRA_not_nan s q e' (new_location (Zpos mN) r) Hq0) as Hnnan.
  fold b in Hninf, Hnnan.
  destruct b as [sb|sb| |sb mb eb] eqn:Eb.
  - left. unfold b in Eb.
    destruct (BRA_spec s q e' (new_location (Zpos mN) r) Hq0)
      as (m1 & _ & Hspec).
    rewrite Hspec in Eb.
    destruct (m1 / 2 ^ dropped m1 (e' + dropped q e')); try discriminate.
    + congruence.
    + destruct (_ <=? 971); discriminate.
  - exfalso. eapply Hninf. reflexivity.
  - congruence.
  - right. unfold b in Eb.
    pose proof (BRA_sign _ _ _ _ _ _ _ Hq0 Eb) as ->.
    destruct (BRA_finite _ _ _ _ _ _ _ Hq0 Eb) as (Heb & Hval & Hmb & Hcan).
    exists mb, eb. split; [reflexivity|]. split; [lia|]. split; [lia|].
    assert (Hdig : e' <= fexp64 (Zdigits2 q + e')).
    { rewrite fexp64_eq.
      destruct (Z.eq_dec e' (-1074)) as [|Hne]; [lia|].
      assert (Hs106 : s_ = 106 - d) by (unfold s_; lia).
      assert (H105 : 2 ^ 105 <= Zpos m * 2 ^ s_).
      { rewrite Hs106.
        replace 105 with ((d - 1) + (106 - d)) by lia.
        rewrite Z.pow_add_r by lia.
        pose proof (pow2_pos (106 - d) ltac:(lia)). nia. }
      assert (Hq52 : 2 ^ 52 <= q).
      { change (2 ^ 105) with (2 ^ 52 * 2 ^ 53) in H105. nia. }
      pose proof (Zdigits2_ge q 52 ltac:(lia) Hq52). lia. }
    destruct (Hcan Hdig) as [|Hn52]; [left; auto|right].
    split; [auto|].
    (* from [q * mN <= m * 2 ^ s_] to the bound on the values *)
    assert (HqN : q * Zpos n <= Zpos m * 2 ^ (e - e')).
    { assert (Hsplit : 2 ^ s_ = 2 ^ (e - e') * 2 ^ (- eN)).
      { rewrite <- Z.pow_add_r by lia. f_equal. unfold s_. lia. }
      rewrite Hsplit, HmN in Hqm.
      pose proof (pow2_pos (- eN) ltac:(lia)). nia. }
    pose proof (pow2_pos (eb - e') ltac:(lia)) as Hpe.
    assert (Hb1 : Zpos mb * Zpos n * 2 ^ (eb - e')
                  <= Zpos m * 2 ^ (e - e') + Zpos n * 2 ^ (eb - e')) by nia.
    assert (P1 : 2 ^ (eb + 1074) = 2 ^ (eb - e') * 2 ^ (e' + 1074))
      by (rewrite <- Z.pow_add_r by lia; f_equal; lia).
    assert (P2 : 2 ^ (e + 1074) = 2 ^ (e - e') * 2 ^ (e' + 1074))
      by (rewrite <- Z.pow_add_r by lia; f_equal; lia).
    rewrite P1, P2.
    pose proof (pow2_pos (e' + 1074) ltac:(lia)) as Hpc.
    pose proof (Z.mul_le_mono_nonneg_r _ _ (2 ^ (e' + 1074))
                  ltac:(lia) Hb1) as Hfin.
    match goal with
    | |- ?L <= ?R =>
        replace L
          with (Zpos mb * Zpos n * 2 ^ (eb - e') * 2 ^ (e' + 1074)) by ring;
        replace R
          with ((Zpos m * 2 ^ (e - e') + Zpos n * 2 ^ (eb - e'))
                * 2 ^ (e' + 1074)) by ring
    end.
    exact Hfin.
Qed.

Lemma BRA_finite_or_zero (s : bool) (m e : Z) (l : location) :
  0 <= m -> e <= 971 -> m < (2 ^ 53 - 1) * 2 ^ (971 - e) ->
  Double.is_finite (BRA s m e l) = true.
Proof.
  intros Hm He Hlt.
  pose proof (BRA_not_inf s m e l Hm He Hlt) as Hi.
  pose proof (BRA_not_nan s m e l Hm) as Hn.
  destruct (BRA s m e l); try reflexivity.
  - exfalso. eapply Hi. reflexivity.
  - congruence.
Qed.

Lemma mul_quotient (s : bool) (m : positive) (e : Z) (n : positive)
  (d : Z) (b : double) :
  bounded Double.prec Double.emax m e = true ->
  quotient_of s m e n b -> Zpos n < 2 ^ 31 -> 0 <= d < Zpos n ->
  Double.is_finite (Double.mul b (Double.of_int d)) = true.
Proof.
  intros Hb Hq Hn Hd.
  pose proof (bounded_facts m e Hb) as (He & Hm & _ & _).
  destruct d as [|d|d]; [|  |lia].
  { destruct Hq as [->|(mb & eb & -> & _)]; reflexivity. }
  destruct (of_int_pos_form d ltac:(lia))
    as (mD & eD & -> & HeD & HmD & HmDb & _ & _).
  destruct Hq as [->|(mb & eb & -> & Heb & Hmb & Hcase)]; [reflexivity|].
  unfold Double.mul, SFmul.
  pose proof (pow2_pos (- eD) ltac:(lia)) as HpD.
  pose proof (pow2_pos (971 - eb) ltac:(lia)) as Hp9.
  apply BRA_finite_or_zero; [lia|lia|].
  replace (971 - (eb + eD)) with ((971 - eb) + (- eD)) by lia.
  rewrite Z.pow_add_r, Pos2Z.inj_mul, HmD by lia.
  assert (Hgoal : Zpos mb * Zpos d < (2 ^ 53 - 1) * 2 ^ (971 - eb)).
  { destruct Hcase as [Hsub|[Hn52 Hval]].
    - assert (2 ^ 32 <= 2 ^ (971 - eb)) by (apply Z.pow_le_mono_r; lia).
      change (2 ^ 53) with (2 ^ 22 * 2 ^ 31) in *.
      assert (Zpos mb * Zpos d < 2 ^ 22 * 2 ^ 31 * 2 ^ 31) by nia.
      change (2 ^ 32) with (2 * 2 ^ 31) in *. nia.
    - pose proof (pow2_pos (eb + 1074) ltac:(lia)) as HpX.
      assert (HE : 2 ^ (e + 1074) <= 2 ^ (971 - eb) * 2 ^ (eb + 1074)).
      { rewrite <- Z.pow_add_r by lia. apply Z.pow_le_mono_r; lia. }
      pose proof (pow2_pos (e + 1074) ltac:(lia)) as HpE.
      assert (H31 : 2 ^ 31 < 2 ^ 52) by (apply Z.pow_lt_mono_r; lia).
      assert (H1 : Zpos mb * Zpos d * 2 ^ (eb + 1074)
                   < Zpos m * 2 ^ (e + 1074)) by nia.
      assert (H2 : Zpos m * 2 ^ (e + 1074)
                   <= (2 ^ 53 - 1) * 2 ^ (971 - eb) * 2 ^ (eb + 1074))
        by nia.
      nia. }
  nia.
Qed.

Lemma div_not_nan (x : double) (sy : bool) (my : positive) (ey : Z) :
  Double.not_nan x -> Double.not_nan (Double.div x (S754_finite sy my ey)).
Proof.
  unfold Double.not_nan. destruct x as [sx|sx| |sx mx ex]; try reflexivity;
    [discriminate|]. intros _.
  rewrite div_finite. cbv zeta.
  match goal with |- Double.isnan (BRA ?s ?q ?e ?l) = false =>
    pose proof (BRA_not_nan s q e l) as H;
    destruct (BRA s q e l); try reflexivity; exfalso; apply H; auto
  end.
  apply Z.div_pos; [|lia].
  match goal with |- 0 <= match ?s with _ => _ end =>
    destruct s eqn:E; try lia end.
  apply Z.shiftl_nonneg. lia.
Qed.

Lemma mul_not_nan (x : double) (sy : bool) (my : positive) (ey : Z) :
  Double.not_nan x -> Double.not_nan (Double.mul x (S754_finite sy my ey)).
Proof.
  unfold Double.not_nan. destruct x as [sx|sx| |sx mx ex]; try reflexivity;
    [discriminate|]. intros _. unfold Double.mul, SFmul.
  match goal with |- Double.isnan (BRA ?s ?q ?e ?l) = false =>
    pose proof (BRA_not_nan s q e l ltac:(lia)) as H;
    destruct (BRA s q e l); try reflexivity; congruence
  end.
Qed.

Lemma binary_normalize_not_nan (z e : Z) (szero : bool) :
  binary_normalize Double.prec Double.emax z e szero <> S754_nan.
Proof.
  unfold binary_normalize, binary_round.
  destruct z as [|p|p]; [discriminate| |];
    destruct (shl_align _ _ _) as [mz ez]; apply BRA_not_nan; lia.
Qed.

Lemma add_not_nan (x y : double) :
  Double.not_nan x -> Double.is_finite y = true ->
  Double.not_nan (Double.add x y).
Proof.
  unfold Double.not_nan.
  destruct x as [sx|sx| |sx mx ex], y as [sy|sy| |sy my ey];
    try discriminate; try reflexivity; intros _ _.
  - destruct sx, sy; reflexivity.
  - unfold Double.add, SFadd.
    match goal with |- Double.isnan ?t = false =>
      pose proof (binary_normalize_not_nan
        (cond_Zopp sx (Zpos (fst (shl_align mx ex (Z.min ex ey)))) +
         cond_Zopp sy (Zpos (fst (shl_align my ey (Z.min ex ey)))))
        (Z.min ex ey) false) as H;
      destruct t; try reflexivity; congruence
    end.
Qed.

(** The fold of [next_price] is a number or an infinity when the average
    is, the price recorded last is a number, and the times are those of
    the caller's contract. *)
Lemma fold_not_nan (avg last : double) (T D : Z) :
  Double.not_nan avg -> Double.is_real last = true ->
  0 < T -> 0 <= D -> T + D <= Int.max_int ->
  Double.not_nan
    (Double.add
       (Double.mul (Double.div avg (Double.of_int (T + D))) (Double.of_int T))
       (Double.mul (Double.div last (Double.of_int (T + D)))
                   (Double.of_int D))).
Proof.
  unfold Int.max_int. intros Ha Hl HT HD HN.
  destruct (T + D) as [|n|n] eqn:En; try lia.
  destruct T as [|t|t]; try lia.
  destruct (of_int_pos_form n ltac:(lia)) as (mN & eN & HN' & _).
  destruct (of_int_pos_form t ltac:(lia)) as (mT & eT & HT' & _).
  apply add_not_nan.
  - rewrite HN', HT'. apply mul_not_nan, div_not_nan, Ha.
  - destruct last as [s|s| |s m e]; try discriminate.
    + rewrite HN'. cbn [Double.div SFdiv].
      destruct D as [|d|d]; [reflexivity| |lia].
      destruct (of_int_pos_form d ltac:(lia)) as (? & ? & -> & _).
      reflexivity.
    + simpl in Hl.
      apply (mul_quotient s m e n D); auto; try lia.
      apply div_by_int; auto. lia.
Qed.

End ByInt.

(** ** The average is defined once an interval is integrated *)

Section TwapDefined.

Import Twap.

Lemma is_real_not_nan (p : double) :
  Double.is_real p = true -> Double.isnan p = false.
Proof. destruct p; simpl; congruence. Qed.

Lemma price_ok_real (p : double) :
  price_ok p -> Double.isnan p = false -> Double.is_real p = true.
Proof. intros [H|H] Hn; [congruence|exact H]. Qed.

Lemma new_defined_inv : defined_inv new.
Proof.
  split; [apply new_time_inv|]. split; [left; reflexivity|].
  simpl. lia.
Qed.

Lemma next_price_defined_inv (t : TWAP double) (time : int) (price : double) :
  defined_inv t -> price_ok price ->
  last_time_ t <= time <= Int.max_int ->
  defined_inv (next_price time price t) /\
  last_time_ (next_price time price t) = time /\
  Double.isnan (avg_price_ (next_price time price t)) =
  Double.isnan (avg_price_ t) && Double.isnan (last_price_ t).
Proof.
  intros (Ht & Hl & Ha) Hp Hr.
  destruct (next_price_time_inv (A := binary64) t time price Ht Hr)
    as [Ht' Hlast].
  split; [|split; [exact Hlast|]].
  - split; [exact Ht'|].
    destruct Ht as [[H0 H1] H2].
    destruct (Double.isnan (last_price_ t)) eqn:En.
    + rewrite (next_price_gap (A := binary64)) by exact En.
      cbn [last_price_ avg_price_ total_time_]. auto.
    + pose proof (price_ok_real _ Hl En) as Hreal.
      destruct (Z.ltb_spec 0 (total_time_ t)).
      * rewrite (next_price_fold (A := binary64)) by auto.
        cbn [last_price_ avg_price_ total_time_].
        split; [exact Hp|]. intros _.
        rewrite sub_small, add_small by lia.
        apply fold_not_nan; auto; try lia. apply Ha. lia.
      * rewrite (next_price_first (A := binary64)) by auto.
        cbn [last_price_ avg_price_ total_time_]. auto.
  - destruct Ht as [[H0 H1] H2].
    destruct (Double.isnan (last_price_ t)) eqn:En.
    + rewrite (next_price_gap (A := binary64)) by exact En.
      cbn [avg_price_]. rewrite andb_true_r. reflexivity.
    + pose proof (price_ok_real _ Hl En) as Hreal.
      rewrite andb_false_r.
      destruct (Z.ltb_spec 0 (total_time_ t)).
      * rewrite (next_price_fold (A := binary64)) by auto.
        cbn [avg_price_]. rewrite sub_small, add_small by lia.
        apply fold_not_nan; auto; try lia. apply Ha. lia.
      * rewrite (next_price_first (A := binary64)) by auto.
        cbn [avg_price_]. exact En.
Qed.

Lemma feed_defined_inv (l : list (int * double)) : forall t,
  defined_inv t -> prices_ok l -> times_from (last_time_ t) l ->
  defined_inv (feed l t) /\
  Double.isnan (avg_price_ (feed l t)) =
  Double.isnan (avg_price_ t) && negb (integrates l t).
Proof.
  induction l as [|[time price] l IH]; intros t Ht Hp Hl.
  - simpl. rewrite andb_true_r. auto.
  - inversion Hp as [|? ? Hp1 Hp2]; subst. destruct Hl as [Hr Hl].
    destruct (next_price_defined_inv t time price Ht Hp1 Hr)
      as (Ht' & Hlast & Hnan).
    rewrite <- Hlast in Hl.
    destruct (IH _ Ht' Hp2 Hl) as [Hf Hn].
    cbn [feed integrates]. split; [exact Hf|].
    change (isnan (last_price_ t)) with (Double.isnan (last_price_ t)).
    rewrite Hn, Hnan.
    destruct (Double.isnan (avg_price_ t)),
      (Double.isnan (last_price_ t)),
      (integrates l (next_price time price t)); reflexivity.
Qed.

(** C6 as stated does not hold of every double: an infinite price that
    holds for an interval of length zero makes a defined average "no
    price" again, since [inf / n * 0] is NaN. *)
Lemma sentinel_iff_not_integrated_fails : ~ sentinel_iff_not_integrated.
Proof.
  intros H. specialize (H infinite_price).
  assert (Ht : times_from 0 infinite_price)
    by (cbn; unfold Int.max_int; lia).
  specialize (H Ht). vm_compute in H. discriminate H.
Qed.

(** C6, amended. Under the caller's contract and for prices that are
    finite numbers or "no price", [avg_price] is the "no price" value
    exactly when no call has integrated an interval, that is when no sample
    before the last one carries a price; a fresh accumulator answers "no
    price". *)
Theorem sentinel_until_integrated (l : list (int * double)) :
  times_from 0 l -> prices_ok l ->
  Double.isnan (avg_price (feed l new)) = negb (integrates l new) /\
  integrates l new = priced_before_last l /\
  avg_price (new (P := double)) = NO_PRICE.
Proof.
  intros Hl Hp. split; [|split; [apply integrates_new|reflexivity]].
  destruct (feed_defined_inv l new new_defined_inv Hp Hl) as [_ H].
  exact H.
Qed.

Lemma sentinel_until_integrated_witness :
  Double.isnan (avg_price (feed golden new)) = negb (integrates golden new) /\
  integrates golden new = priced_before_last golden /\
  avg_price (new (P := double)) = NO_PRICE.
Proof.
  apply (sentinel_until_integrated golden).
  - cbn. unfold Int.max_int. lia.
  - unfold prices_ok, golden.
    repeat (apply Forall_cons;
            [first [left; reflexivity | right; reflexivity]|]).
    apply Forall_nil.
Defined.

End TwapDefined.

(** ** The rounding of a normal result *)

Section NormalRounding.

Local Notation "'fexp64'" := (fexp Double.prec Double.emax).
Local Notation "'BRA'" := (binary_round_aux Double.prec Double.emax).

Lemma Zdigits2_unique (m d : Z) :
  2 ^ (d - 1) <= m < 2 ^ d -> 0 < m -> Zdigits2 m = d.
Proof.
  intros H Hm. destruct m as [|p|p]; try lia.
  cbn [Zdigits2]. apply digits2_unique. exact H.
Qed.

Lemma bounded_normal (m : positive) (e : Z) :
  2 ^ 52 <= Zpos m < 2 ^ 53 -> -1074 <= e <= 971 ->
  bounded Double.prec Double.emax m e = true.
Proof.
  intros Hm He. unfold bounded, canonical_mantissa.
  rewrite (digits2_unique m 53) by (simpl; lia).
  rewrite fexp64_eq. apply andb_true_iff. split.
  - apply Z.eqb_eq. lia.
  - apply Z.leb_le. unfold Double.emax, Double.prec. lia.
Qed.

(** A mantissa of 53 bits or more whose value is in the range of the
    normal doubles is rounded to a normal double, within one unit in the
    last place. *)
Lemma BRA_normal (m e : Z) (l : location) :
  2 ^ 52 <= m -> -1021 <= Zdigits2 m + e <= 1023 ->
  exists mb eb,
    BRA false m e l = S754_finite false mb eb /\
    2 ^ 52 <= Zpos mb < 2 ^ 53 /\
    -1074 <= eb <= 971 /\ e <= eb /\
    Zdigits2 m + e - 53 <= eb <= Zdigits2 m + e - 52 /\
    (m + 1) * (2 ^ 52 - 1) <= Zpos mb * 2 ^ (eb - e) * 2 ^ 52 /\
    Zpos mb * 2 ^ (eb - e) * 2 ^ 52 <= m * (2 ^ 52 + 1).
Proof.
  intros Hm Hr.
  assert (Hm0 : 0 < m) by lia.
  pose proof (Zdigits2_bounds m Hm0) as [Hdl Hdu].
  assert (Hdg : 53 <= Zdigits2 m).
  { pose proof (Zdigits2_ge m 52 ltac:(lia) Hm). lia. }
  destruct (BRA_spec false m e l ltac:(lia)) as (m1 & [Hl1 Hu1] & ->).
  set (n := Zdigits2 m - 53).
  assert (Hn : dropped m e = n).
  { unfold dropped. rewrite fexp64_eq. unfold n. lia. }
  rewrite Hn in *.
  assert (Hn0 : 0 <= n) by (unfold n; lia).
  pose proof (pow2_pos n Hn0) as Hpn.
  assert (Hmn : 2 ^ 52 * 2 ^ n <= m).
  { rewrite <- Z.pow_add_r by lia.
    replace (52 + n) with (Zdigits2 m - 1) by (unfold n; lia). exact Hdl. }
  assert (Hmu : m < 2 ^ 53 * 2 ^ n).
  { rewrite <- Z.pow_add_r by lia.
    replace (53 + n) with (Zdigits2 m) by (unfold n; lia). exact Hdu. }
  assert (Hq : 2 ^ 52 <= m / 2 ^ n < 2 ^ 53).
  { split.
    - apply Z.div_le_lower_bound; lia.
    - apply Z.div_lt_upper_bound; lia. }
  assert (Hfl : 2 ^ n * (m / 2 ^ n) <= m) by (apply Z.mul_div_le; lia).
  assert (Hfu : m < 2 ^ n * (m / 2 ^ n) + 2 ^ n).
  { pose proof (Z.mod_pos_bound m (2 ^ n) Hpn).
    pose proof (Z.div_mod m (2 ^ n) ltac:(lia)). lia. }
  set (e1 := e + n) in *.
  destruct (Z.eq_dec m1 (2 ^ 53)) as [Hc|Hc].
  - (* the rounding carries into a 54th bit *)
    assert (Hd1 : Zdigits2 m1 = 54).
    { apply Zdigits2_unique; rewrite Hc; simpl; lia. }
    assert (Hn2 : dropped m1 e1 = 1).
    { unfold dropped. rewrite fexp64_eq, Hd1. unfold e1, n. lia. }
    rewrite Hn2, Hc. change (2 ^ 53 / 2 ^ 1) with (Zpos (2 ^ 52)%positive).
    cbv iota.
    destruct (Z.leb_spec (e1 + 1) 971) as [_|Hbad];
      [|unfold e1, n in Hbad; lia].
    exists (2 ^ 52)%positive, (e1 + 1).
    split; [reflexivity|]. split; [simpl; lia|].
    split; [unfold e1, n; lia|]. split; [unfold e1; lia|].
    split; [unfold e1, n; lia|].
    replace (e1 + 1 - e) with (n + 1) by (unfold e1; lia).
    rewrite Z.pow_add_r by lia.
    change (Zpos (2 ^ 52)%positive) with (2 ^ 52). change (2 ^ 1) with 2.
    assert (Hm1 : m / 2 ^ n = 2 ^ 53 - 1) by lia.
    rewrite Hm1 in *. split; nia.
  - assert (Hm1 : 2 ^ 52 <= m1 < 2 ^ 53) by lia.
    assert (Hd1 : Zdigits2 m1 = 53).
    { apply Zdigits2_unique; [simpl; lia|lia]. }
    assert (Hn2 : dropped m1 e1 = 0).
    { unfold dropped. rewrite fexp64_eq, Hd1. unfold e1, n. lia. }
    rewrite Hn2. rewrite Z.pow_0_r, Z.div_1_r, Z.add_0_r.
    destruct m1 as [|p|p]; try lia.
    destruct (Z.leb_spec e1 971) as [_|Hbad];
      [|unfold e1, n in Hbad; lia].
    exists p, e1.
    split; [reflexivity|]. split; [exact Hm1|].
    split; [unfold e1, n; lia|]. split; [unfold e1; lia|].
    split; [unfold e1, n; lia|].
    replace (e1 - e) with n by (unfold e1; lia).
    split; nia.
Qed.

End NormalRounding.

(** ** The values of doubles *)

Section Values.

Local Notation "'BRA'" := (binary_round_aux Double.prec Double.emax).

Local Open Scope Q_scope.

Lemma two_neq_0 : ~ 2 == 0.
Proof. discriminate. Qed.

Lemma pow2Q_pos (e : Z) : 0 < 2 ^ e.
Proof. apply Qpower_0_lt. reflexivity. Qed.

Lemma pow2Q_add (a b : Z) : 2 ^ (a + b) == 2 ^ a * 2 ^ b.
Proof. apply Qpower_plus, two_neq_0. Qed.

Lemma pow2Q_inject (a : Z) : (0 <= a)%Z -> inject_Z (2 ^ a) == 2 ^ a.
Proof. intros H. rewrite Zpower_Qpower by exact H. reflexivity. Qed.

Lemma pow2Q_le (a b : Z) : (a <= b)%Z -> 2 ^ a <= 2 ^ b.
Proof. intros H. apply Qpower_le_compat_l; [exact H|]. discriminate. Qed.

Lemma eps_bounds : 0 < eps /\ eps < 1.
Proof. split; reflexivity. Qed.

Lemma rel_lower (a w : Z) :
  (a * (2 ^ 52 - 1) <= w * 2 ^ 52)%Z -> inject_Z a * (1 - eps) <= inject_Z w.
Proof.
  intros H. rewrite Zle_Qle in H. rewrite !inject_Z_mult in H.
  change (inject_Z (2 ^ 52 - 1)) with (4503599627370495 # 1) in H.
  change (inject_Z (2 ^ 52)) with (4503599627370496 # 1) in H.
  unfold eps. lra.
Qed.

Lemma rel_upper (a w : Z) :
  (w * 2 ^ 52 <= a * (2 ^ 52 + 1))%Z -> inject_Z w <= inject_Z a * (1 + eps).
Proof.
  intros H. rewrite Zle_Qle in H. rewrite !inject_Z_mult in H.
  change (inject_Z (2 ^ 52 + 1)) with (4503599627370497 # 1) in H.
  change (inject_Z (2 ^ 52)) with (4503599627370496 # 1) in H.
  unfold eps. lra.
Qed.

Lemma pos_normal_inv (x : double) :
  pos_normal x = true ->
  exists m e,
    x = S754_finite false m e /\
    (2 ^ 52 <= Zpos m < 2 ^ 53)%Z /\ (-1074 <= e <= 971)%Z /\
    value_of x == inject_Z (Zpos m) * 2 ^ e.
Proof.
  destruct x as [s|s| |s m e]; try discriminate.
  destruct s; [discriminate|]. cbn [pos_normal].
  rewrite andb_true_iff. intros [Hb Hm]. apply Z.leb_le in Hm.
  destruct (bounded_facts m e Hb) as (He & Hu & _).
  exists m, e. split; [reflexivity|]. split; [lia|]. split; [exact He|].
  cbn [value_of]. ring.
Qed.

Lemma pos_normal_intro (m : positive) (e : Z) :
  (2 ^ 52 <= Zpos m < 2 ^ 53)%Z -> (-1074 <= e <= 971)%Z ->
  pos_normal (S754_finite false m e) = true.
Proof.
  intros Hm He. cbn [pos_normal]. rewrite bounded_normal by assumption.
  apply Z.leb_le. lia.
Qed.


Lemma value_pos (x : double) : pos_normal x = true -> 0 < value_of x.
Proof.
  intros H. destruct (pos_normal_inv x H) as (m & e & _ & Hm & _ & ->).
  apply Qmult_lt_0_compat; [|apply pow2Q_pos].
  change 0 with (inject_Z 0). rewrite <- Zlt_Qlt. lia.
Qed.

(** The exponent of a positive normal double, from bounds of its value. *)
Lemma exponent_lower (x : double) (a : Z) :
  pos_normal x = true -> 2 ^ a <= value_of x ->
  (a - 52 <= exponent_of x)%Z.
Proof.
  intros H Ha. destruct (pos_normal_inv x H) as (m & e & -> & Hm & He & Hv).
  cbn [exponent_of]. rewrite Hv in Ha.
  assert (Hlt : inject_Z (Zpos m) * 2 ^ e < 2 ^ (53 + e)).
  { rewrite pow2Q_add.
    apply Qmult_lt_compat_r; [apply pow2Q_pos|].
    rewrite <- (pow2Q_inject 53) by lia. rewrite <- Zlt_Qlt. lia. }
  assert (Hlt2 : 2 ^ a < 2 ^ (53 + e)) by (eapply Qle_lt_trans; eauto).
  apply Qpower_lt_compat_l_inv in Hlt2; [lia|reflexivity].
Qed.

Lemma exponent_upper (x : double) (b : Z) :
  pos_normal x = true -> value_of x <= 2 ^ b ->
  (exponent_of x <= b - 52)%Z.
Proof.
  intros H Hb. destruct (pos_normal_inv x H) as (m & e & -> & Hm & He & Hv).
  cbn [exponent_of]. rewrite Hv in Hb.
  assert (Hle : 2 ^ (52 + e) <= inject_Z (Zpos m) * 2 ^ e).
  { rewrite pow2Q_add.
    apply Qmult_le_compat_r; [|apply Qlt_le_weak, pow2Q_pos].
    rewrite <- (pow2Q_inject 52) by lia. rewrite <- Zle_Qle. lia. }
  assert (Hle2 : 2 ^ (52 + e) <= 2 ^ b) by (eapply Qle_trans; eauto).
  apply Qpower_le_compat_l_inv in Hle2; [lia|reflexivity].
Qed.

(** The rounding of a normal result, in values. *)
Lemma BRA_value (m e : Z) (l : location) :
  (2 ^ 52 <= m)%Z -> (-1021 <= Zdigits2 m + e <= 1023)%Z ->
  pos_normal (BRA false m e l) = true /\
  (Zdigits2 m + e - 53 <= exponent_of (BRA false m e l)
   <= Zdigits2 m + e - 52)%Z /\
  inject_Z (m + 1) * 2 ^ e * (1 - eps) <= value_of (BRA false m e l) /\
  value_of (BRA false m e l) <= inject_Z m * 2 ^ e * (1 + eps).
Proof.
  intros Hm Hr.
  destruct (BRA_normal m e l Hm Hr)
    as (mb & eb & -> & Hmb & Heb & Hee & Hw & Hlo & Hup).
  split; [apply pos_normal_intro; assumption|].
  split; [exact Hw|].
  cbn [value_of].
  assert (Hv : 1 * inject_Z (Zpos mb) * 2 ^ eb
               == inject_Z (Zpos mb * 2 ^ (eb - e)) * 2 ^ e).
  { rewrite inject_Z_mult, pow2Q_inject by lia.
    replace eb with ((eb - e) + e)%Z at 1 by lia.
    rewrite pow2Q_add. ring. }
  rewrite Hv.
  pose proof (pow2Q_pos e) as Hp.
  apply rel_lower in Hlo. apply rel_upper in Hup.
  split.
  - setoid_replace (inject_Z (m + 1) * 2 ^ e * (1 - eps))
      with (inject_Z (m + 1) * (1 - eps) * 2 ^ e) by ring.
    apply Qmult_le_compat_r; [exact Hlo|apply Qlt_le_weak, Hp].
  - setoid_replace (inject_Z m * 2 ^ e * (1 + eps))
      with (inject_Z m * (1 + eps) * 2 ^ e) by ring.
    apply Qmult_le_compat_r; [exact Hup|apply Qlt_le_weak, Hp].
Qed.

End Values.

(** ** The operations of the fold on positive normal doubles *)

Section Operations.

Local Notation "'fexp64'" := (fexp Double.prec Double.emax).
Local Notation "'BRA'" := (binary_round_aux Double.prec Double.emax).

Local Open Scope Q_scope.

Lemma Zdigits2_between (m lo hi : Z) :
  (0 <= lo)%Z -> (0 <= hi)%Z -> (2 ^ lo <= m < 2 ^ hi)%Z ->
  (lo + 1 <= Zdigits2 m <= hi)%Z.
Proof.
  intros Hlo Hhi [H1 H2]. split.
  - apply Zdigits2_ge; assumption.
  - apply Zdigits2_le; [assumption|].
    pose proof (pow2_pos lo Hlo). lia.
Qed.

(** The double of a positive [int] stands for the integer. *)
Lemma of_int_value (n : Z) :
  (0 < n < 2 ^ 53)%Z ->
  pos_normal (Double.of_int n) = true /\
  value_of (Double.of_int n) == inject_Z n /\
  (-52 <= exponent_of (Double.of_int n) <= 0)%Z.
Proof.
  intros Hn. destruct n as [|n|n]; try lia.
  destruct (of_int_pos_form n ltac:(lia))
    as (mN & eN & -> & He & Hm & Hb & _).
  split; [apply pos_normal_intro; lia|]. split; [|exact He].
  cbn [value_of]. rewrite Hm, inject_Z_mult, pow2Q_inject by lia.
  setoid_replace (1 * (inject_Z (Zpos n) * 2 ^ (- eN)) * 2 ^ eN)
    with (inject_Z (Zpos n) * (2 ^ (- eN) * 2 ^ eN)) by ring.
  rewrite <- pow2Q_add. replace (- eN + eN)%Z with 0%Z by lia.
  change (2 ^ 0) with 1. ring.
Qed.

(** Division: the quotient times the divisor is the dividend, within one
    rounding. *)
Lemma div_value (x y : double) :
  pos_normal x = true -> pos_normal y = true ->
  (-1021 <= exponent_of x - exponent_of y <= 1022)%Z ->
  pos_normal (Double.div x y) = true /\
  (exponent_of x - exponent_of y - 53 <= exponent_of (Double.div x y)
   <= exponent_of x - exponent_of y - 51)%Z /\
  value_of x * (1 - eps) <= value_of (Double.div x y) * value_of y /\
  value_of (Double.div x y) * value_of y <= value_of x * (1 + eps).
Proof.
  intros Hx Hy.
  pose proof (value_pos y Hy) as Hypos.
  destruct (pos_normal_inv x Hx) as (mx & ex & -> & Hmx & Hex & Hvx).
  destruct (pos_normal_inv y Hy) as (my & ey & -> & Hmy & Hey & Hvy).
  cbn [exponent_of]. intros Hr.
  rewrite div_finite. cbv zeta. cbn [xorb].
  rewrite (digits2_unique mx 53), (digits2_unique my 53) by lia.
  rewrite fexp64_eq.
  replace (Z.min (Z.max (53 + ex - (53 + ey) - 53) (-1074)) (ex - ey))
    with (ex - ey - 53)%Z by lia.
  replace (ex - ey - (ex - ey - 53))%Z with 53%Z by lia.
  cbv iota. rewrite Z.shiftl_mul_pow2 by lia.
  set (q := (Zpos mx * 2 ^ 53 / Zpos my)%Z).
  set (e1 := (ex - ey - 53)%Z).
  assert (Hq1 : (q * Zpos my <= Zpos mx * 2 ^ 53)%Z).
  { unfold q. rewrite Z.mul_comm. apply Z.mul_div_le. lia. }
  assert (Hq2 : (Zpos mx * 2 ^ 53 < (q + 1) * Zpos my)%Z).
  { unfold q.
    pose proof (Z.mod_pos_bound (Zpos mx * 2 ^ 53) (Zpos my) ltac:(lia)).
    pose proof (Z.div_mod (Zpos mx * 2 ^ 53) (Zpos my) ltac:(lia)). lia. }
  assert (Hq : (2 ^ 52 <= q < 2 ^ 54)%Z).
  { split.
    - apply Z.div_le_lower_bound; lia.
    - apply Z.div_lt_upper_bound; lia. }
  pose proof (Zdigits2_between q 52 54 ltac:(lia) ltac:(lia) Hq) as Hd.
  destruct (BRA_value q e1
              (new_location (Zpos my) (Zpos mx * 2 ^ 53 mod Zpos my))
              ltac:(lia) ltac:(unfold e1; lia))
    as (Hn & He & Hlo & Hup).
  assert (Ee1 : e1 = (ex - ey - 53)%Z) by reflexivity.
  split; [exact Hn|]. split; [lia|].
  set (r := BRA false q e1 _) in *.
  set (P := 2 ^ (e1 + ey)).
  assert (HP : 0 < P) by apply pow2Q_pos.
  assert (Ex : value_of (S754_finite false mx ex)
               == inject_Z (Zpos mx * 2 ^ 53) * P).
  { rewrite Hvx, inject_Z_mult, pow2Q_inject by lia. unfold P.
    rewrite <- Qmult_assoc, <- pow2Q_add.
    replace (53 + (e1 + ey))%Z with ex by (unfold e1; lia). reflexivity. }
  assert (Ea : inject_Z q * 2 ^ e1 * value_of (S754_finite false my ey)
               == inject_Z (q * Zpos my) * P).
  { rewrite Hvy, inject_Z_mult. unfold P. rewrite pow2Q_add. ring. }
  assert (Eb : inject_Z (q + 1) * 2 ^ e1 * value_of (S754_finite false my ey)
               == inject_Z ((q + 1) * Zpos my) * P).
  { rewrite Hvy, inject_Z_mult. unfold P. rewrite pow2Q_add. ring. }
  assert (Ha : inject_Z q * 2 ^ e1 * value_of (S754_finite false my ey)
               <= value_of (S754_finite false mx ex)).
  { rewrite Ea, Ex. apply Qmult_le_compat_r; [|apply Qlt_le_weak, HP].
    rewrite <- Zle_Qle. exact Hq1. }
  assert (Hb : value_of (S754_finite false mx ex)
               <= inject_Z (q + 1) * 2 ^ e1
                  * value_of (S754_finite false my ey)).
  { rewrite Eb, Ex. apply Qmult_le_compat_r; [|apply Qlt_le_weak, HP].
    rewrite <- Zle_Qle. lia. }
  set (vx := value_of (S754_finite false mx ex)) in *.
  set (vy := value_of (S754_finite false my ey)) in *.
  set (A := inject_Z q * 2 ^ e1) in *.
  set (B := inject_Z (q + 1) * 2 ^ e1) in *.
  pose proof eps_bounds as [He0 He1].
  split.
  - apply Qle_trans with (B * vy * (1 - eps)).
    + apply Qmult_le_compat_r; [exact Hb|lra].
    + setoid_replace (B * vy * (1 - eps)) with (B * (1 - eps) * vy) by ring.
      apply Qmult_le_compat_r; [exact Hlo|lra].
  - apply Qle_trans with (A * (1 + eps) * vy).
    + apply Qmult_le_compat_r; [exact Hup|lra].
    + setoid_replace (A * (1 + eps) * vy) with (A * vy * (1 + eps)) by ring.
      apply Qmult_le_compat_r; [exact Ha|lra].
Qed.

(** Multiplication: the product, within one rounding. *)
Lemma mul_value (x y : double) :
  pos_normal x = true -> pos_normal y = true ->
  (-1126 <= exponent_of x + exponent_of y <= 917)%Z ->
  pos_normal (Double.mul x y) = true /\
  (exponent_of x + exponent_of y + 52 <= exponent_of (Double.mul x y)
   <= exponent_of x + exponent_of y + 54)%Z /\
  value_of x * value_of y * (1 - eps) <= value_of (Double.mul x y) /\
  value_of (Double.mul x y) <= value_of x * value_of y * (1 + eps).
Proof.
  intros Hx Hy.
  destruct (pos_normal_inv x Hx) as (mx & ex & -> & Hmx & Hex & Hvx).
  destruct (pos_normal_inv y Hy) as (my & ey & -> & Hmy & Hey & Hvy).
  cbn [exponent_of]. intros Hr.
  unfold Double.mul, SFmul. cbn [xorb]. rewrite Pos2Z.inj_mul.
  set (m := (Zpos mx * Zpos my)%Z).
  assert (Hm : (2 ^ 104 <= m < 2 ^ 106)%Z) by (unfold m; nia).
  pose proof (Zdigits2_between m 104 106 ltac:(lia) ltac:(lia) Hm) as Hd.
  destruct (BRA_value m (ex + ey) loc_Exact ltac:(lia) ltac:(lia))
    as (Hn & He & Hlo & Hup).
  split; [exact Hn|]. split; [lia|].
  assert (E : value_of (S754_finite false mx ex)
              * value_of (S754_finite false my ey)
              == inject_Z m * 2 ^ (ex + ey)).
  { rewrite Hvx, Hvy. unfold m. rewrite inject_Z_mult, pow2Q_add. ring. }
  rewrite E.
  pose proof eps_bounds as [He0 He1].
  split; [|exact Hup].
  eapply Qle_trans; [|exact Hlo].
  apply Qmult_le_compat_r; [|lra].
  apply Qmult_le_compat_r; [|apply Qlt_le_weak, pow2Q_pos].
  rewrite <- Zle_Qle. lia.
Qed.

Lemma mul_zero (x : double) :
  pos_normal x = true ->
  Double.mul x (Double.of_int 0) = S754_zero false.
Proof.
  destruct x as [s|s| |s m e]; try discriminate.
  destruct s; [discriminate|]. reflexivity.
Qed.

Lemma add_zero (x : double) :
  pos_normal x = true -> Double.add x (S754_zero false) = x.
Proof.
  destruct x as [s|s| |s m e]; try discriminate. reflexivity.
Qed.

Lemma shl_align_value (m : positive) (e e1 : Z) :
  (e1 <= e)%Z ->
  Zpos (fst (shl_align m e e1)) = (Zpos m * 2 ^ (e - e1))%Z.
Proof.
  intros H. unfold shl_align.
  destruct (e1 - e)%Z as [|d|d] eqn:E; cbn [fst].
  - replace (e - e1)%Z with 0%Z by lia. simpl. lia.
  - lia.
  - rewrite iter_xO_mul. f_equal. f_equal. lia.
Qed.

(** Addition: the sum, within one rounding. *)
Lemma add_value (x y : double) :
  pos_normal x = true -> pos_normal y = true ->
  (exponent_of x <= 969)%Z -> (exponent_of y <= 969)%Z ->
  pos_normal (Double.add x y) = true /\
  (value_of x + value_of y) * (1 - eps) <= value_of (Double.add x y) /\
  value_of (Double.add x y) <= (value_of x + value_of y) * (1 + eps).
Proof.
  intros Hx Hy.
  destruct (pos_normal_inv x Hx) as (mx & ex & -> & Hmx & Hex & Hvx).
  destruct (pos_normal_inv y Hy) as (my & ey & -> & Hmy & Hey & Hvy).
  cbn [exponent_of]. intros Hrx Hry.
  unfold Double.add, SFadd. cbn [cond_Zopp].
  set (ez := Z.min ex ey).
  rewrite (shl_align_value mx ex ez), (shl_align_value my ey ez)
    by (unfold ez; lia).
  set (a := (Zpos mx * 2 ^ (ex - ez))%Z).
  set (b := (Zpos my * 2 ^ (ey - ez))%Z).
  pose proof (pow2_pos (ex - ez) ltac:(unfold ez; lia)) as Hpa.
  pose proof (pow2_pos (ey - ez) ltac:(unfold ez; lia)) as Hpb.
  assert (Ha : (2 ^ 52 <= a)%Z) by (unfold a; nia).
  assert (Hb : (2 ^ 52 <= b)%Z) by (unfold b; nia).
  assert (Hau : (a < 2 ^ (1022 - ez))%Z).
  { unfold a. apply Z.lt_le_trans with (2 ^ 53 * 2 ^ (ex - ez))%Z; [nia|].
    rewrite <- Z.pow_add_r by (unfold ez; lia).
    apply Z.pow_le_mono_r; unfold ez; lia. }
  assert (Hbu : (b < 2 ^ (1022 - ez))%Z).
  { unfold b. apply Z.lt_le_trans with (2 ^ 53 * 2 ^ (ey - ez))%Z; [nia|].
    rewrite <- Z.pow_add_r by (unfold ez; lia).
    apply Z.pow_le_mono_r; unfold ez; lia. }
  assert (Hsu : (a + b < 2 ^ (1023 - ez))%Z).
  { replace (1023 - ez)%Z with (1022 - ez + 1)%Z by lia.
    rewrite Z.pow_add_r by (unfold ez; lia). lia. }
  destruct (a + b)%Z as [|s|s] eqn:Es; try lia.
  unfold binary_normalize, binary_round.
  assert (Hds : (53 <= Zpos (digits2_pos s) <= 1023 - ez)%Z).
  { change (Zpos (digits2_pos s)) with (Zdigits2 (Zpos s)). split.
    - pose proof (Zdigits2_ge (Zpos s) 52 ltac:(lia) ltac:(lia)). lia.
    - apply Zdigits2_le; [unfold ez; lia|lia]. }
  assert (Hsh : shl_align s ez (fexp64 (Zpos (digits2_pos s) + ez))
                = (s, ez)).
  { unfold shl_align. rewrite fexp64_eq.
    destruct (Z.max (Zpos (digits2_pos s) + ez - 53) (-1074) - ez)%Z
      eqn:E; try reflexivity. lia. }
  rewrite Hsh.
  destruct (BRA_value (Zpos s) ez loc_Exact ltac:(lia))
    as (Hn & He & Hlo & Hup).
  { cbn [Zdigits2]. unfold ez in *. lia. }
  split; [exact Hn|].
  assert (E : value_of (S754_finite false mx ex)
              + value_of (S754_finite false my ey)
              == inject_Z (Zpos s) * 2 ^ ez).
  { rewrite Hvx, Hvy, <- Es. unfold a, b.
    rewrite inject_Z_plus, !inject_Z_mult.
    rewrite !pow2Q_inject by (unfold ez; lia).
    setoid_replace ((inject_Z (Zpos mx) * 2 ^ (ex - ez)
                     + inject_Z (Zpos my) * 2 ^ (ey - ez)) * 2 ^ ez)
      with (inject_Z (Zpos mx) * (2 ^ (ex - ez) * 2 ^ ez)
            + inject_Z (Zpos my) * (2 ^ (ey - ez) * 2 ^ ez)) by ring.
    rewrite <- !pow2Q_add.
    replace (ex - ez + ez)%Z with ex by lia.
    replace (ey - ez + ez)%Z with ey by lia. reflexivity. }
  rewrite E.
  pose proof eps_bounds as [He0 He1].
  split; [|exact Hup].
  eapply Qle_trans; [|exact Hlo].
  apply Qmult_le_compat_r; [|lra].
  apply Qmult_le_compat_r; [|apply Qlt_le_weak, pow2Q_pos].
  rewrite <- Zle_Qle. lia.
Qed.

End Operations.

(** ** The fold on positive normal doubles *)

Section FoldValue.

Import Twap.

Local Open Scope Q_scope.

Local Notation "'up'" := (1 + eps).
Local Notation "'down'" := (1 - eps).

Lemma up_down : 0 < down /\ down <= 1 /\ 1 <= up.
Proof. unfold eps. repeat split; try discriminate. Qed.

Lemma Qmult_le_r_nonneg (a b c : Q) : 0 <= c -> a <= b -> a * c <= b * c.
Proof. intros Hc H. apply Qmult_le_compat_r; assumption. Qed.

Lemma Qmult_le_l_nonneg (a b c : Q) : 0 <= c -> a <= b -> c * a <= c * b.
Proof.
  intros Hc H. rewrite (Qmult_comm c a), (Qmult_comm c b).
  apply Qmult_le_compat_r; assumption.
Qed.

(** Two roundings in a row: a quotient by [n], then a product by [k]. *)
Lemma scale_two_up (t q n k va u : Q) :
  0 <= n -> 0 <= k -> 0 <= u ->
  q * n <= va * u -> t <= q * k * u -> t * n <= va * k * (u * u).
Proof.
  intros Hn Hk Hu H1 H2.
  apply Qle_trans with (q * k * u * n).
  - apply Qmult_le_r_nonneg; assumption.
  - setoid_replace (q * k * u * n) with (q * n * (k * u)) by ring.
    setoid_replace (va * k * (u * u)) with (va * u * (k * u)) by ring.
    apply Qmult_le_r_nonneg; [|assumption].
    apply Qmult_le_0_compat; assumption.
Qed.

Lemma scale_two_down (t q n k va d : Q) :
  0 <= n -> 0 <= k -> 0 <= d ->
  va * d <= q * n -> q * k * d <= t -> va * k * (d * d) <= t * n.
Proof.
  intros Hn Hk Hd H1 H2.
  apply Qle_trans with (q * k * d * n).
  - setoid_replace (q * k * d * n) with (q * n * (k * d)) by ring.
    setoid_replace (va * k * (d * d)) with (va * d * (k * d)) by ring.
    apply Qmult_le_r_nonneg; [|assumption].
    apply Qmult_le_0_compat; assumption.
  - apply Qmult_le_r_nonneg; assumption.
Qed.

Lemma inject_Z_nonneg (z : Z) : (0 <= z)%Z -> 0 <= inject_Z z.
Proof. intros H. change 0 with (inject_Z 0). rewrite <- Zle_Qle. exact H. Qed.

Lemma inject_Z_pos (z : Z) : (0 < z)%Z -> 0 < inject_Z z.
Proof. intros H. change 0 with (inject_Z 0). rewrite <- Zlt_Qlt. exact H. Qed.

(** One term of the fold: [x / N * K], for [1 <= K <= N]. *)
Lemma term_value (x : double) (N K : Z) :
  pos_normal x = true ->
  (-1021 <= exponent_of x <= 914)%Z ->
  (0 < K)%Z -> (K <= N)%Z -> (N <= Int.max_int)%Z ->
  let r := Double.mul (Double.div x (Double.of_int N)) (Double.of_int K) in
  pos_normal r = true /\ (exponent_of r <= 969)%Z /\
  value_of x * inject_Z K * (down * down) <= value_of r * inject_Z N /\
  value_of r * inject_Z N <= value_of x * inject_Z K * (up * up).
Proof.
  intros Hx Hex HK HKN HN. unfold Int.max_int in HN. cbv zeta.
  destruct (of_int_value N ltac:(lia)) as (HNn & HNv & HNe).
  destruct (of_int_value K ltac:(lia)) as (HKn & HKv & HKe).
  destruct (div_value x (Double.of_int N) Hx HNn ltac:(lia))
    as (Hqn & Hqe & Hql & Hqu).
  destruct (mul_value (Double.div x (Double.of_int N)) (Double.of_int K)
              Hqn HKn ltac:(lia))
    as (Htn & Hte & Htl & Htu).
  split; [exact Htn|]. split; [lia|].
  rewrite HNv in Hql, Hqu. rewrite HKv in Htl, Htu.
  pose proof up_down as (Hd0 & Hd1 & Hu1).
  pose proof (inject_Z_nonneg N ltac:(lia)) as HN0.
  pose proof (inject_Z_nonneg K ltac:(lia)) as HK0.
  split.
  - apply (scale_two_down _ (value_of (Double.div x (Double.of_int N))));
      auto; try (apply Qlt_le_weak, Hd0).
  - apply (scale_two_up _ (value_of (Double.div x (Double.of_int N))));
      auto; try lra.
Qed.

Lemma cube_up_ge (v : Q) : 0 <= v -> v * (up * up) <= v * (up * up * up).
Proof.
  intros Hv. pose proof up_down as (Hd0 & Hd1 & Hu1).
  apply Qmult_le_l_nonneg; [exact Hv|].
  setoid_replace (up * up) with (up * up * 1) at 1 by ring.
  apply Qmult_le_l_nonneg; [|exact Hu1].
  apply Qmult_le_0_compat; lra.
Qed.

Lemma cube_down_le (v : Q) :
  0 <= v -> v * (down * down * down) <= v * (down * down).
Proof.
  intros Hv. pose proof up_down as (Hd0 & Hd1 & Hu1).
  apply Qmult_le_l_nonneg; [exact Hv|].
  setoid_replace (down * down) with (down * down * 1) at 2 by ring.
  apply Qmult_le_l_nonneg; [|exact Hd1].
  apply Qmult_le_0_compat; lra.
Qed.

(** The fold of [next_price] on a positive normal average and price: a
    positive normal double, and the weighted sum within three
    roundings. *)
Lemma fold_value (a p : double) (T D : Z) :
  pos_normal a = true -> pos_normal p = true ->
  (-1021 <= exponent_of a <= 914)%Z -> (-1021 <= exponent_of p <= 914)%Z ->
  (0 < T)%Z -> (0 <= D)%Z -> (T + D <= Int.max_int)%Z ->
  let r :=
    Double.add
      (Double.mul (Double.div a (Double.of_int (T + D))) (Double.of_int T))
      (Double.mul (Double.div p (Double.of_int (T + D))) (Double.of_int D))
  in
  pos_normal r = true /\
  (value_of a * inject_Z T + value_of p * inject_Z D) * (down * down * down)
  <= value_of r * inject_Z (T + D) /\
  value_of r * inject_Z (T + D)
  <= (value_of a * inject_Z T + value_of p * inject_Z D) * (up * up * up).
Proof.
  intros Ha Hp Hea Hep HT HD HN. cbv zeta.
  pose proof up_down as (Hd0 & Hd1 & Hu1).
  pose proof (value_pos a Ha) as Hva. pose proof (value_pos p Hp) as Hvp.
  pose proof (inject_Z_pos T HT) as HT0.
  pose proof (inject_Z_nonneg D HD) as HD0.
  pose proof (inject_Z_pos (T + D) ltac:(lia)) as HN0.
  destruct (term_value a (T + D) T Ha Hea HT ltac:(lia) HN)
    as (H1n & H1e & H1l & H1u).
  set (t1 := Double.mul (Double.div a (Double.of_int (T + D)))
               (Double.of_int T)) in *.
  assert (HaT : 0 <= value_of a * inject_Z T)
    by (apply Qmult_le_0_compat; lra).
  destruct (Z.eq_dec D 0) as [->|HDn].
  - (* an interval of length zero *)
    assert (Hq : pos_normal (Double.div p (Double.of_int (T + 0))) = true).
    { destruct (of_int_value (T + 0) ltac:(unfold Int.max_int in HN; lia))
        as (HNn & HNv & HNe).
      apply (div_value p _ Hp HNn). lia. }
    rewrite (mul_zero _ Hq), (add_zero _ H1n).
    split; [exact H1n|].
    change (inject_Z 0) with 0.
    setoid_replace (value_of a * inject_Z T + value_of p * 0)
      with (value_of a * inject_Z T) by ring.
    split.
    + eapply Qle_trans; [apply cube_down_le; exact HaT|exact H1l].
    + eapply Qle_trans; [exact H1u|apply cube_up_ge; exact HaT].
  - destruct (term_value p (T + D) D Hp Hep ltac:(lia) ltac:(lia) HN)
      as (H2n & H2e & H2l & H2u).
    set (t2 := Double.mul (Double.div p (Double.of_int (T + D)))
                 (Double.of_int D)) in *.
    destruct (add_value t1 t2 H1n H2n H1e H2e) as (Hrn & Hrl & Hru).
    split; [exact Hrn|].
    set (N := inject_Z (T + D)) in *.
    split.
    + apply Qle_trans with ((value_of t1 + value_of t2) * down * N).
      * setoid_replace ((value_of a * inject_Z T + value_of p * inject_Z D)
                        * (down * down * down))
          with ((value_of a * inject_Z T * (down * down)
                 + value_of p * inject_Z D * (down * down)) * down) by ring.
        setoid_replace ((value_of t1 + value_of t2) * down * N)
          with ((value_of t1 * N + value_of t2 * N) * down) by ring.
        apply Qmult_le_r_nonneg; [lra|].
        apply Qplus_le_compat; assumption.
      * apply Qmult_le_r_nonneg; [lra|exact Hrl].
    + apply Qle_trans with ((value_of t1 + value_of t2) * up * N).
      * apply Qmult_le_r_nonneg; [lra|exact Hru].
      * setoid_replace ((value_of a * inject_Z T + value_of p * inject_Z D)
                        * (up * up * up))
          with ((value_of a * inject_Z T * (up * up)
                 + value_of p * inject_Z D * (up * up)) * up) by ring.
        setoid_replace ((value_of t1 + value_of t2) * up * N)
          with ((value_of t1 * N + value_of t2 * N) * up) by ring.
        apply Qmult_le_r_nonneg; [lra|].
        apply Qplus_le_compat; assumption.
Qed.

(** What [k] folds can add and take. *)
Lemma grow_0 : grow 0 == 1.
Proof. reflexivity. Qed.

Lemma shrink_0 : shrink 0 == 1.
Proof. reflexivity. Qed.

Lemma grow_S (k : nat) : grow (S k) == grow k * (up * up * up).
Proof.
  unfold grow. rewrite Nat2Z.inj_succ.
  replace (3 * Z.succ (Z.of_nat k))%Z with (3 * Z.of_nat k + 3)%Z by lia.
  rewrite Qpower_plus by (unfold eps; discriminate).
  apply Qmult_comp; [reflexivity|]. simpl. ring.
Qed.

Lemma shrink_S (k : nat) : shrink (S k) == shrink k * (down * down * down).
Proof.
  unfold shrink. rewrite Nat2Z.inj_succ.
  replace (3 * Z.succ (Z.of_nat k))%Z with (3 * Z.of_nat k + 3)%Z by lia.
  rewrite Qpower_plus by (unfold eps; discriminate).
  apply Qmult_comp; [reflexivity|]. simpl. ring.
Qed.

Lemma grow_ge_1 (k : nat) : 1 <= grow k.
Proof.
  unfold grow. apply Qpower_1_le; [|lia].
  unfold eps. discriminate.
Qed.

Lemma shrink_pos (k : nat) : 0 < shrink k.
Proof. unfold shrink. apply Qpower_0_lt. reflexivity. Qed.

Lemma shrink_le_1 (k : nat) : shrink k <= 1.
Proof.
  induction k as [|k IH]; [rewrite shrink_0; lra|].
  rewrite shrink_S. pose proof up_down as (Hd0 & Hd1 & _).
  pose proof (shrink_pos k) as Hs.
  apply Qle_trans with (shrink k * 1); [|lra].
  apply Qmult_le_l_nonneg; [lra|].
  apply Qle_trans with (1 * 1 * down); [|lra].
  apply Qmult_le_r_nonneg; [lra|].
  apply Qle_trans with (1 * down); [|lra].
  apply Qmult_le_r_nonneg; lra.
Qed.

Lemma cube_up_ge_1 : 1 <= up * up * up.
Proof.
  pose proof (grow_ge_1 1) as H. rewrite grow_S, grow_0 in H. lra.
Qed.

Lemma cube_down_le_1 : 0 < down * down * down /\ down * down * down <= 1.
Proof.
  pose proof (shrink_le_1 1) as H. pose proof (shrink_pos 1) as H0.
  rewrite shrink_S, shrink_0 in H, H0. lra.
Qed.

Lemma grow_mono (k n : nat) : (k <= n)%nat -> grow k <= grow n.
Proof.
  induction 1 as [|n Hle IH]; [lra|].
  rewrite grow_S. pose proof cube_up_ge_1. pose proof (grow_ge_1 n).
  apply Qle_trans with (grow n * 1); [lra|].
  apply Qmult_le_l_nonneg; lra.
Qed.

Lemma shrink_mono (k n : nat) : (k <= n)%nat -> shrink n <= shrink k.
Proof.
  induction 1 as [|n Hle IH]; [lra|].
  rewrite shrink_S. pose proof cube_down_le_1 as [H0 H1].
  pose proof (shrink_pos n).
  apply Qle_trans with (shrink n * 1); [|lra].
  apply Qmult_le_l_nonneg; lra.
Qed.

Lemma in_range_mono (lo hi : Q) (k n : nat) :
  0 < lo -> lo <= hi -> (k <= n)%nat ->
  in_range lo hi n -> in_range lo hi k.
Proof.
  intros Hlo Hhi Hk [H1 H2]. split.
  - eapply Qle_trans; [exact H1|].
    apply Qmult_le_l_nonneg; [lra|apply shrink_mono; exact Hk].
  - eapply Qle_trans; [|exact H2].
    apply Qmult_le_l_nonneg; [lra|apply grow_mono; exact Hk].
Qed.

End FoldValue.

(** ** The average and the weighted mean, in doubles *)

Section MeanInvariant.

Import Twap.

Local Open Scope Q_scope.

Local Notation "'up'" := (1 + eps).
Local Notation "'down'" := (1 - eps).

(** The arithmetic of one fold on the bounds of the invariant: [g] and
    [s] are what the folds before could add and take, [u3] and [d3] what
    this fold can. *)
Lemma fold_bounds (lo hi S va vp vr T D g s u3 d3 : Q) :
  0 < lo -> lo <= hi -> 0 < T -> 0 <= D ->
  1 <= g -> 0 < s -> s <= 1 -> 1 <= u3 -> 0 < d3 -> d3 <= 1 ->
  lo * s <= va <= hi * g -> lo <= vp <= hi ->
  S * s <= va * T <= S * g -> lo * T <= S <= hi * T ->
  (va * T + vp * D) * d3 <= vr * (T + D) <= (va * T + vp * D) * u3 ->
  (lo * (s * d3) <= vr <= hi * (g * u3)) /\
  ((S + vp * D) * (s * d3) <= vr * (T + D)
   <= (S + vp * D) * (g * u3)) /\
  (lo * (T + D) <= S + vp * D <= hi * (T + D)).
Proof.
  intros Hlo Hhi HT HD Hg Hs0 Hs1 Hu Hd0 Hd1 [Hal Hau] [Hpl Hpu]
    [Hml Hmu] [Hsl Hsu] [Hrl Hru].
  assert (HpD : 0 <= vp * D) by (apply Qmult_le_0_compat; lra).
  assert (HS : 0 <= S).
  { apply Qle_trans with (lo * T); [|exact Hsl].
    apply Qmult_le_0_compat; lra. }
  assert (HN : 0 < T + D) by lra.
  assert (E1 : lo * D <= vp * D) by (apply Qmult_le_r_nonneg; lra).
  assert (E2 : vp * D <= hi * D) by (apply Qmult_le_r_nonneg; lra).
  assert (E3 : vp * D * s <= vp * D).
  { setoid_replace (vp * D) with (vp * D * 1) at 2 by ring.
    apply Qmult_le_l_nonneg; lra. }
  assert (E4 : vp * D <= vp * D * g).
  { setoid_replace (vp * D) with (vp * D * 1) at 1 by ring.
    apply Qmult_le_l_nonneg; lra. }
  assert (M1 : (S + vp * D) * s * d3 <= (va * T + vp * D) * d3).
  { apply Qmult_le_r_nonneg; lra. }
  assert (M2 : (va * T + vp * D) * u3 <= (S + vp * D) * g * u3).
  { apply Qmult_le_r_nonneg; lra. }
  assert (B0 : lo * s * D <= vp * D).
  { apply Qmult_le_r_nonneg; [lra|]. apply Qle_trans with lo; [|lra].
    setoid_replace lo with (lo * 1) at 2 by ring.
    apply Qmult_le_l_nonneg; lra. }
  assert (B0' : vp * D <= hi * g * D).
  { apply Qmult_le_r_nonneg; [lra|]. apply Qle_trans with hi; [lra|].
    setoid_replace hi with (hi * 1) at 1 by ring.
    apply Qmult_le_l_nonneg; lra. }
  assert (B1 : lo * s * (T + D) * d3 <= (va * T + vp * D) * d3).
  { apply Qmult_le_r_nonneg; [lra|].
    assert (lo * s * T <= va * T) by (apply Qmult_le_r_nonneg; lra).
    lra. }
  assert (B2 : (va * T + vp * D) * u3 <= hi * g * (T + D) * u3).
  { apply Qmult_le_r_nonneg; [lra|].
    assert (va * T <= hi * g * T) by (apply Qmult_le_r_nonneg; lra).
    lra. }
  split; [|split].
  - split.
    + apply (Qmult_le_r _ _ (T + D) HN).
      setoid_replace (lo * (s * d3) * (T + D))
        with (lo * s * (T + D) * d3) by ring. lra.
    + apply (Qmult_le_r _ _ (T + D) HN).
      setoid_replace (hi * (g * u3) * (T + D))
        with (hi * g * (T + D) * u3) by ring. lra.
  - split.
    + setoid_replace ((S + vp * D) * (s * d3))
        with ((S + vp * D) * s * d3) by ring. lra.
    + setoid_replace ((S + vp * D) * (g * u3))
        with ((S + vp * D) * g * u3) by ring. lra.
  - split; lra.
Qed.

Variables lo hi : Q.
Hypothesis Hlo : 0 < lo.
Hypothesis Hhi : lo <= hi.

Lemma window_of_bounds (x : double) (k : nat) :
  pos_normal x = true ->
  lo * shrink k <= value_of x <= hi * grow k ->
  in_range lo hi k ->
  (-1021 <= exponent_of x <= 914)%Z.
Proof.
  intros Hx [Hl Hu] [Hr1 Hr2].
  pose proof (exponent_lower x (-960) Hx ltac:(lra)).
  pose proof (exponent_upper x 960 Hx ltac:(lra)). lia.
Qed.

Lemma lo_shrink (k : nat) : lo * shrink k <= lo.
Proof.
  pose proof (shrink_le_1 k). pose proof (shrink_pos k).
  setoid_replace lo with (lo * 1) at 2 by ring.
  apply Qmult_le_l_nonneg; lra.
Qed.

Lemma hi_grow (k : nat) : hi <= hi * grow k.
Proof.
  pose proof (grow_ge_1 k).
  setoid_replace hi with (hi * 1) at 1 by ring.
  apply Qmult_le_l_nonneg; lra.
Qed.

Lemma fine_price_window (p : double) (k : nat) :
  fine_price lo hi p -> Double.isnan p = false -> in_range lo hi k ->
  pos_normal p = true /\ lo <= value_of p <= hi /\
  (-1021 <= exponent_of p <= 914)%Z.
Proof.
  intros [Hn|[Hp Hv]] En Hr; [congruence|].
  split; [exact Hp|]. split; [exact Hv|].
  apply (window_of_bounds p k Hp); [|exact Hr].
  pose proof (lo_shrink k). pose proof (hi_grow k). lra.
Qed.

Lemma pos_normal_not_nan (x : double) :
  pos_normal x = true -> Double.isnan x = false.
Proof. destruct x; try discriminate. reflexivity. Qed.

(** One call keeps the invariant, with one fold more. *)
Lemma mean_inv_step (k : nat) (S : Q) (t : TWAP double) (time : int)
  (price : double) :
  mean_inv lo hi k S t -> fine_price lo hi price ->
  (last_time_ t <= time <= Int.max_int)%Z ->
  in_range lo hi (Datatypes.S k) ->
  mean_inv lo hi (Datatypes.S k)
    (S + (if Double.isnan (last_price_ t) then 0
          else value_of (last_price_ t) * inject_Z (time - last_time_ t)))
    (next_price time price t).
Proof.
  intros (Ht & Hl & Ha & Hm & Hs) Hp Hr Hrange.
  destruct (next_price_time_inv (A := binary64) t time price Ht Hr)
    as [Ht' Hlast].
  pose proof (in_range_mono lo hi k (Datatypes.S k) Hlo Hhi
                ltac:(lia) Hrange) as Hrk.
  pose proof (grow_ge_1 k) as Hg. pose proof (shrink_pos k) as Hs0.
  pose proof (shrink_le_1 k) as Hs1.
  pose proof cube_up_ge_1 as Hu3. pose proof cube_down_le_1 as [Hd0 Hd1].
  pose proof (grow_S k) as EG. pose proof (shrink_S k) as ES.
  pose proof (lo_shrink (Datatypes.S k)) as Hls.
  pose proof (hi_grow (Datatypes.S k)) as Hhg.
  destruct Ht as [[H0 H1] H2].
  pose proof (inject_Z_nonneg (total_time_ t) H0) as HT0.
  split; [exact Ht'|].
  split; [rewrite (next_price_last_price (A := binary64)); exact Hp|].
  destruct (Double.isnan (last_price_ t)) eqn:En.
  - (* after a sample without a price *)
    rewrite (next_price_gap (A := binary64)) by exact En.
    cbn [avg_price_ total_time_].
    assert (HS : 0 <= S).
    { apply Qle_trans with (lo * inject_Z (total_time_ t)); [|apply Hs].
      apply Qmult_le_0_compat; lra. }
    assert (G1 : S * grow k <= S * grow (Datatypes.S k)).
    { apply Qmult_le_l_nonneg; [exact HS|].
      apply grow_mono. lia. }
    assert (G2 : S * shrink (Datatypes.S k) <= S * shrink k).
    { apply Qmult_le_l_nonneg; [exact HS|].
      apply shrink_mono. lia. }
    assert (G3 : hi * grow k <= hi * grow (Datatypes.S k)).
    { apply Qmult_le_l_nonneg; [lra|]. apply grow_mono. lia. }
    assert (G4 : lo * shrink (Datatypes.S k) <= lo * shrink k).
    { apply Qmult_le_l_nonneg; [lra|]. apply shrink_mono. lia. }
    split; [|split].
    + destruct Ha as [Ha|[Ha Hb]]; [left; exact Ha|right].
      split; [exact Ha|]. lra.
    + intros Hpos. destruct (Hm Hpos) as [Hn Hb].
      split; [exact Hn|]. lra.
    + lra.
  - destruct (fine_price_window _ k Hl En Hrk) as (Hpn & Hpv & Hpw).
    set (D := (time - last_time_ t)%Z) in *.
    assert (HD : (0 <= D)%Z) by (unfold D; lia).
    pose proof (inject_Z_nonneg D HD) as HD0.
    destruct (Z.ltb_spec 0 (total_time_ t)) as [Hpos|Hz].
    + (* a fold *)
      rewrite (next_price_fold (A := binary64)) by auto.
      cbn [avg_price_ total_time_].
      rewrite sub_small, add_small by lia. fold D.
      rewrite (to_of_int_law (A := binary64))
        by (unfold Int.in_range, Int.min_int; unfold Int.max_int in *;
            unfold D; lia).
      destruct (Hm Hpos) as [Hn Hmb].
      destruct Ha as [Ha|[Ha Hab]]; [congruence|].
      pose proof (window_of_bounds _ k Ha Hab Hrk) as Haw.
      destruct (fold_value (avg_price_ t) (last_price_ t)
                  (total_time_ t) D Ha Hpn Haw Hpw Hpos HD
                  ltac:(unfold D; lia))
        as (Hrn & Hrl & Hru).
      set (r := Double.add _ _) in *.
      rewrite inject_Z_plus in Hrl, Hru.
      destruct (fold_bounds lo hi S (value_of (avg_price_ t))
                  (value_of (last_price_ t)) (value_of r)
                  (inject_Z (total_time_ t)) (inject_Z D)
                  (grow k) (shrink k) (up * up * up) (down * down * down))
        as (B1 & B2 & B3); auto.
      { apply inject_Z_pos. exact Hpos. }
      rewrite inject_Z_plus.
      split; [|split].
      * right. split; [exact Hrn|]. rewrite EG, ES. exact B1.
      * intros _. split; [apply pos_normal_not_nan; exact Hrn|].
        rewrite EG, ES. exact B2.
      * exact B3.
    + (* the first interval *)
      rewrite (next_price_first (A := binary64)) by auto.
      cbn [avg_price_ total_time_]. rewrite sub_small by lia. fold D.
      assert (HT : total_time_ t = 0%Z) by lia.
      rewrite HT in Hs. change (inject_Z 0) with 0 in Hs.
      assert (HS : S == 0) by lra.
      assert (E1 : lo * inject_Z D <= value_of (last_price_ t) * inject_Z D)
        by (apply Qmult_le_r_nonneg; lra).
      assert (E2 : value_of (last_price_ t) * inject_Z D <= hi * inject_Z D)
        by (apply Qmult_le_r_nonneg; lra).
      assert (HpD : 0 <= value_of (last_price_ t) * inject_Z D)
        by (apply Qmult_le_0_compat; lra).
      split; [|split].
      * right. split; [exact Hpn|]. lra.
      * intros _. split; [exact En|]. rewrite HS.
        pose proof (shrink_le_1 (Datatypes.S k)).
        pose proof (shrink_pos (Datatypes.S k)).
        pose proof (grow_ge_1 (Datatypes.S k)).
        split.
        -- setoid_replace (value_of (last_price_ t) * inject_Z D)
             with (value_of (last_price_ t) * inject_Z D * 1) at 2 by ring.
           rewrite Qplus_0_l. apply Qmult_le_l_nonneg; lra.
        -- setoid_replace (value_of (last_price_ t) * inject_Z D)
             with (value_of (last_price_ t) * inject_Z D * 1) at 1 by ring.
           rewrite Qplus_0_l. apply Qmult_le_l_nonneg; lra.
      * rewrite HS. lra.
Qed.

Lemma new_mean_inv : mean_inv lo hi 0 0 new.
Proof.
  split; [apply new_time_inv|]. split; [left; reflexivity|].
  split; [left; reflexivity|]. split.
  - cbn. intros H. lia.
  - change (total_time_ (new (P := double))) with 0%Z.
    change (inject_Z 0) with 0. lra.
Qed.

(** The calls of a run keep the invariant. *)
Lemma feed_mean_inv (l : list (int * double)) : forall k S t,
  mean_inv lo hi k S t ->
  Forall (fun x => fine_price lo hi (snd x)) l ->
  times_from (last_time_ t) l ->
  in_range lo hi (k + length l) ->
  mean_inv lo hi (k + length l)
    (S + priced_value (last_time_ t) (last_price_ t) l) (feed l t).
Proof.
  induction l as [|[time price] l IH]; intros k S t Hinv Hp Hl Hr.
  - cbn [length feed priced_value]. rewrite Nat.add_0_r in *.
    destruct Hinv as (Ht & Hlp & Ha & Hm & Hs).
    split; [exact Ht|]. split; [exact Hlp|]. split; [exact Ha|].
    split.
    + intros Hpos. destruct (Hm Hpos) as [Hn Hb]. split; [exact Hn|].
      rewrite Qplus_0_r. exact Hb.
    + rewrite Qplus_0_r. exact Hs.
  - inversion Hp as [|? ? Hp1 Hp2]; subst. destruct Hl as [Ht1 Hl].
    cbn [snd] in Hp1. cbn [length] in Hr.
    pose proof (mean_inv_step k S t time price Hinv Hp1 Ht1
                  (in_range_mono lo hi (Datatypes.S k)
                     (k + Datatypes.S (length l)) Hlo Hhi ltac:(lia) Hr))
      as Hstep.
    destruct Hinv as (Ht & _).
    destruct (next_price_time_inv (A := binary64) t time price Ht Ht1)
      as [_ Hlast].
    specialize (IH (Datatypes.S k) _ _ Hstep Hp2).
    rewrite Hlast, (next_price_last_price (A := binary64)) in IH.
    specialize (IH Hl).
    replace (Datatypes.S k + length l)%nat
      with (k + Datatypes.S (length l))%nat in IH by lia.
    specialize (IH Hr).
    cbn [feed priced_value length].
    destruct IH as (I1 & I2 & I3 & I4 & I5).
    split; [exact I1|]. split; [exact I2|]. split; [exact I3|].
    split.
    + intros Hpos. destruct (I4 Hpos) as [Hn Hb]. split; [exact Hn|].
      rewrite Qplus_assoc. exact Hb.
    + rewrite Qplus_assoc. exact I5.
Qed.

End MeanInvariant.

(** ** The averages of a run from a fresh accumulator, in doubles *)

Section RunValues.

Import Twap.

Local Open Scope Q_scope.

Lemma in_range_lo_pos (lo hi : Q) (n : nat) : in_range lo hi n -> 0 < lo.
Proof.
  intros [H _]. pose proof (shrink_pos n) as Hs.
  pose proof (pow2Q_pos (-960)) as Hp.
  destruct (Qlt_le_dec 0 lo) as [Hl|Hl]; [exact Hl|exfalso].
  assert (lo * shrink n <= 0 * shrink n)
    by (apply Qmult_le_r_nonneg; lra).
  lra.
Qed.

(** The accumulator after a run on prices between [lo] and [hi]: the
    average, when there is one, is a positive normal double between the
    bounds, and the average times [total_time_] is the sum of price times
    duration, each within the roundings of as many folds as there were
    calls. *)
Lemma feed_new_bounds (l : list (int * double)) (lo hi : Q) :
  times_from 0 l -> lo <= hi ->
  Forall (fun x => fine_price lo hi (snd x)) l ->
  in_range lo hi (length l) ->
  (Double.isnan (avg_price_ (feed l new)) = true \/
   (pos_normal (avg_price_ (feed l new)) = true /\
    lo * shrink (length l) <= value_of (avg_price_ (feed l new))
    <= hi * grow (length l))) /\
  ((0 < total_time_ (feed l new))%Z ->
   Double.isnan (avg_price_ (feed l new)) = false /\
   priced_value 0 NO_PRICE l * shrink (length l)
   <= value_of (avg_price_ (feed l new))
      * inject_Z (total_time_ (feed l new))
   <= priced_value 0 NO_PRICE l * grow (length l)).
Proof.
  intros Hl Hhi Hp Hr.
  pose proof (in_range_lo_pos lo hi _ Hr) as Hlo.
  destruct (feed_mean_inv lo hi Hlo Hhi l 0 0 new
              (new_mean_inv lo hi) Hp Hl Hr)
    as (_ & _ & Ha & Hm & _).
  cbn [Nat.add] in Ha, Hm.
  split; [exact Ha|].
  intros Hpos. destruct (Hm Hpos) as [Hn Hb]. split; [exact Hn|].
  change (last_time_ (new (P := double))) with 0%Z in Hb.
  change (last_price_ (new (P := double))) with NO_PRICE in Hb.
  rewrite !Qplus_0_l in Hb. exact Hb.
Qed.





End RunValues.

(** ** Constant prices and bounds *)

Section TwapBounds.

Import Twap.

Lemma averages_length {P : Type} {A : Arith P} (l : list (int * P)) :
  forall t, length (averages l t) = length l.
Proof.
  induction l as [|[time price] l IH]; intros t; cbn; auto.
Qed.

(** Outside the range of [in_range] the fold overflows: the largest
    double, [(2^53 - 1) * 2^971], at the times 0, 1 and 3, gives an
    infinite average. *)
Lemma constant_overflow :
  nth 2 (averages (constant (S754_finite false 9007199254740991 971)
                     [0; 1; 3]) new) NO_PRICE
  = S754_infinity false.
Proof. vm_compute. reflexivity. Qed.







End TwapBounds.

(** ** More of [std::map]: an entry inserted and erased, and the last entry *)

Section MapRoundTrip.

Context {K V : Type}.
Variable ltb : K -> K -> bool.
Variable good : K -> Prop.
Context {SW : StdMap.StrictWeak ltb good}.

Implicit Types (m r : StdMap.t (K := K) (V := V)) (k a b c x y z : K).
Implicit Types (v : V) (e : K * V) (f : V -> V).

Local Notation "'map_wf'" := (StdMap.wf (V := V) ltb good).

Lemma erase_insert k v m :
  StdMap.find ltb k m = None ->
  StdMap.erase ltb k (fst (StdMap.insert ltb k v m)) = m.
Proof.
  induction m as [|[k' v'] r IH]; intros Hf; simpl in *.
  - rewrite (ltb_irrefl ltb good). reflexivity.
  - destruct (ltb k' k) eqn:E1.
    + specialize (IH Hf). destruct (StdMap.insert ltb k v r) as [r' i].
      simpl in *. rewrite E1, IH. reflexivity.
    + destruct (ltb k k') eqn:E2; [|discriminate].
      simpl. rewrite (ltb_irrefl ltb good). reflexivity.
Qed.

Lemma erase_update k f m :
  StdMap.erase ltb k (StdMap.update ltb k f m) = StdMap.erase ltb k m.
Proof.
  induction m as [|[k' v'] r IH]; simpl; [reflexivity|].
  destruct (ltb k' k) eqn:E1; simpl.
  - rewrite E1, IH. reflexivity.
  - destruct (ltb k k') eqn:E2; simpl; rewrite E1, E2; reflexivity.
Qed.

Lemma update_restore k f m e :
  StdMap.find ltb k m = Some e ->
  StdMap.update ltb k (fun _ => snd e) (StdMap.update ltb k f m) = m.
Proof.
  induction m as [|[k' v'] r IH]; simpl; [discriminate|].
  destruct (ltb k' k) eqn:E1; simpl.
  - intros Hf. rewrite E1, (IH Hf). reflexivity.
  - destruct (ltb k k') eqn:E2; [discriminate|].
    intros Hf. inversion Hf; subst e. simpl. rewrite E1, E2. reflexivity.
Qed.

Lemma insert_in k v m e :
  In e (fst (StdMap.insert ltb k v m)) -> e = (k, v) \/ In e m.
Proof.
  destruct (snd (StdMap.insert ltb k v m)) eqn:Ei.
  - intros Hin. apply insert_perm in Ei.
    apply (Permutation_in _ Ei) in Hin. destruct Hin; auto.
  - rewrite (insert_present ltb) by exact Ei. auto.
Qed.

(** The entry that no entry exceeds is the last one. *)
Lemma rbegin_unique m e :
  map_wf m -> In e m ->
  (forall e', In e' m -> ltb (fst e) (fst e') = false) ->
  StdMap.rbegin m = Some e.
Proof.
  intros Hw Hin Hmax.
  destruct (StdMap.rbegin m) as [e0|] eqn:Er.
  2:{ apply rbegin_none in Er. subst m. contradiction. }
  destruct (rbegin_max ltb good _ _ Hw Er) as [Hin0 Hmax0].
  pose proof (Hmax _ Hin0) as H1. pose proof (Hmax0 _ Hin) as H2.
  assert (Hg : forall e1, In e1 m -> good (fst e1)).
  { intros e1 H. destruct Hw as [_ Hgood].
    rewrite Forall_forall in Hgood. apply Hgood.
    unfold StdMap.keys. apply in_map. exact H. }
  destruct e as [k v], e0 as [k0 v0]. cbn [fst] in *.
  pose proof (find_in ltb good _ _ _ Hw Hin) as F1.
  pose proof (find_in ltb good _ _ _ Hw Hin0) as F2.
  rewrite (find_equiv ltb good k k0) in F1.
  - congruence.
  - apply (Hg (k, v)); exact Hin.
  - apply (Hg (k0, v0)); exact Hin0.
  - apply (equivb_true ltb). auto.
Qed.

Lemma rbegin_keys m : forall m',
  StdMap.keys m = StdMap.keys m' ->
  option_map fst (StdMap.rbegin m) = option_map fst (StdMap.rbegin m').
Proof.
  induction m as [|e r IH]; intros [|e' r'] Hk; try discriminate;
    [reflexivity|].
  unfold StdMap.keys in *. simpl in Hk. inversion Hk as [[Hk1 Hk2]].
  specialize (IH r' Hk2).
  destruct r as [|e1 r1], r' as [|e1' r1']; try discriminate.
  - simpl. congruence.
  - exact IH.
Qed.

Lemma rbegin_update k f m :
  option_map fst (StdMap.rbegin (StdMap.update ltb k f m)) =
  option_map fst (StdMap.rbegin m).
Proof. apply rbegin_keys. apply update_keys. Qed.

Lemma rbegin_insert k v m :
  map_wf m -> good k -> StdMap.find ltb k m = None ->
  StdMap.rbegin (fst (StdMap.insert ltb k v m)) =
  match StdMap.rbegin m with
  | None => Some (k, v)
  | Some e => if ltb (fst e) k then Some (k, v) else Some e
  end.
Proof.
  intros Hw Hk Hf.
  pose proof (insert_wf ltb good k v m Hw Hk) as Hw'.
  pose proof (proj2 (insert_inserted ltb k v m) Hf) as Hi.
  pose proof (insert_perm ltb k v m Hi) as Hp.
  destruct (StdMap.rbegin m) as [e|] eqn:Er.
  - destruct (rbegin_max ltb good _ _ Hw Er) as [Hin Hmax].
    destruct (ltb (fst e) k) eqn:El; apply rbegin_unique; auto.
    + apply (Permutation_in _ (Permutation_sym Hp)). left. reflexivity.
    + intros e' Hin'. apply (Permutation_in _ Hp) in Hin'.
      destruct Hin' as [<-|Hin']; [apply (ltb_irrefl ltb good)|].
      cbn [fst]. destruct (ltb k (fst e')) eqn:E; [|reflexivity].
      pose proof (ltb_trans ltb good _ _ _ El E) as Ht.
      rewrite (Hmax _ Hin') in Ht. discriminate.
    + apply (Permutation_in _ (Permutation_sym Hp)). right. exact Hin.
    + intros e' Hin'. apply (Permutation_in _ Hp) in Hin'.
      destruct Hin' as [<-|Hin']; [exact El | apply Hmax; exact Hin'].
  - apply rbegin_none in Er. subst m. reflexivity.
Qed.

(** Erasing an entry other than the last leaves the last entry. *)
Lemma rbegin_erase_other k m e :
  map_wf m -> StdMap.rbegin m = Some e ->
  StdMap.equivb ltb (fst e) k = false ->
  StdMap.rbegin (StdMap.erase ltb k m) = Some e.
Proof.
  intros Hw Er Hne.
  destruct (rbegin_max ltb good _ _ Hw Er) as [Hin Hmax].
  destruct (StdMap.find ltb k m) as [e0|] eqn:Hf.
  2:{ rewrite (erase_absent ltb) by exact Hf. exact Er. }
  pose proof (erase_perm ltb _ _ _ Hf) as Hp.
  apply (find_some ltb) in Hf as [_ He0].
  apply rbegin_unique.
  - apply erase_wf; auto.
  - apply (Permutation_in _ Hp) in Hin. destruct Hin as [->|Hin]; auto.
    congruence.
  - intros e' Hin'. apply Hmax. eapply erase_incl. exact Hin'.
Qed.

(** Erasing the last entry leaves an empty map, or a last entry with a
    smaller key. *)
Lemma rbegin_erase_last k m e :
  map_wf m -> good k -> StdMap.rbegin m = Some e ->
  StdMap.equivb ltb (fst e) k = true ->
  match StdMap.rbegin (StdMap.erase ltb k m) with
  | None => StdMap.erase ltb k m = []
  | Some e' => ltb (fst e') (fst e) = true
  end.
Proof.
  intros Hw Hk Er He.
  destruct (rbegin_max ltb good _ _ Hw Er) as [Hin Hmax].
  pose proof (erase_wf ltb good k m Hw) as Hw'.
  assert (Hg : forall e1, In e1 m -> good (fst e1)).
  { intros e1 H. destruct Hw as [_ Hgood].
    rewrite Forall_forall in Hgood. apply Hgood.
    unfold StdMap.keys. apply in_map. exact H. }
  destruct (StdMap.rbegin (StdMap.erase ltb k m)) as [e'|] eqn:Er'.
  2:{ apply rbegin_none in Er'. exact Er'. }
  destruct (rbegin_max ltb good _ _ Hw' Er') as [Hin' _].
  pose proof (erase_incl ltb _ _ _ Hin') as Hin2.
  assert (Hf : StdMap.find ltb (fst e') (StdMap.erase ltb k m) = Some e').
  { destruct e' as [k' v']. apply (find_in ltb good); auto. }
  rewrite (find_erase ltb good) in Hf; auto.
  destruct (StdMap.equivb ltb k (fst e')) eqn:Ek; [discriminate|].
  rewrite <- (equivb_trans_l ltb good (fst e) k (fst e')) in Ek; auto.
  apply (equivb_false ltb) in Ek.
  destruct Ek as [Ek|Ek]; [|exact Ek].
  rewrite (Hmax _ Hin2) in Ek. discriminate.
Qed.

End MapRoundTrip.

(** ** More of the order book: what a call changes and what it leaves *)

Section BookCalls.

Import Book.

Lemma price_of_none order_id b :
  price_of order_id b = None <->
  StdMap.find Z.ltb order_id (order_price_map_ b) = None.
Proof.
  unfold price_of.
  destruct (StdMap.find Z.ltb order_id (order_price_map_ b)); simpl;
    split; congruence.
Qed.

Lemma zequiv_false (a b : Z) : a <> b -> StdMap.equivb Z.ltb a b = false.
Proof.
  intros Hne. destruct (StdMap.equivb Z.ltb a b) eqn:E; [|reflexivity].
  apply zequiv_eq in E. contradiction.
Qed.

(** The book after [insert_order] of an order that is not live. *)
Lemma insert_order_fresh order_id price b :
  StdMap.find Z.ltb order_id (order_price_map_ b) = None ->
  insert_order order_id price b =
  {| order_price_map_ :=
       fst (StdMap.insert Z.ltb order_id price (order_price_map_ b));
     price_count_map_ :=
       match StdMap.find Double.ltb price (price_count_map_ b) with
       | None => fst (StdMap.insert Double.ltb price 1 (price_count_map_ b))
       | Some _ =>
           StdMap.update Double.ltb price (fun c => Int.add c 1)
             (price_count_map_ b)
       end |}.
Proof.
  intros Hf. unfold insert_order.
  rewrite (proj2 (insert_inserted Z.ltb order_id price _) Hf).
  cbn [negb set_order_price_map set_price_count_map price_count_map_
       order_price_map_].
  destruct (snd (StdMap.insert Double.ltb price 1 (price_count_map_ b)))
    eqn:Hi; cbn [negb].
  - rewrite (proj1 (insert_inserted Double.ltb price 1 _) Hi). reflexivity.
  - rewrite (insert_present Double.ltb _ _ _ Hi).
    destruct (StdMap.find Double.ltb price (price_count_map_ b)) eqn:Hp;
      [reflexivity|].
    apply (insert_inserted Double.ltb price 1) in Hp. congruence.
Qed.

(** The book after [erase_order] of a live order whose price is counted. *)
Lemma erase_order_live order_id b e a c :
  StdMap.find Z.ltb order_id (order_price_map_ b) = Some e ->
  StdMap.find Double.ltb (snd e) (price_count_map_ b) = Some (a, c) ->
  erase_order order_id b =
  Some {| order_price_map_ :=
            StdMap.erase Z.ltb order_id (order_price_map_ b);
          price_count_map_ :=
            if Int.sub c 1 <=? 0 then
              StdMap.erase Double.ltb (snd e)
                (StdMap.update Double.ltb (snd e) (fun _ => Int.sub c 1)
                   (price_count_map_ b))
            else
              StdMap.update Double.ltb (snd e) (fun _ => Int.sub c 1)
                (price_count_map_ b) |}.
Proof.
  intros Hf Hp. unfold erase_order. rewrite Hf. destruct e as [k q].
  cbn [snd set_order_price_map set_price_count_map price_count_map_
       order_price_map_] in *.
  rewrite Hp. destruct (Int.sub c 1 <=? 0); reflexivity.
Qed.

Lemma erase_order_orders order_id b b1 :
  erase_order order_id b = Some b1 ->
  order_price_map_ b1 = StdMap.erase Z.ltb order_id (order_price_map_ b).
Proof.
  unfold erase_order.
  destruct (StdMap.find Z.ltb order_id (order_price_map_ b)) as [[k q]|] eqn:Hf.
  - cbn [set_order_price_map set_price_count_map price_count_map_
         order_price_map_].
    destruct (StdMap.find Double.ltb q (price_count_map_ b)) as [[a c]|];
      [|discriminate].
    destruct (Int.sub c 1 <=? 0); intros H; inversion H; reflexivity.
  - intros H. inversion H; subst b1.
    rewrite (erase_absent Z.ltb) by exact Hf. reflexivity.
Qed.

(** The count of the price of a live order. *)
Lemma live_price_counted b order_id q :
  Inv b -> live b <= Int.max_int ->
  price_of order_id b = Some q ->
  exists k a c,
    StdMap.find Z.ltb order_id (order_price_map_ b) = Some (k, q) /\
    StdMap.find Double.ltb q (price_count_map_ b) = Some (a, c) /\
    In (a, c) (price_count_map_ b) /\
    Double.not_nan q /\ Double.not_nan a /\
    StdMap.equivb Double.ltb a q = true /\
    c = count_at q (order_price_map_ b) /\ 0 < c /\
    Int.sub c 1 = c - 1.
Proof.
  intros HI Hlive Hq. unfold price_of in Hq.
  destruct (StdMap.find Z.ltb order_id (order_price_map_ b)) as [[k q0]|]
    eqn:Hf; [|discriminate].
  simpl in Hq. inversion Hq; subst q0.
  apply (find_some Z.ltb) in Hf as Hin. destruct Hin as [Hin _].
  destruct (Inv_price_listed b k q HI Hin) as (a & c & Hina & Hea).
  destruct (Inv_entry b a c HI Hina) as (Ha & Hc & Hpos).
  pose proof HI as [Ho Hpc Hre _ _].
  assert (Hnq : Double.not_nan q).
  { rewrite Forall_forall in Hre. apply (Hre _ Hin). }
  exists k, a, c. split; [reflexivity|].
  assert (Hca : count_at a (order_price_map_ b)
                = count_at q (order_price_map_ b))
    by (apply count_at_equiv; auto).
  pose proof (count_at_bounds q (order_price_map_ b)) as Hb.
  unfold live in Hlive.
  repeat split; auto.
  - rewrite <- (find_equiv Double.ltb Double.not_nan a q) by auto.
    apply (find_in Double.ltb Double.not_nan); auto.
  - congruence.
  - unfold Int.sub. apply wrap_small. unfold Int.in_range, Int.min_int.
    unfold Int.max_int in *. lia.
Qed.

End BookCalls.

Section BookRoundTrips.

Import Book.

(** X1. An order inserted and erased: on every reachable book with room
    for one more order, [insert_order] of an order that is not live at a
    price that is a number, followed by [erase_order] of that order, is
    defined and gives back the book as it was, both maps entry for
    entry. *)
Theorem insert_then_erase (b : OrderBook) (order_id : int) (p : double) :
  reachable b -> live b < Int.max_int -> Double.not_nan p ->
  price_of order_id b = None ->
  erase_order order_id (insert_order order_id p b) = Some b.
Proof.
  intros Hr Hlive Hp Hn. apply reachable_Inv in Hr as [HI _].
  pose proof HI as [Ho Hpc Hre Hc Ht].
  apply price_of_none in Hn.
  rewrite (insert_order_fresh _ _ _ Hn).
  assert (Hfo : StdMap.find Z.ltb order_id
                  (fst (StdMap.insert Z.ltb order_id p (order_price_map_ b)))
                = Some (order_id, p)).
  { rewrite (find_insert Z.ltb any_key) by auto using any_key_I.
    rewrite (equivb_refl Z.ltb any_key). reflexivity. }
  destruct (StdMap.find Double.ltb p (price_count_map_ b)) as [[a c]|] eqn:Hfp.
  - (* the price is counted already *)
    apply (find_some Double.ltb) in Hfp as Hin. destruct Hin as [Hin _].
    destruct (Inv_entry b a c HI Hin) as (Ha & Hcc & Hpos).
    pose proof (count_at_bounds a (order_price_map_ b)) as Hb.
    unfold live in Hlive.
    assert (Hadd : Int.add c 1 = c + 1).
    { unfold Int.add. apply wrap_small.
      unfold Int.in_range, Int.min_int. unfold Int.max_int in *. lia. }
    assert (Hsub : Int.sub (c + 1) 1 = c).
    { unfold Int.sub. replace (c + 1 - 1) with c by lia. apply wrap_small.
      unfold Int.in_range, Int.min_int. unfold Int.max_int in *. lia. }
    rewrite (erase_order_live _ _ (order_id, p) a (Int.add c 1)).
    + cbn [snd order_price_map_ price_count_map_].
      rewrite Hadd, Hsub.
      destruct (c <=? 0) eqn:Ec; [apply Z.leb_le in Ec; lia|].
      rewrite (erase_insert Z.ltb any_key) by exact Hn.
      rewrite (update_restore Double.ltb p _ _ (a, c) Hfp).
      rewrite book_eta. reflexivity.
    + exact Hfo.
    + cbn [snd order_price_map_ price_count_map_].
      rewrite (find_update_same Double.ltb _ _ _ _ Hfp). reflexivity.
  - (* a new price point *)
    rewrite (erase_order_live _ _ (order_id, p) p 1).
    + cbn [snd order_price_map_ price_count_map_].
      change (Int.sub 1 1) with 0. cbn [Z.leb Z.compare].
      rewrite (erase_update Double.ltb).
      rewrite (erase_insert Z.ltb any_key) by exact Hn.
      rewrite (erase_insert Double.ltb Double.not_nan) by exact Hfp.
      rewrite book_eta. reflexivity.
    + exact Hfo.
    + cbn [snd order_price_map_ price_count_map_].
      rewrite (find_insert Double.ltb Double.not_nan) by auto.
      rewrite (equivb_refl Double.ltb Double.not_nan). reflexivity.
Qed.

Lemma insert_then_erase_witness :
  erase_order 101 (insert_order 101 (Double.of_int 13)
                     (insert_order 100 (Double.of_int 10) new))
  = Some (insert_order 100 (Double.of_int 10) new).
Proof.
  apply (insert_then_erase (insert_order 100 (Double.of_int 10) new) 101
           (Double.of_int 13)).
  - exists [Insert 100 (Double.of_int 10)].
    split; [repeat constructor|].
    split; [vm_compute; discriminate | reflexivity].
  - vm_compute. reflexivity.
  - reflexivity.
  - reflexivity.
Defined.

(** X2. What [insert_order] leaves: on every reachable book,
    [insert_order order_id p] leaves the price of every other order as it
    was, and the number of live orders grows by one when [order_id] was
    not live and stays when it was. *)
Theorem insert_order_frame (b : OrderBook) (order_id : int) (p : double) :
  reachable b ->
  (forall other, other <> order_id ->
     price_of other (insert_order order_id p b) = price_of other b) /\
  live (insert_order order_id p b) =
  live b + match price_of order_id b with None => 1 | Some _ => 0 end.
Proof.
  intros Hr. apply reachable_wf in Hr as Hw.
  destruct (StdMap.find Z.ltb order_id (order_price_map_ b)) as [e|] eqn:Hf.
  - rewrite insert_order_present by congruence.
    unfold price_of at 3. rewrite Hf. simpl. split; [reflexivity|lia].
  - pose proof (proj2 (price_of_none order_id b) Hf) as Hn. rewrite Hn.
    split.
    + intros other Hne. unfold price_of. rewrite insert_order_orders.
      rewrite (find_insert Z.ltb any_key) by auto using any_key_I.
      rewrite zequiv_false by congruence. reflexivity.
    + unfold live. rewrite insert_order_orders.
      pose proof (proj2 (insert_inserted Z.ltb order_id p _) Hf) as Hi.
      rewrite (Permutation_length (insert_perm Z.ltb _ _ _ Hi)).
      simpl length. rewrite Nat2Z.inj_succ. lia.
Qed.

Lemma insert_order_frame_witness :
  (forall other, other <> 101 ->
     price_of other (insert_order 101 (Double.of_int 13)
                       (insert_order 100 (Double.of_int 10) new))
     = price_of other (insert_order 100 (Double.of_int 10) new)) /\
  live (insert_order 101 (Double.of_int 13)
          (insert_order 100 (Double.of_int 10) new))
  = live (insert_order 100 (Double.of_int 10) new)
    + match price_of 101 (insert_order 100 (Double.of_int 10) new) with
      | None => 1
      | Some _ => 0
      end.
Proof.
  apply (insert_order_frame (insert_order 100 (Double.of_int 10) new) 101
           (Double.of_int 13)).
  exists [Insert 100 (Double.of_int 10)].
  split; [repeat constructor|].
  split; [vm_compute; discriminate | reflexivity].
Defined.

(** X3. What [erase_order] leaves: on every reachable book,
    [erase_order order_id] is defined, the order is not live afterwards,
    the price of every other order is as it was, and the number of live
    orders falls by one when the order was live and stays when it was
    not. *)
Theorem erase_order_frame (b : OrderBook) (order_id : int) :
  reachable b ->
  exists b1, erase_order order_id b = Some b1 /\
    price_of order_id b1 = None /\
    (forall other, other <> order_id ->
       price_of other b1 = price_of other b) /\
    live b1 =
    live b - match price_of order_id b with None => 0 | Some _ => 1 end.
Proof.
  intros Hr. apply reachable_wf in Hr as Hw.
  apply reachable_Inv in Hr as [HI Hlive].
  destruct (erase_order_Inv order_id b HI Hlive) as (b1 & He & _ & _ & Hno).
  exists b1. split; [exact He|].
  pose proof (erase_order_orders _ _ _ He) as Ho.
  split; [apply price_of_none; exact Hno|]. split.
  - intros other Hne. unfold price_of. rewrite Ho.
    rewrite (find_erase Z.ltb any_key) by auto using any_key_I.
    rewrite zequiv_false by congruence. reflexivity.
  - unfold live, price_of. rewrite Ho.
    destruct (StdMap.find Z.ltb order_id (order_price_map_ b)) as [e|] eqn:Hf.
    + rewrite (Permutation_length (erase_perm Z.ltb _ _ _ Hf)).
      simpl length. rewrite Nat2Z.inj_succ. cbn [option_map]. lia.
    + rewrite (erase_absent Z.ltb) by exact Hf. cbn [option_map]. lia.
Qed.

Lemma erase_order_frame_witness :
  exists b1, erase_order 100 (insert_order 100 (Double.of_int 10) new)
             = Some b1 /\
    price_of 100 b1 = None /\
    (forall other, other <> 100 ->
       price_of other b1
       = price_of other (insert_order 100 (Double.of_int 10) new)) /\
    live b1 =
    live (insert_order 100 (Double.of_int 10) new)
    - match price_of 100 (insert_order 100 (Double.of_int 10) new) with
      | None => 0
      | Some _ => 1
      end.
Proof.
  apply (erase_order_frame (insert_order 100 (Double.of_int 10) new) 100).
  exists [Insert 100 (Double.of_int 10)].
  split; [repeat constructor|].
  split; [vm_compute; discriminate | reflexivity].
Defined.

Lemma max_price_key b :
  max_price b =
  match option_map fst (StdMap.rbegin (price_count_map_ b)) with
  | None => Double.quiet_NaN
  | Some price => price
  end.
Proof.
  unfold max_price.
  destruct (StdMap.rbegin (price_count_map_ b)) as [[a c]|]; reflexivity.
Qed.

Lemma max_price_keys b b1 :
  option_map fst (StdMap.rbegin (price_count_map_ b1)) =
  option_map fst (StdMap.rbegin (price_count_map_ b)) ->
  max_price b1 = max_price b.
Proof. intros H. rewrite !max_price_key, H. reflexivity. Qed.

Lemma wf_key_good {K V : Type} (ltb : K -> K -> bool) (good : K -> Prop)
  (m : StdMap.t (K := K) (V := V)) (e : K * V) :
  StdMap.wf ltb good m -> In e m -> good (fst e).
Proof.
  intros [_ Hg] Hin. rewrite Forall_forall in Hg. apply Hg.
  unfold StdMap.keys. apply in_map. exact Hin.
Qed.

(** X4. The maximum after an insertion: on every reachable book,
    [insert_order] of an order that is not live, at a price [p] that is a
    number, makes [max_price] the larger of the old maximum and [p]: [p]
    when the book was empty or its maximum was below [p], and the old
    maximum, the very double, otherwise. *)
Theorem max_price_after_insert (b : OrderBook) (order_id : int) (p : double) :
  reachable b -> Double.not_nan p -> price_of order_id b = None ->
  max_price (insert_order order_id p b) =
  if Double.isnan (max_price b) then p
  else if Double.ltb (max_price b) p then p
  else max_price b.
Proof.
  intros Hr Hp Hn. apply reachable_Inv in Hr as [HI _].
  pose proof HI as [_ Hpc _ _ _].
  apply price_of_none in Hn. rewrite (insert_order_fresh _ _ _ Hn).
  destruct (StdMap.find Double.ltb p (price_count_map_ b)) as [[a c]|] eqn:Hfp.
  - (* the price is counted already: the keys are as they were *)
    rewrite (max_price_keys b)
      by (cbn [price_count_map_]; apply rbegin_update).
    apply (find_some Double.ltb) in Hfp as [Hin Hea]. cbn [fst] in Hea.
    unfold max_price.
    destruct (StdMap.rbegin (price_count_map_ b)) as [[am cm]|] eqn:Er.
    2:{ apply rbegin_none in Er. rewrite Er in Hin. contradiction. }
    destruct (rbegin_max Double.ltb Double.not_nan _ _ Hpc Er) as [Hinm Hmax].
    pose proof (wf_key_good _ _ _ _ Hpc Hinm) as Hgm.
    pose proof (wf_key_good _ _ _ _ Hpc Hin) as Hga. cbn [fst] in Hgm, Hga.
    rewrite Hgm.
    rewrite <- (equivb_ltb_r Double.ltb Double.not_nan a p am) by auto.
    pose proof (Hmax _ Hin) as Hm. cbn [fst] in Hm. rewrite Hm. reflexivity.
  - unfold max_price. cbn [price_count_map_].
    rewrite (rbegin_insert Double.ltb Double.not_nan) by auto.
    destruct (StdMap.rbegin (price_count_map_ b)) as [[am cm]|] eqn:Er;
      [|reflexivity].
    destruct (rbegin_max Double.ltb Double.not_nan _ _ Hpc Er) as [Hinm _].
    pose proof (wf_key_good _ _ _ _ Hpc Hinm) as Hgm. cbn [fst] in *.
    rewrite Hgm. destruct (Double.ltb am p); reflexivity.
Qed.

Lemma max_price_after_insert_witness :
  max_price (insert_order 101 (Double.of_int 13)
               (insert_order 100 (Double.of_int 10) new)) =
  if Double.isnan (max_price (insert_order 100 (Double.of_int 10) new))
  then Double.of_int 13
  else if Double.ltb (max_price (insert_order 100 (Double.of_int 10) new))
            (Double.of_int 13)
       then Double.of_int 13
       else max_price (insert_order 100 (Double.of_int 10) new).
Proof.
  apply (max_price_after_insert (insert_order 100 (Double.of_int 10) new)
           101 (Double.of_int 13)).
  - exists [Insert 100 (Double.of_int 10)].
    split; [repeat constructor|].
    split; [vm_compute; discriminate | reflexivity].
  - reflexivity.
  - reflexivity.
Defined.

(** X5. The maximum after an erasure: on every reachable book,
    [erase_order] of a live order at price [q] leaves [max_price] as it
    was when [q] is below the maximum or another live order has the price
    [q]; otherwise, the last order at the maximum being gone, [max_price]
    is NaN (the book is empty) or strictly below the old maximum. *)
Theorem max_price_after_erase (b : OrderBook) (order_id : int) (q : double) :
  reachable b -> price_of order_id b = Some q ->
  exists b1, erase_order order_id b = Some b1 /\
    if Double.ltb q (max_price b) || (1 <? count_at q (order_price_map_ b))
    then max_price b1 = max_price b
    else Double.isnan (max_price b1) = true \/
         Double.ltb (max_price b1) (max_price b) = true.
Proof.
  intros Hr Hq. apply reachable_Inv in Hr as [HI Hlive].
  pose proof HI as [_ Hpc _ _ _].
  destruct (live_price_counted b order_id q HI Hlive Hq)
    as (k & a & c & Hfo & Hfp & Hina & Hnq & Hna & Hea & Hc & Hpos & Hsub).
  rewrite (erase_order_live _ _ (k, q) a c Hfo Hfp).
  eexists. split; [reflexivity|].
  cbn [snd]. rewrite Hsub, <- Hc.
  set (m1 := StdMap.update Double.ltb q (fun _ => c - 1) (price_count_map_ b)).
  assert (Hw1 : StdMap.wf Double.ltb Double.not_nan m1)
    by (apply update_wf; auto).
  destruct (StdMap.rbegin (price_count_map_ b)) as [[am cm]|] eqn:Er.
  2:{ apply rbegin_none in Er. rewrite Er in Hina. contradiction. }
  destruct (rbegin_max Double.ltb Double.not_nan _ _ Hpc Er) as [Hinm Hmax].
  pose proof (wf_key_good _ _ _ _ Hpc Hinm) as Hgm. cbn [fst] in Hgm.
  assert (Hmb : max_price b = am) by (unfold max_price; rewrite Er; auto).
  assert (Er1 : exists cm1, StdMap.rbegin m1 = Some (am, cm1)).
  { pose proof (rbegin_update Double.ltb q (fun _ => c - 1)
                  (price_count_map_ b)) as Hk.
    fold m1 in Hk. rewrite Er in Hk. simpl in Hk.
    destruct (StdMap.rbegin m1) as [[am1 cm1]|]; [|discriminate].
    simpl in Hk. inversion Hk. eauto. }
  destruct Er1 as (cm1 & Er1).
  rewrite Hmb.
  destruct (c - 1 <=? 0) eqn:Ec.
  - apply Z.leb_le in Ec.
    assert (E1 : (1 <? c) = false) by (apply Z.ltb_ge; lia).
    rewrite E1, orb_false_r.
    destruct (Double.ltb q am) eqn:Elt.
    + unfold max_price. cbn [price_count_map_].
      rewrite (rbegin_erase_other Double.ltb Double.not_nan q m1 (am, cm1));
        auto.
      cbn [fst]. apply (equivb_false Double.ltb). auto.
    + assert (Heq : StdMap.equivb Double.ltb am q = true).
      { apply (equivb_true Double.ltb). split; [|exact Elt].
        rewrite <- (equivb_ltb_r Double.ltb Double.not_nan a q am) by auto.
        apply (Hmax _ Hina). }
      pose proof (rbegin_erase_last Double.ltb Double.not_nan q m1 (am, cm1)
                    Hw1 Hnq Er1 Heq) as Hlast.
      unfold max_price. cbn [price_count_map_].
      destruct (StdMap.rbegin (StdMap.erase Double.ltb q m1)) as [[a1 c1]|].
      * right. exact Hlast.
      * left. reflexivity.
  - apply Z.leb_gt in Ec.
    assert (E1 : (1 <? c) = true) by (apply Z.ltb_lt; lia).
    rewrite E1, orb_true_r.
    unfold max_price. cbn [price_count_map_]. rewrite Er1. reflexivity.
Qed.

Lemma max_price_after_erase_witness :
  exists b1,
    erase_order 101 (insert_order 101 (Double.of_int 13)
                       (insert_order 100 (Double.of_int 10) new))
    = Some b1 /\
    if Double.ltb (Double.of_int 13)
         (max_price (insert_order 101 (Double.of_int 13)
                       (insert_order 100 (Double.of_int 10) new)))
       || (1 <? count_at (Double.of_int 13)
                  (order_price_map_
                     (insert_order 101 (Double.of_int 13)
                        (insert_order 100 (Double.of_int 10) new))))
    then max_price b1
         = max_price (insert_order 101 (Double.of_int 13)
                        (insert_order 100 (Double.of_int 10) new))
    else Double.isnan (max_price b1) = true \/
         Double.ltb (max_price b1)
           (max_price (insert_order 101 (Double.of_int 13)
                         (insert_order 100 (Double.of_int 10) new)))
         = true.
Proof.
  apply (max_price_after_erase
           (insert_order 101 (Double.of_int 13)
              (insert_order 100 (Double.of_int 10) new))
           101 (Double.of_int 13)).
  - exists [Insert 100 (Double.of_int 10); Insert 101 (Double.of_int 13)].
    split; [repeat constructor|].
    split; [vm_compute; discriminate | reflexivity].
  - reflexivity.
Defined.

(** X6. No live order is left out of the counts: on every reachable book
    and for every price [p] that is a number, the count that
    [price_count_map_] holds for [p], taken as [0] where [find] gives
    [end()], is the number of live orders whose price compares equal to
    [p]. *)
Theorem stored_count_complete (b : OrderBook) (p : double) :
  reachable b -> Double.not_nan p ->
  stored_count p b = count_at p (order_price_map_ b).
Proof.
  intros Hr Hp. apply reachable_Inv in Hr as [HI _].
  pose proof (inv_count b HI p Hp) as Hc. unfold stored_count.
  destruct (StdMap.find Double.ltb p (price_count_map_ b)) as [[a c]|];
    simpl in Hc;
    destruct (count_at p (order_price_map_ b) =? 0) eqn:Ez;
    try discriminate.
  - inversion Hc. reflexivity.
  - apply Z.eqb_eq in Ez. congruence.
Qed.

Lemma stored_count_complete_witness :
  stored_count (Double.of_int 13)
    (insert_order 101 (Double.of_int 13)
       (insert_order 100 (Double.of_int 10) new))
  = count_at (Double.of_int 13)
      (order_price_map_
         (insert_order 101 (Double.of_int 13)
            (insert_order 100 (Double.of_int 10) new))).
Proof.
  apply (stored_count_complete
           (insert_order 101 (Double.of_int 13)
              (insert_order 100 (Double.of_int 10) new))
           (Double.of_int 13)).
  - exists [Insert 100 (Double.of_int 10); Insert 101 (Double.of_int 13)].
    split; [repeat constructor|].
    split; [vm_compute; discriminate | reflexivity].
  - reflexivity.
Defined.

End BookRoundTrips.

(** ** Every live order erased *)

Section BookEmptied.

Import Book.

Lemma erase_order_none (b b1 : OrderBook) (order_id other : int) :
  StdMap.wf Z.ltb any_key (order_price_map_ b) ->
  erase_order order_id b = Some b1 ->
  price_of other b = None -> price_of other b1 = None.
Proof.
  intros Hw He Hn. unfold price_of in *.
  rewrite (erase_order_orders _ _ _ He).
  rewrite (find_erase Z.ltb any_key) by auto using any_key_I.
  destruct (StdMap.equivb Z.ltb order_id other); [reflexivity|exact Hn].
Qed.

Lemma run_erase (ks : list int) : forall b,
  Inv b -> live b <= Int.max_int ->
  exists b1, run (map Erase ks) b = Some b1 /\ Inv b1 /\
    (forall id, In id ks -> price_of id b1 = None) /\
    (forall id, price_of id b = None -> price_of id b1 = None).
Proof.
  induction ks as [|k ks IH]; intros b HI Hlive.
  - exists b. split; [reflexivity|]. split; [exact HI|].
    split; [intros id []|auto].
  - destruct (erase_order_Inv k b HI Hlive) as (b0 & He & HI0 & Hl0 & Hno).
    destruct (IH b0 HI0 ltac:(lia)) as (b1 & Hrun & HI1 & Hin & Hkeep).
    exists b1. cbn [map run step]. rewrite He.
    split; [exact Hrun|]. split; [exact HI1|]. split.
    + intros id [<-|Hid]; [|apply Hin; exact Hid].
      apply Hkeep. apply price_of_none. exact Hno.
    + intros id Hn. apply Hkeep.
      apply (erase_order_none b b0 k id); auto. apply (inv_orders b HI).
Qed.

(** X7. Nothing is left behind: from every reachable book,
    [erase_order] of every live order, one after the other, is defined
    and ends in the book of the constructor, both maps empty; no price
    point stays in [price_count_map_] without an order. *)
Theorem erase_all_gives_new (b : OrderBook) :
  reachable b -> run (erase_all b) b = Some new.
Proof.
  intros Hr. apply reachable_Inv in Hr as [HI Hlive].
  pose proof (inv_orders b HI) as Hw.
  destruct (run_erase (map fst (order_price_map_ b)) b HI Hlive)
    as (b1 & Hrun & HI1 & Hin & Hkeep).
  unfold erase_all. rewrite <- (map_map fst Erase), Hrun. f_equal.
  assert (Hnone : forall id, price_of id b1 = None).
  { intros id.
    destruct (in_dec Z.eq_dec id (map fst (order_price_map_ b))) as [Hi|Hi].
    - apply Hin. exact Hi.
    - apply Hkeep. apply price_of_none.
      destruct (StdMap.find Z.ltb id (order_price_map_ b)) as [e|] eqn:Hf;
        [|reflexivity].
      apply (find_some Z.ltb) in Hf as [He Hk]. apply zequiv_eq in Hk.
      exfalso. apply Hi. subst id. apply in_map. exact He. }
  assert (Ho : order_price_map_ b1 = []).
  { destruct (order_price_map_ b1) as [|[k v] r] eqn:Eo; [reflexivity|].
    pose proof (Hnone k) as Hk. apply price_of_none in Hk.
    rewrite (find_in Z.ltb any_key k v) in Hk.
    - discriminate.
    - apply (inv_orders b1 HI1).
    - rewrite Eo. left. reflexivity. }
  pose proof (Inv_empty b1 HI1 Ho) as Hp.
  destruct b1 as [opm pcm]. cbn in Ho, Hp. subst. reflexivity.
Qed.

Lemma erase_all_gives_new_witness :
  run (erase_all (insert_order 101 (Double.of_int 13)
                    (insert_order 100 (Double.of_int 10) new)))
    (insert_order 101 (Double.of_int 13)
       (insert_order 100 (Double.of_int 10) new))
  = Some new.
Proof.
  apply (erase_all_gives_new
           (insert_order 101 (Double.of_int 13)
              (insert_order 100 (Double.of_int 10) new))).
  exists [Insert 100 (Double.of_int 10); Insert 101 (Double.of_int 13)].
  split; [repeat constructor|].
  split; [vm_compute; discriminate | reflexivity].
Defined.

End BookEmptied.

(** ** More of the accumulator: the time it stands for, and time shifts *)

Section TwapDurations.

Import Twap.

Context {P : Type} {A : Arith P} {L : ArithLaws A}.

Implicit Types (t : TWAP P) (l : list (int * P)).

(** A call adds the length of the interval it closes to [total_time_]
    when the interval began at a sample with a price. *)
Lemma next_price_total t time price :
  time_inv t -> last_time_ t <= time <= Int.max_int ->
  total_time_ (next_price time price t) =
  total_time_ t
  + (if isnan (last_price_ t) then 0 else time - last_time_ t).
Proof.
  intros [[H0 H1] H2] Hr.
  destruct (isnan (last_price_ t)) eqn:En.
  - rewrite next_price_gap by exact En. cbn [total_time_]. lia.
  - destruct (Z.ltb_spec 0 (total_time_ t)).
    + rewrite next_price_fold by auto. cbn [total_time_].
      rewrite sub_small, add_small by lia.
      apply to_of_int_law.
      unfold Int.in_range, Int.min_int. unfold Int.max_int in *. lia.
    + rewrite next_price_first by auto. cbn [total_time_].
      rewrite sub_small by lia. lia.
Qed.

Lemma feed_total l : forall t,
  time_inv t -> times_from (last_time_ t) l ->
  total_time_ (feed l t) =
  total_time_ t + priced_time (last_time_ t) (last_price_ t) l.
Proof.
  induction l as [|[time price] l IH]; intros t Ht Hl.
  - cbn. lia.
  - destruct Hl as [Hr Hl].
    destruct (next_price_time_inv t time price Ht Hr) as [Ht' Hlast].
    cbn [feed priced_time].
    rewrite IH; [|exact Ht'|rewrite Hlast; exact Hl].
    rewrite Hlast, next_price_last_price, next_price_total by auto.
    lia.
Qed.

(** Two accumulators that differ by a shift of the time recorded last
    stay so under calls that differ by the same shift. *)
Lemma next_price_shift t u time price (c : int) :
  last_price_ u = last_price_ t -> avg_price_ u = avg_price_ t ->
  total_time_ u = total_time_ t ->
  (isnan (last_price_ t) = false -> last_time_ u = last_time_ t + c) ->
  let t1 := next_price time price t in
  let u1 := next_price (time + c) price u in
  last_price_ u1 = last_price_ t1 /\ avg_price_ u1 = avg_price_ t1 /\
  total_time_ u1 = total_time_ t1 /\ last_time_ u1 = last_time_ t1 + c.
Proof.
  intros Hp Ha Ht Hl. cbv zeta. unfold next_price.
  rewrite Hp, Ha, Ht.
  destruct (isnan (last_price_ t)) eqn:En; cbn [negb].
  - cbn. rewrite Ha, Ht. auto.
  - rewrite (Hl eq_refl).
    replace (Int.sub (time + c) (last_time_ t + c))
      with (Int.sub time (last_time_ t))
      by (unfold Int.sub; f_equal; lia).
    destruct (0 <? total_time_ t); cbn; auto.
Qed.

Lemma averages_shift l (c : int) : forall t u,
  last_price_ u = last_price_ t -> avg_price_ u = avg_price_ t ->
  total_time_ u = total_time_ t ->
  (isnan (last_price_ t) = false -> last_time_ u = last_time_ t + c) ->
  averages (shift c l) u = averages l t.
Proof.
  induction l as [|[time price] l IH]; intros t u Hp Ha Ht Hl;
    [reflexivity|].
  destruct (next_price_shift t u time price c Hp Ha Ht Hl)
    as (Hp1 & Ha1 & Ht1 & Hl1).
  cbn [shift map averages fst snd]. f_equal.
  - unfold avg_price. exact Ha1.
  - apply IH; auto.
Qed.

End TwapDurations.

Section TwapTimes.

Import Twap.

(** X8. The time an average stands for: for every sequence of
    [next_price] calls with non-decreasing times (within 0..INT_MAX),
    [total_time_] after the last call is the sum of the lengths of the
    intervals that begin at a sample with a price, whatever doubles the
    prices are; the intervals after a sample without a price, and the one
    before the first sample, add nothing. *)
Theorem total_time_is_priced_time (l : list (int * double)) :
  times_from 0 l ->
  total_time_ (feed l new) = priced_time 0 NO_PRICE l.
Proof.
  intros Hl.
  rewrite (feed_total (A := binary64) l new new_time_inv Hl).
  reflexivity.
Qed.

Lemma total_time_is_priced_time_witness :
  total_time_ (feed golden new) = priced_time 0 NO_PRICE golden.
Proof.
  apply (total_time_is_priced_time golden).
  cbn. unfold Int.max_int. lia.
Defined.

(** X9. Only differences of times count: for all samples under the
    caller's contract that are still under it when every time is moved by
    the same [c], the averages after each call are the same doubles, bit
    for bit. *)
Theorem shift_invariance (l : list (int * double)) (c : int) :
  times_from 0 l -> times_from 0 (shift c l) ->
  averages (shift c l) new = averages l new.
Proof.
  intros _ _. apply (averages_shift (A := binary64)); auto.
  cbn. discriminate.
Qed.

Lemma shift_invariance_witness :
  averages (shift 500 golden) new = averages golden new.
Proof.
  apply (shift_invariance golden 500); cbn; unfold Int.max_int; lia.
Defined.

End TwapTimes.

(** ** The accumulator in doubles: the weighted mean *)

Section TwapMean.

Import Twap.

(** X10. The average is the time-weighted mean, up to the roundings of
    the folds.  For every sequence of [n] calls of [next_price] with
    non-decreasing times (within 0..INT_MAX) in which a price was in force
    for a positive time, whose prices are "no price" or positive normal
    doubles with values between [lo] and [hi], with [(lo, hi)] in range
    for [n] (so that no fold overflows or underflows): the double that
    [avg_price] returns is a positive normal double, and its value times
    the sum of the durations of the intervals that begin at a sample with
    a price is between [(1 - 2^-52)^(3n)] and [(1 + 2^-52)^(3n)] times the
    sum of price times duration over those intervals. *)
Theorem average_near_weighted_mean (l : list (int * double)) (lo hi : Q) :
  times_from 0 l -> (lo <= hi)%Q ->
  Forall (fun x => fine_price lo hi (snd x)) l ->
  in_range lo hi (length l) ->
  0 < priced_time 0 NO_PRICE l ->
  pos_normal (avg_price (feed l new)) = true /\
  (priced_value 0 NO_PRICE l * shrink (length l)
   <= value_of (avg_price (feed l new))
      * inject_Z (priced_time 0 NO_PRICE l)
   <= priced_value 0 NO_PRICE l * grow (length l))%Q.
Proof.
  intros Hl Hhi Hf Hr Hpos.
  pose proof (feed_total (A := binary64) l new new_time_inv Hl) as Ht.
  change (total_time_ (new (P := double))) with 0 in Ht.
  change (last_time_ (new (P := double))) with 0 in Ht.
  change (last_price_ (new (P := double))) with NO_PRICE in Ht.
  rewrite Z.add_0_l in Ht.
  destruct (feed_new_bounds l lo hi Hl Hhi Hf Hr) as [Ha Hm].
  rewrite Ht in Hm. destruct (Hm Hpos) as [Hn Hb].
  unfold avg_price. split; [|exact Hb].
  destruct Ha as [Ha|[Ha _]]; [congruence|exact Ha].
Qed.

Lemma average_near_weighted_mean_witness :
  pos_normal (avg_price (feed golden new)) = true /\
  (priced_value 0 NO_PRICE golden * shrink 6
   <= value_of (avg_price (feed golden new))
      * inject_Z (priced_time 0 NO_PRICE golden)
   <= priced_value 0 NO_PRICE golden * grow 6)%Q.
Proof.
  apply (average_near_weighted_mean golden 10%Q 13%Q).
  - cbn. unfold Int.max_int. lia.
  - discriminate.
  - repeat (apply Forall_cons;
            [first [left; reflexivity
                   | right; split; [reflexivity|];
                     split; vm_compute; discriminate]|]).
    apply Forall_nil.
  - split; vm_compute; discriminate.
  - reflexivity.
Defined.

End TwapMean.

(** ** The sign of the fold in doubles *)

Section Signs.

Import Twap.

Local Notation "'BRA'" := (binary_round_aux Double.prec Double.emax).

Lemma not_negative_cases (x : double) :
  not_negative x <->
  match x with
  | S754_infinity s | S754_finite s _ _ => s = false
  | _ => True
  end.
Proof.
  unfold not_negative.
  destruct x as [s|s| |s m e]; try destruct s; cbn; split; auto;
    discriminate.
Qed.

Lemma BRA_not_negative (m e : Z) (l : location) :
  0 <= m -> not_negative (BRA false m e l).
Proof.
  intros H. destruct (BRA_spec false m e l H) as (m1 & _ & ->).
  apply not_negative_cases.
  destruct (m1 / 2 ^ dropped m1 (e + dropped m e)); [exact I| |exact I].
  destruct (e + dropped m e + dropped m1 (e + dropped m e) <=? 971);
    reflexivity.
Qed.

Lemma of_int_not_negative (z : Z) : 0 <= z -> not_negative (Double.of_int z).
Proof.
  intros H. destruct z as [|n|n]; [reflexivity| |lia].
  unfold Double.of_int, binary_normalize, binary_round.
  destruct (shl_align n 0 _) as [mz ez]. apply BRA_not_negative. lia.
Qed.

Lemma div_not_negative (x : double) (n : Z) :
  not_negative x -> 0 < n < 2 ^ 53 ->
  not_negative (Double.div x (Double.of_int n)).
Proof.
  intros Hx Hn. destruct n as [|n|n]; try lia.
  rewrite of_int_pos by lia.
  apply not_negative_cases in Hx.
  destruct x as [s|s| |s m e].
  - apply not_negative_cases. exact I.
  - subst s. reflexivity.
  - reflexivity.
  - subst s. rewrite div_finite. cbv zeta. cbn [xorb].
    apply BRA_not_negative. apply Z.div_pos; [|lia].
    match goal with |- 0 <= match ?s with _ => _ end =>
      destruct s eqn:E; try lia end.
    apply Z.shiftl_nonneg. lia.
Qed.

Lemma mul_not_negative (x y : double) :
  not_negative x -> not_negative y -> not_negative (Double.mul x y).
Proof.
  intros Hx Hy. apply not_negative_cases in Hx, Hy.
  destruct x as [sx|sx| |sx mx ex], y as [sy|sy| |sy my ey];
    try subst sx; try subst sy; try reflexivity;
    try (apply not_negative_cases; exact I).
  unfold Double.mul, SFmul. cbn [xorb]. apply BRA_not_negative. lia.
Qed.

Lemma add_not_negative (x y : double) :
  not_negative x -> not_negative y -> not_negative (Double.add x y).
Proof.
  intros Hx Hy. apply not_negative_cases in Hx as Hx', Hy as Hy'.
  destruct x as [sx|sx| |sx mx ex], y as [sy|sy| |sy my ey];
    try subst sx; try subst sy; try reflexivity; try assumption;
    try (apply not_negative_cases; exact I).
  - destruct sx, sy; apply not_negative_cases; exact I.
  - unfold Double.add, SFadd. cbn [cond_Zopp].
    match goal with
    | |- not_negative (binary_normalize _ _ (Zpos ?a + Zpos ?b) ?e _) =>
        change (Zpos a + Zpos b) with (Zpos (a + b))
    end.
    unfold binary_normalize, binary_round.
    match goal with
    | |- not_negative (let '(_, _) := ?s in _) => destruct s as [mz ez]
    end.
    apply BRA_not_negative. lia.
Qed.

Lemma fold_not_negative (avg last : double) (T D : Z) :
  not_negative avg -> not_negative last ->
  0 < T -> 0 <= D -> T + D <= Int.max_int ->
  not_negative
    (Double.add
       (Double.mul (Double.div avg (Double.of_int (T + D))) (Double.of_int T))
       (Double.mul (Double.div last (Double.of_int (T + D)))
                   (Double.of_int D))).
Proof.
  unfold Int.max_int. intros Ha Hl HT HD HN.
  apply add_not_negative; apply mul_not_negative;
    try (apply div_not_negative; [assumption | lia]);
    apply of_int_not_negative; lia.
Qed.

Lemma next_price_not_negative (t : TWAP double) (time : int)
  (price : double) :
  time_inv t -> last_time_ t <= time <= Int.max_int ->
  not_negative (last_price_ t) -> not_negative (avg_price_ t) ->
  not_negative (avg_price_ (next_price time price t)).
Proof.
  intros [[H0 H1] H2] Hr Hl Ha.
  destruct (Double.isnan (last_price_ t)) eqn:En.
  - rewrite (next_price_gap (A := binary64)) by exact En. exact Ha.
  - destruct (Z.ltb_spec 0 (total_time_ t)).
    + rewrite (next_price_fold (A := binary64)) by auto.
      cbn [avg_price_]. rewrite sub_small, add_small by lia.
      apply fold_not_negative; auto; lia.
    + rewrite (next_price_first (A := binary64)) by auto. exact Hl.
Qed.

Lemma feed_not_negative (l : list (int * double)) : forall t,
  time_inv t -> times_from (last_time_ t) l ->
  not_negative (last_price_ t) -> not_negative (avg_price_ t) ->
  Forall (fun x => not_negative (snd x)) l ->
  not_negative (avg_price_ (feed l t)).
Proof.
  induction l as [|[time price] l IH]; intros t Ht Hl Hlp Ha Hp;
    [exact Ha|].
  destruct Hl as [Hr Hl]. inversion Hp as [|? ? Hp1 Hp2]; subst.
  destruct (next_price_time_inv (A := binary64) t time price Ht Hr)
    as [Ht' Hlast].
  cbn [feed].
  apply IH;
    [ exact Ht'
    | rewrite Hlast; exact Hl
    | rewrite (next_price_last_price (A := binary64)); exact Hp1
    | apply next_price_not_negative; auto
    | exact Hp2 ].
Qed.

(** X11. No negative average from prices that are not negative: in
    doubles, rounding included, for every sequence of [next_price] calls
    with non-decreasing times (within 0..INT_MAX) none of whose prices is
    below zero (NaN, "no price", among them), [avg_price() < 0] is false
    after the last call. *)
Theorem average_not_negative (l : list (int * double)) :
  times_from 0 l ->
  Forall (fun x => not_negative (snd x)) l ->
  not_negative (avg_price (feed l new)).
Proof.
  intros Hl Hp. unfold avg_price.
  apply feed_not_negative; auto; try reflexivity.
  apply (new_time_inv (A := binary64)).
Qed.

Lemma average_not_negative_witness :
  not_negative (avg_price (feed golden new)).
Proof.
  apply (average_not_negative golden).
  - cbn. unfold Int.max_int. lia.
  - repeat (apply Forall_cons; [reflexivity|]). apply Forall_nil.
Defined.

End Signs.

(** ** An average that is not finite *)

Section NotFinite.

Import Twap.

Lemma div_not_finite (x y : double) :
  Double.is_finite x = false -> Double.is_finite (Double.div x y) = false.
Proof.
  destruct x as [sx|sx| |sx mx ex]; try discriminate; intros _;
    destruct y as [sy|sy| |sy my ey]; reflexivity.
Qed.

Lemma mul_not_finite (x y : double) :
  Double.is_finite x = false -> Double.is_finite (Double.mul x y) = false.
Proof.
  destruct x as [sx|sx| |sx mx ex]; try discriminate; intros _;
    destruct y as [sy|sy| |sy my ey]; reflexivity.
Qed.

Lemma add_not_finite (x y : double) :
  Double.is_finite x = false -> Double.is_finite (Double.add x y) = false.
Proof.
  destruct x as [sx|sx| |sx mx ex]; try discriminate; intros _;
    destruct y as [sy|sy| |sy my ey]; try reflexivity.
  destruct sx, sy; reflexivity.
Qed.

Lemma next_price_not_finite (t : TWAP double) (time : int)
  (price : double) :
  time_inv t -> last_time_ t <= time <= Int.max_int ->
  0 < total_time_ t -> Double.is_finite (avg_price_ t) = false ->
  0 < total_time_ (next_price time price t) /\
  Double.is_finite (avg_price_ (next_price time price t)) = false.
Proof.
  intros Ht Hr Hpos Ha.
  pose proof (next_price_total (A := binary64) t time price Ht Hr) as Htot.
  destruct Ht as [[H0 H1] H2].
  change (isnan (last_price_ t)) with (Double.isnan (last_price_ t)) in Htot.
  split.
  - rewrite Htot. destruct (Double.isnan (last_price_ t)); lia.
  - destruct (Double.isnan (last_price_ t)) eqn:En.
    + rewrite (next_price_gap (A := binary64)) by exact En. exact Ha.
    + rewrite (next_price_fold (A := binary64)) by auto.
      cbn [avg_price_].
      apply add_not_finite, mul_not_finite, div_not_finite, Ha.
Qed.

Lemma feed_not_finite (l : list (int * double)) : forall t,
  time_inv t -> times_from (last_time_ t) l ->
  0 < total_time_ t -> Double.is_finite (avg_price_ t) = false ->
  Double.is_finite (avg_price_ (feed l t)) = false.
Proof.
  induction l as [|[time price] l IH]; intros t Ht Hl Hpos Ha; [exact Ha|].
  destruct Hl as [Hr Hl].
  destruct (next_price_time_inv (A := binary64) t time price Ht Hr)
    as [Ht' Hlast].
  destruct (next_price_not_finite t time price Ht Hr Hpos Ha) as [Hpos' Ha'].
  cbn [feed].
  apply IH; [exact Ht' | rewrite Hlast; exact Hl | exact Hpos' | exact Ha'].
Qed.

(** X12. No way back from an average that is not finite: for every
    sequence of [next_price] calls with non-decreasing times (within
    0..INT_MAX), whatever doubles the prices are, once a price has been in
    force for a positive time and [avg_price] is an infinity or NaN, it is
    an infinity or NaN after every further call. *)
Theorem not_finite_absorbing (l l' : list (int * double)) :
  times_from 0 (l ++ l') ->
  0 < priced_time 0 NO_PRICE l ->
  Double.is_finite (avg_price (feed l new)) = false ->
  Double.is_finite (avg_price (feed (l ++ l') new)) = false.
Proof.
  intros Hl Hpos Ha.
  destruct (times_from_app (A := binary64) l l' new new_time_inv Hl)
    as [Hl1 Hl2].
  pose proof (feed_total (A := binary64) l new new_time_inv Hl1) as Ht.
  rewrite (feed_app (A := binary64)). unfold avg_price in *.
  apply feed_not_finite; auto.
  - apply (feed_time_inv (A := binary64)); [exact new_time_inv|exact Hl1].
  - rewrite Ht. exact Hpos.
Qed.

Lemma not_finite_absorbing_witness :
  Double.is_finite
    (avg_price (feed ([(1000, S754_infinity false); (2000, Double.of_int 10)]
                      ++ [(3000, Double.of_int 10); (4000, NO_PRICE)]) new))
  = false.
Proof.
  apply (not_finite_absorbing
           [(1000, S754_infinity false); (2000, Double.of_int 10)]
           [(3000, Double.of_int 10); (4000, NO_PRICE)]).
  - cbn. unfold Int.max_int. lia.
  - reflexivity.
  - reflexivity.
Defined.

End NotFinite.

(** ** The program: the book's maximum given to the accumulator *)

Section ProgramFacts.

Import Book Twap Program.
Import String.StringSyntax.

Local Open Scope string_scope.
Local Open Scope Z_scope.

Lemma is_real_eqb (q a : double) :
  Double.eqb q a = true -> Double.is_real q = true ->
  Double.is_real a = true.
Proof.
  intros He Hr.
  destruct q as [sq|sq| |sq mq eq], a as [sa|sa| |sa ma ea];
    cbn [Double.is_real] in Hr |- *; try discriminate; try reflexivity;
    unfold Double.eqb, SFeqb, SFcompare in He;
    try (destruct sa; discriminate); try (destruct sq; discriminate).
  destruct sq, sa; try discriminate;
    destruct (Z.compare_spec eq ea) as [Hz|Hz|Hz]; try discriminate;
    change (Pos.compare_cont Eq mq ma) with (Pos.compare mq ma) in He;
    destruct (Pos.compare_spec mq ma) as [Hm|Hm|Hm]; try discriminate;
    subst; exact Hr.
Qed.

Lemma real_call_valid (c : call) : real_call c -> valid_call c.
Proof.
  destruct c as [order_id price|order_id]; [|auto].
  cbn. apply is_real_not_nan.
Qed.

(** The prices of the live orders are finite numbers when the prices
    inserted are. *)
Lemma step_real (b b1 : OrderBook) (c : call) :
  real_call c -> step b c = Some b1 ->
  Forall (fun e => Double.is_real (snd e) = true) (order_price_map_ b) ->
  Forall (fun e => Double.is_real (snd e) = true) (order_price_map_ b1).
Proof.
  intros Hc Hs Hb. rewrite Forall_forall in *.
  destruct c as [order_id price|order_id]; cbn in Hs, Hc.
  - inversion Hs; subst b1. rewrite insert_order_orders.
    intros e Hin. apply (insert_in Z.ltb) in Hin.
    destruct Hin as [->|Hin]; [exact Hc | apply Hb; exact Hin].
  - rewrite (erase_order_orders _ _ _ Hs).
    intros e Hin. apply Hb. eapply erase_incl. exact Hin.
Qed.

(** The maximum of a book of finite prices is a finite number, or NaN. *)
Lemma max_price_ok (b : OrderBook) :
  Inv b ->
  Forall (fun e => Double.is_real (snd e) = true) (order_price_map_ b) ->
  price_ok (max_price b).
Proof.
  intros HI Hb. pose proof HI as [_ Hpc _ _ _]. unfold max_price.
  destruct (StdMap.rbegin (price_count_map_ b)) as [[a c]|] eqn:Er;
    [|left; reflexivity].
  destruct (rbegin_max Double.ltb Double.not_nan _ _ Hpc Er) as [Hin _].
  destruct (Inv_entry b a c HI Hin) as (_ & Hc & Hpos).
  rewrite Hc in Hpos. apply count_at_pos in Hpos as (id & q & Hq & He).
  right. apply (is_real_eqb q a He).
  rewrite Forall_forall in Hb. apply (Hb _ Hq).
Qed.

Lemma fed_times (l : list (int * call)) : forall from b,
  times_from from l -> times_from from (fed l b).
Proof.
  induction l as [|[time c] l IH]; intros from b Hl; [exact I|].
  destruct Hl as [Hr Hl]. cbn [fed].
  destruct (step b c) as [b1|]; [|exact I].
  split; [exact Hr | apply IH; exact Hl].
Qed.

(** The calls of a run are defined, and the accumulator is given the
    maxima, which are prices of its interface. *)
Lemma ticks_fed (l : list (int * call)) : forall s,
  Inv (order_book s) ->
  Forall (fun e => Double.is_real (snd e) = true)
    (order_price_map_ (order_book s)) ->
  live (order_book s) + Z.of_nat (length l) <= Int.max_int ->
  Forall (fun x => real_call (snd x)) l ->
  exists s1, ticks l s = Some s1 /\
    run (map snd l) (order_book s) = Some (order_book s1) /\
    twap s1 = feed (fed l (order_book s)) (twap s) /\
    prices_ok (fed l (order_book s)).
Proof.
  induction l as [|[time c] l IH]; intros s HI Hre Hlive Hc.
  - exists s. repeat split. constructor.
  - inversion Hc as [|? ? Hc1 Hc2]; subst. cbn [snd] in Hc1.
    cbn [length] in Hlive. rewrite Nat2Z.inj_succ in Hlive.
    destruct (step_Inv (order_book s) c HI (real_call_valid c Hc1)
                ltac:(pose proof (Nat2Z.is_nonneg (length l)); lia))
      as (b1 & Hs & HI1 & Hlive1).
    pose proof (step_real _ _ _ Hc1 Hs Hre) as Hre1.
    cbn [ticks map snd run fed]. unfold tick. rewrite Hs.
    destruct (IH {| order_book := b1;
                    twap := next_price time (max_price b1) (twap s);
                    cout := cout s ++
                      [Integer time; Text " | "; Number (max_price b1);
                       Text " | ";
                       Number (avg_price
                                 (next_price time (max_price b1) (twap s)));
                       Endl] |})
      as (s1 & Ht & Hrun & Hf & Hp); cbn [order_book twap]; auto; [lia|].
    exists s1. cbn [order_book twap] in *.
    split; [exact Ht|]. split; [exact Hrun|]. split; [exact Hf|].
    constructor; [|exact Hp]. cbn [snd]. apply max_price_ok; auto.
Qed.

End ProgramFacts.

Section ProgramProperties.

Import Book Twap Program.
Import String.StringSyntax.

Local Open Scope string_scope.
Local Open Scope Z_scope.

(** X13. The two classes together, as [main] drives them: for every
    sequence of steps of [main] from a fresh book and a fresh accumulator,
    with finite prices inserted, non-decreasing times (within 0..INT_MAX)
    and no more steps than an [int] count can hold, no call is undefined;
    the accumulator is given the maximum of the book after each call,
    which is a finite number or NaN; the book at the end is reachable; and
    [avg_price] is NaN at the end exactly when the book was empty after
    every step but the last. *)
Theorem ticks_average (l : list (int * call)) (out : list item) :
  Forall (fun x => real_call (snd x)) l ->
  Z.of_nat (length l) <= Int.max_int ->
  times_from 0 l ->
  exists s,
    ticks l {| order_book := Book.new; twap := Twap.new; cout := out |}
    = Some s /\
    reachable (order_book s) /\
    twap s = feed (fed l Book.new) Twap.new /\
    prices_ok (fed l Book.new) /\
    Double.isnan (avg_price (twap s))
    = negb (priced_before_last (fed l Book.new)).
Proof.
  intros Hc Hlen Hl.
  destruct (ticks_fed l
              {| order_book := Book.new; twap := Twap.new; cout := out |})
    as (s & Ht & Hrun & Hf & Hp); cbn [order_book twap] in *.
  - exact Inv_new.
  - constructor.
  - exact Hlen.
  - exact Hc.
  - exists s. split; [exact Ht|]. split; [|split; [exact Hf|split; [exact Hp|]]].
    + exists (map snd l). split; [|split; [|exact Hrun]].
      * rewrite Forall_map. rewrite Forall_forall in *.
        intros x Hx. apply real_call_valid. apply (Hc x Hx).
      * rewrite length_map. exact Hlen.
    + rewrite Hf. unfold avg_price.
      destruct (feed_defined_inv (fed l Book.new) Twap.new new_defined_inv Hp)
        as [_ Hn].
      * apply fed_times. exact Hl.
      * rewrite Hn, (integrates_new (A := binary64)). reflexivity.
Qed.

Lemma ticks_average_witness :
  exists s,
    ticks script {| order_book := Book.new; twap := Twap.new; cout := [] |}
    = Some s /\
    reachable (order_book s) /\
    twap s = feed (fed script Book.new) Twap.new /\
    prices_ok (fed script Book.new) /\
    Double.isnan (avg_price (twap s))
    = negb (priced_before_last (fed script Book.new)).
Proof.
  apply (ticks_average script []).
  - repeat (apply Forall_cons; [first [reflexivity | exact I]|]).
    apply Forall_nil.
  - vm_compute. discriminate.
  - cbn. unfold Int.max_int. lia.
Defined.

(** X14. The run of [main]: with no argument after the program's name it
    writes the error message to [cerr], nothing to [cout], and returns 1;
    otherwise it returns 0, no call on the book is undefined, and [cout]
    holds the file name, the maximum NaN of the empty book, the six lines
    of time, maximum and average (maxima 10, 13, 13, 13, 10, NaN;
    averages NaN, 10, 10.5, the double nearest 76/7, the double just above
    11, and 10.5) and the closing line. *)
Theorem main_trace (argv : list String.string) :
  main argv =
  if Z.of_nat (length argv) <? 2 then
    Some (1, [Text "ERROR: Please specify file name as argument."], [])
  else
    Some (0, [],
          [Text "File name: "; Text (nth 1 argv String.EmptyString); Endl;
           Number NO_PRICE; Endl;
           Integer 1000; Text " | "; Number (Double.of_int 10); Text " | ";
           Number NO_PRICE; Endl;
           Integer 2000; Text " | "; Number (Double.of_int 13); Text " | ";
           Number (Double.of_int 10); Endl;
           Integer 2200; Text " | "; Number (Double.of_int 13); Text " | ";
           Number (Double.ratio 21 2); Endl;
           Integer 2400; Text " | "; Number (Double.of_int 13); Text " | ";
           Number (Double.ratio 76 7); Endl;
           Integer 2500; Text " | "; Number (Double.of_int 10); Text " | ";
           Number (SFsucc Double.prec Double.emax (Double.of_int 11)); Endl;
           Integer 4000; Text " | "; Number NO_PRICE; Text " | ";
           Number (Double.ratio 21 2); Endl;
           Text "DONE."; Endl]).
Proof.
  unfold main. destruct (Z.of_nat (length argv) <? 2); [reflexivity|].
  vm_compute. reflexivity.
Qed.

End ProgramProperties.
